(** * Shyam backend: a shallow embedding of [server.js]

    The development follows the source file top to bottom: the JavaScript
    built-ins the server relies on ([JS]), the provider rotation, the
    term-frequency vector store, the [/api/index] handler, retrieval, the
    fail-over generation loop (run alone, and run while other requests
    are served), the emergency gate, the [/api/chat] handler, requests
    served in sequence and the [/api/book] handler.
    Definitions come first; the lemmas and the theorems about them follow
    in the second half of the file.

    Conventions.
    - A JavaScript string is a sequence of UTF-16 code units.  Strings are
      modelled by [string], that is by sequences of the code units 0..255
      (Latin-1).  On that range [toLowerCase], the regular expression
      classes [\W], [\b] and the [i] flag, and [trim] are modelled unit for
      unit as ECMAScript defines them.
    - A JavaScript number that holds a count or a cursor is an integer far
      below 2^53 and is modelled by [nat] or [Z]; the similarity scores are
      genuine doubles and are modelled by the primitive binary64 [float].
    - The outside world (provider HTTP calls, the file system) is an
      explicit argument: an oracle for provider outcomes and a record for the
      files the indexer can see.  The booking handler takes the clock
      readings as arguments and leaves the JSON codec to the platform.
    - Node runs one piece of JavaScript at a time and switches between
      requests only at an [await].  The only [await] that touches the
      state of the process is the one on a provider request in
      [generateWithRotation]; what the other requests do to the state
      meanwhile is an explicit argument of [Interleaved]. *)

From Stdlib Require Import List String Ascii Bool Arith PeanoNat NArith ZArith Lia.
From Stdlib Require Import Permutation Sorted.
From Stdlib Require Import Floats.
From Stdlib Require Import DecimalString DecimalZ.
Import ListNotations.

Local Open Scope string_scope.
Local Open Scope list_scope.

Infix "+++" := String.append (right associativity, at level 60).

(* ================================================================= *)
(** ** JavaScript built-ins used by the server *)

Module JS.

(** The numeric value of a code unit. *)
Definition unit_code (c : ascii) : N := N_of_ascii c.

Definition between (lo hi : N) (c : ascii) : bool :=
  (lo <=? unit_code c)%N && (unit_code c <=? hi)%N.

(** [String.prototype.toLowerCase], one unit at a time: [A-Z] and the
    Latin-1 capitals U+00C0..U+00DE (except the multiplication sign U+00D7)
    move up by 32; every other unit of the range is its own lower case. *)
Definition toLowerUnit (c : ascii) : ascii :=
  if between 65 90 c || (between 192 222 c && negb (unit_code c =? 215)%N)
  then ascii_of_N (unit_code c + 32)
  else c.

Fixpoint toLowerCase (s : string) : string :=
  match s with
  | EmptyString => EmptyString
  | String c s' => String (toLowerUnit c) (toLowerCase s')
  end.

(** The class [\w] of a regular expression without the [u] flag:
    [[A-Za-z0-9_]]; [\W] is its complement. *)
Definition isWordChar (c : ascii) : bool :=
  between 48 57 c || between 65 90 c || between 97 122 c
  || (unit_code c =? 95)%N.

(** [s.startsWith(w)] and [s.includes(w)]. *)
Fixpoint startsWith (s w : string) : bool :=
  match w, s with
  | EmptyString, _ => true
  | String _ _, EmptyString => false
  | String a w', String b s' => Ascii.eqb a b && startsWith s' w'
  end.

Fixpoint includes (s w : string) : bool :=
  startsWith s w
  || match s with
     | EmptyString => false
     | String _ s' => includes s' w
     end.

(** [s.endsWith(w)]. *)
Fixpoint endsWith (s w : string) : bool :=
  String.eqb s w
  || match s with
     | EmptyString => false
     | String _ s' => endsWith s' w
     end.

(** [s.split(/\W+/)]: the pieces between the maximal runs of non-word
    units.  [cur] is the piece being read, [in_sep] tells that the previous
    unit belonged to a separator.  A separator at either end of the string
    leaves an empty piece there, and the empty string splits into one empty
    piece, as in JavaScript. *)
Fixpoint split_nonword (cur : string) (in_sep : bool) (s : string) : list string :=
  match s with
  | EmptyString => [cur]
  | String c s' =>
      if isWordChar c then split_nonword (cur +++ String c EmptyString) false s'
      else if in_sep then split_nonword cur true s'
      else cur :: split_nonword EmptyString true s'
  end.

Definition split_W (s : string) : list string := split_nonword EmptyString false s.

(** [Boolean(s)] for a string: the empty string is the only falsy one. *)
Definition truthy (s : string) : bool :=
  match s with EmptyString => false | String _ _ => true end.

(** [a.join(sep)]. *)
Fixpoint join (sep : string) (l : list string) : string :=
  match l with
  | [] => EmptyString
  | [x] => x
  | x :: l' => x +++ sep +++ join sep l'
  end.

(** White space and line terminators of the range: TAB, LF, VT, FF, CR,
    SPACE and NBSP. *)
Definition isSpace (c : ascii) : bool :=
  between 9 13 c || (unit_code c =? 32)%N || (unit_code c =? 160)%N.

Fixpoint trimStart (s : string) : string :=
  match s with
  | EmptyString => EmptyString
  | String c s' => if isSpace c then trimStart s' else s
  end.

(** Drops the trailing white space: a unit is kept when it is not a space
    or when something is kept after it. *)
Fixpoint trimEnd (s : string) : string :=
  match s with
  | EmptyString => EmptyString
  | String c s' =>
      match trimEnd s' with
      | EmptyString => if isSpace c then EmptyString else String c EmptyString
      | rest => String c rest
      end
  end.

Definition trim (s : string) : string := trimEnd (trimStart s).

(** [a.slice(0, e)] for an integer [e]: a negative end counts from the end
    of the array. *)
Definition slice0 {A : Type} (l : list A) (e : Z) : list A :=
  let len := Z.of_nat (List.length l) in
  let final := if (e <? 0)%Z then Z.max (len + e) 0 else Z.min e len in
  firstn (Z.to_nat final) l.

(** [a.sort(comparefn)].  [after x y] tells that [comparefn(x, y) > 0], in
    which case [y] goes before [x]; a negative, zero or NaN result keeps
    [x] first.  The sort is stable (ECMAScript 2019), and for a consistent
    comparator every stable sort yields this list.  With an inconsistent
    comparator ECMAScript leaves the order to the implementation; the model
    then gives the order of this insertion sort. *)
Section Sort.
Context {A : Type} (after : A -> A -> bool).

Fixpoint insert (x : A) (l : list A) : list A :=
  match l with
  | [] => [x]
  | y :: l' => if after x y then y :: insert x l' else x :: l
  end.

Fixpoint sort (l : list A) : list A :=
  match l with
  | [] => []
  | x :: l' => insert x (sort l')
  end.

End Sort.

(** Array indices: the canonical decimal strings of the integers
    0 .. 2^32 - 2.  An object lists such keys first, in numeric order. *)
Definition digit_value (c : ascii) : option N :=
  if between 48 57 c then Some (unit_code c - 48)%N else None.

Fixpoint parse_digits (acc : N) (s : string) : option N :=
  match s with
  | EmptyString => Some acc
  | String c s' =>
      match digit_value c with
      | Some d => parse_digits (10 * acc + d)%N s'
      | None => None
      end
  end.

Definition array_index (s : string) : option N :=
  match s with
  | EmptyString => None
  | String c s' =>
      if (unit_code c =? 48)%N
      then (if truthy s' then None else Some 0%N)
      else match parse_digits 0%N s with
           | Some n => if (n <=? 4294967294)%N then Some n else None
           | None => None
           end
  end.

End JS.

(* ================================================================= *)
(** ** Process configuration and the provider rotation *)

(** The environment variables the server reads at start-up.  An unset
    variable reads as the empty string ([process.env.X || '']). *)
Record Config := {
  GOOGLE_API_KEY : string;
  OPENAI_API_KEY : string;
  HUGGINGFACE_API_KEY : string;
  BOOKING_LINK : string
}.

Inductive Provider := google | openai | huggingface.

Definition Provider_eqb (p q : Provider) : bool :=
  match p, q with
  | google, google | openai, openai | huggingface, huggingface => true
  | _, _ => false
  end.

(** [providers]: filled once, in declaration order, with the providers
    whose key is set. *)
Definition providers (cfg : Config) : list Provider :=
  (if JS.truthy (GOOGLE_API_KEY cfg) then [google] else [])
  ++ (if JS.truthy (OPENAI_API_KEY cfg) then [openai] else [])
  ++ (if JS.truthy (HUGGINGFACE_API_KEY cfg) then [huggingface] else []).

(** [getNextProvider]: the state threaded through is [providerIndex].
    [None] is JavaScript's [null]. *)
Definition getNextProvider (cfg : Config) (providerIndex : nat) : option Provider * nat :=
  match providers cfg with
  | [] => (None, providerIndex)
  | _ :: _ =>
      (nth_error (providers cfg) (providerIndex mod List.length (providers cfg)),
       S providerIndex)
  end.

(* ================================================================= *)
(** ** The in-memory vector store *)

Record Document := { id : string; text : string }.

Record EmbeddedDocument := {
  eid : string;
  etext : string;
  embedding : list nat
}.

Record VectorStore := {
  docs : list EmbeddedDocument;
  vocab : list string
}.

(** [let vectorStore = { docs: [], vocab: [] }]. *)
Definition initialStore : VectorStore := {| docs := []; vocab := [] |}.

(** [toks]: lower-case, split on [/\W+/], drop the empty pieces. *)
Definition toks (s : string) : list string :=
  filter JS.truthy (JS.split_W (JS.toLowerCase s)).

(** The frequency table [f] of [buildVocab] is a plain object.  Its own
    properties are kept in creation order.  A read of a key that is not an
    own property goes to [Object.prototype], where two lower-case word
    tokens are found: [constructor] (the function [Object]) and
    [__proto__] (the prototype itself). *)
Inductive jsvalue :=
| Undefined
| Num (n : Z)
| Str (s : string)
| ObjectFunction
| ObjectPrototype.

Definition ftable := list (string * jsvalue).

Fixpoint own (f : ftable) (t : string) : option jsvalue :=
  match f with
  | [] => None
  | (k, v) :: f' => if String.eqb k t then Some v else own f' t
  end.

(** [f[t]] as an expression. *)
Definition get (f : ftable) (t : string) : jsvalue :=
  match own f t with
  | Some v => v
  | None =>
      if String.eqb t "constructor" then ObjectFunction
      else if String.eqb t "__proto__" then ObjectPrototype
      else Undefined
  end.

(** [(v || 0) + 1]: a number is incremented; a string or an object is
    truthy and [+] concatenates its text with ["1"]. *)
Definition or0_plus1 (v : jsvalue) : jsvalue :=
  match v with
  | Undefined => Num 1
  | Num n => if (n =? 0)%Z then Num 1 else Num (n + 1)
  | Str s => if JS.truthy s then Str (s +++ "1") else Num 1
  | ObjectFunction => Str ("function Object() { [native code] }" +++ "1")
  | ObjectPrototype => Str ("[object Object]" +++ "1")
  end.

Fixpoint set_own (f : ftable) (t : string) (v : jsvalue) : ftable :=
  match f with
  | [] => [(t, v)]
  | (k, w) :: f' => if String.eqb k t then (k, v) :: f' else (k, w) :: set_own f' t v
  end.

(** [f[t] = v] for a number or a string [v], the only values [or0_plus1]
    produces.  Assigning to [__proto__] runs the inherited setter, which
    ignores a value that is neither an object nor [null]: no own property
    is created. *)
Definition put (f : ftable) (t : string) (v : jsvalue) : ftable :=
  if String.eqb t "__proto__" then f else set_own f t v.

(** [f[t] = (f[t] || 0) + 1]. *)
Definition bump (f : ftable) (t : string) : ftable :=
  put f t (or0_plus1 (get f t)).

(** [Object.keys(f)]: the array indices in ascending numeric order, then
    the other keys in creation order. *)
Definition index_keys (ks : list string) : list (N * string) :=
  flat_map (fun k => match JS.array_index k with
                     | Some n => [(n, k)]
                     | None => []
                     end) ks.

Definition is_named (k : string) : bool :=
  match JS.array_index k with
  | Some _ => false
  | None => true
  end.

Definition index_after (a b : N * string) : bool := (fst b <? fst a)%N.

Definition own_keys_order (ks : list string) : list string :=
  map snd (JS.sort index_after (index_keys ks)) ++ filter is_named ks.

Definition Object_keys (f : ftable) : list string := own_keys_order (map fst f).

(** The comparator [(a, b) => f[b] - f[a]] is positive when both values are
    numbers and the second is the larger; a string operand makes the
    difference NaN. *)
Definition count_after (f : ftable) (a b : string) : bool :=
  match get f b, get f a with
  | Num y, Num x => (0 <? y - x)%Z
  | _, _ => false
  end.

Definition tabulate (ds : list Document) : ftable :=
  fold_left (fun f d => fold_left bump (toks (text d)) f) ds [].

Definition buildVocab (ds : list Document) (maxV : Z) : list string :=
  let f := tabulate ds in
  JS.slice0 (JS.sort (count_after f) (Object_keys f)) maxV.

(** [tfvec]: one coordinate per vocabulary word, the number of tokens of
    the text equal to it. *)
Definition tfvec (txt : string) (vocabulary : list string) : list nat :=
  let t := toks txt in
  map (fun w => List.length (filter (fun x => String.eqb x w) t)) vocabulary.

(** A count as a double.  The conversion is exact: a count is the length of
    an array, below 2^32. *)
Definition num (n : nat) : float := PrimFloat.of_uint63 (Uint63.of_Z (Z.of_nat n)).

(** [dot]: the loop runs over the indices of [a]; reading [b] past its end
    gives [undefined], and the product is then NaN. *)
Fixpoint dot_from (s : float) (a b : list nat) : float :=
  match a with
  | [] => s
  | x :: a' =>
      match b with
      | y :: b' => dot_from (s + num x * num y)%float a' b'
      | [] => dot_from (s + num x * nan)%float a' []
      end
  end.

Definition dot (a b : list nat) : float := dot_from 0%float a b.

Definition norm (a : list nat) : float := PrimFloat.sqrt (dot a a).

(** [cosine]: both arguments are arrays here, hence truthy, so the guard
    [if(!a||!b) return 0] never fires.  The literal is the double [1e-12]. *)
Definition cosine (a b : list nat) : float :=
  (dot a b / (norm a * norm b + 0x1.19799812dea11p-40))%float.

(* ================================================================= *)
(** ** [POST /api/index] *)

(** What the indexer can see of the disk: the [knowledge] folder next to
    the server, and the files of the install directory itself. *)
Inductive dir_state :=
| NoDir                          (* [existsSync] is false *)
| BadDir                         (* exists, but [readdirSync] throws *)
| Dir (names : list string).

Inductive file_state :=
| NoFile                         (* [existsSync] is false *)
| BadFile                        (* exists, but [readFileSync] throws *)
| File (content : string).

Record FileSystem := {
  knowledge : dir_state;
  root : string -> file_state
}.

Inductive Body :=
| Indexed (indexed : nat)                                   (* [{ ok: true, indexed }] *)
| Error (error : string)                                    (* [{ error }] *)
| Chat (reply : string) (emergency : bool) (booking : option string).
                                                            (* [{ reply, emergency?, booking?: { url } }] *)

Record Response := { status : nat; body : Body }.

Definition is_knowledge_file (f : string) : bool :=
  JS.endsWith f ".txt" || JS.endsWith f ".md".

(** Lines 38-44: the files to index; [None] when listing the folder throws. *)
Definition discover (fs : FileSystem) : option (list string) :=
  match
    match knowledge fs with
    | NoDir => Some []
    | BadDir => None
    | Dir names => Some (filter is_knowledge_file names)
    end
  with
  | None => None
  | Some [] =>
      match root fs "my_data.txt" with
      | NoFile => Some []
      | _ => Some ["my_data.txt"]
      end
  | Some files => Some files
  end.

(** Line 46: every file is read from [path.join(__dirname, fn)], the
    install directory; [None] when a read throws. *)
Fixpoint readDocs (fs : FileSystem) (files : list string) : option (list Document) :=
  match files with
  | [] => Some []
  | fn :: rest =>
      match root fs fn with
      | File content =>
          match readDocs fs rest with
          | Some ds => Some ({| id := fn; text := content |} :: ds)
          | None => None
          end
      | _ => None
      end
  end.

Definition embed (vocabulary : list string) (d : Document) : EmbeddedDocument :=
  {| eid := id d; etext := text d; embedding := tfvec (text d) vocabulary |}.

Definition api_index (fs : FileSystem) (vectorStore : VectorStore)
  : Response * VectorStore :=
  match discover fs with
  | None => ({| status := 500; body := Error "index failed" |}, vectorStore)
  | Some [] =>
      ({| status := 400;
          body := Error "No knowledge files found. Add .txt/.md to ./knowledge or place my_data.txt" |},
       vectorStore)
  | Some files =>
      match readDocs fs files with
      | None => ({| status := 500; body := Error "index failed" |}, vectorStore)
      | Some ds =>
          let vocabulary := buildVocab ds 400 in
          let store := {| docs := map (embed vocabulary) ds; vocab := vocabulary |} in
          ({| status := 200; body := Indexed (List.length (docs store)) |}, store)
      end
  end.

(* ================================================================= *)
(** ** Retrieval *)

(** The comparator [(a, b) => b.score - a.score] is positive when the
    double difference is. *)
Definition score_after (a b : EmbeddedDocument * float) : bool :=
  (0 <? snd b - snd a)%float.

Definition scored (vectorStore : VectorStore) (query : string)
  : list (EmbeddedDocument * float) :=
  let qv := tfvec query (vocab vectorStore) in
  map (fun d => (d, cosine qv (embedding d))) (docs vectorStore).

Definition retrieveTopK (vectorStore : VectorStore) (query : string) (k : Z)
  : list EmbeddedDocument :=
  match docs vectorStore with
  | [] => []
  | _ :: _ => map fst (JS.slice0 (JS.sort score_after (scored vectorStore query)) k)
  end.

(* ================================================================= *)
(** ** Rotation and fail-over *)

(** What a provider helper does with a prompt: it returns a reply (the
    text [String(reply)] the chat handler goes on with) or throws an
    [Error] with a message. *)
Inductive Outcome :=
| Returned (reply : string)
| Threw (message : string).

(** The outside world: the outcome of the [n]-th provider request of the
    process, should it go to this provider with this prompt. *)
Definition World := nat -> Provider -> string -> Outcome.

(** The mutable state of the process.  [sent] counts the provider requests
    made so far. *)
Record State := {
  providerIndex : nat;
  vectorStore : VectorStore;
  sent : nat
}.

Definition initialState : State :=
  {| providerIndex := 0; vectorStore := initialStore; sent := 0 |}.

Section Generation.
Variable cfg : Config.
Variable net : World.
Variable prompt : string.

(** The [for] loop of [generateWithRotation] with [remaining] iterations to
    go, run from start to end with no other request served while a
    provider request is pending: nothing but the loop itself moves the
    cursor.  This is the loop of the requests served one after the other
    ([serve] below); [Interleaved.attempts] is the loop with other requests
    in between.  [calls] lists the providers called so far in this
    invocation. *)
Fixpoint attempts (remaining : nat) (tried : list Provider) (lastErr : option string)
  (st : State) (calls : list Provider) : Outcome * State * list Provider :=
  match remaining with
  | O =>
      (Threw match lastErr with
             | Some e => e
             | None => "All providers failed"
             end, st, calls)
  | S remaining' =>
      let (provider, next) := getNextProvider cfg (providerIndex st) in
      let st1 := {| providerIndex := next; vectorStore := vectorStore st; sent := sent st |} in
      match provider with
      | None => attempts remaining' tried lastErr st1 calls
      | Some p =>
          if existsb (Provider_eqb p) tried
          then attempts remaining' tried lastErr st1 calls
          else
            let st2 := {| providerIndex := next; vectorStore := vectorStore st;
                          sent := S (sent st) |} in
            match net (sent st) p prompt with
            | Returned reply => (Returned reply, st2, calls ++ [p])
            | Threw e => attempts remaining' (p :: tried) (Some e) st2 (calls ++ [p])
            end
      end
  end.

Definition generateWithRotation (maxTries : nat) (st : State)
  : Outcome * State * list Provider :=
  match providers cfg with
  | [] => (Threw "No providers configured", st, [])
  | _ :: _ => attempts (Nat.min maxTries (List.length (providers cfg))) [] None st []
  end.

End Generation.

(* ================================================================= *)
(** ** Rotation and fail-over while other requests are served *)

(** [return await callGoogleGenerative(prompt)] hands control back to the
    event loop until the provider request settles; other requests run
    meanwhile and may call [getNextProvider], send provider requests of
    their own or rebuild the index.  [others k st] is the state of the
    process when request number [k] of the invocation (counting from 0)
    settles, [st] being the state in which it was sent. *)
Definition Others := nat -> State -> State.

(** Nothing else runs. *)
Definition alone : Others := fun _ st => st.

Module Interleaved.

Section Generation.
Variable cfg : Config.
Variable net : World.
Variable prompt : string.
Variable others : Others.

(** The [for] loop of [generateWithRotation] with [remaining] iterations to
    go.  An iteration runs without interruption from [getNextProvider()] to
    the sending of the provider request; the loop then waits, and goes on
    in the state the other requests have left.  [log] lists the requests
    sent so far in this invocation, each with its number among the
    provider requests of the process. *)
Fixpoint attempts (remaining : nat) (tried : list Provider) (lastErr : option string)
  (st : State) (log : list (nat * Provider)) : Outcome * State * list (nat * Provider) :=
  match remaining with
  | O =>
      (Threw match lastErr with
             | Some e => e
             | None => "All providers failed"
             end, st, log)
  | S remaining' =>
      let (provider, next) := getNextProvider cfg (providerIndex st) in
      let st1 := {| providerIndex := next; vectorStore := vectorStore st; sent := sent st |} in
      match provider with
      | None => attempts remaining' tried lastErr st1 log
      | Some p =>
          if existsb (Provider_eqb p) tried
          then attempts remaining' tried lastErr st1 log
          else
            let st2 := others (List.length log)
                         {| providerIndex := next; vectorStore := vectorStore st;
                            sent := S (sent st) |} in
            match net (sent st) p prompt with
            | Returned reply => (Returned reply, st2, log ++ [(sent st, p)])
            | Threw e =>
                attempts remaining' (p :: tried) (Some e) st2 (log ++ [(sent st, p)])
            end
      end
  end.

Definition generateWithRotation (maxTries : nat) (st : State)
  : Outcome * State * list (nat * Provider) :=
  match providers cfg with
  | [] => (Threw "No providers configured", st, [])
  | _ :: _ => attempts (Nat.min maxTries (List.length (providers cfg))) [] None st []
  end.

End Generation.

End Interleaved.

(* ================================================================= *)
(** ** Emergency detection *)

Definition EMER_WORDS : list string :=
  ["suicide"; "kill myself"; "hurt myself"; "overdose"; "i want to die"; "self harm"].

Definition checkEmergency (txt : string) : bool :=
  let t := JS.toLowerCase txt in
  existsb (fun w => JS.includes t w) EMER_WORDS.

(* ================================================================= *)
(** ** [POST /api/chat] *)

(** The test [/\b(book|appointment|session|slot)\b/i.test(message)].

    With the [i] flag and no [u] flag two units match when their
    canonical forms do: a unit is canonicalised to its upper case when
    that is a single unit and does not take a unit above 127 into ASCII.
    On the Latin-1 range: [a-z] and U+00E0..U+00FE (except the division
    sign U+00F7) move down by 32, the micro sign goes to U+039C and
    y-diaeresis to U+0178. *)
Definition canonicalize (c : ascii) : N :=
  let n := JS.unit_code c in
  if JS.between 97 122 c || (JS.between 224 254 c && negb (n =? 247)%N) then (n - 32)%N
  else if (n =? 181)%N then 924%N
  else if (n =? 255)%N then 376%N
  else n.

Definition first_unit (s : string) : option ascii :=
  match s with
  | EmptyString => None
  | String c _ => Some c
  end.

Definition is_word (u : option ascii) : bool :=
  match u with
  | Some c => JS.isWordChar c
  | None => false
  end.

(** The assertion [\b] between the unit [before] and the unit [after]
    (either may be missing, at an end of the input). *)
Definition word_boundary (before after : option ascii) : bool :=
  xorb (is_word before) (is_word after).

(** Matches the literal [w] at the start of [s], ignoring case.  Gives the
    last unit consumed ([prev] when [w] is empty) and the rest of [s]. *)
Fixpoint literal_ci (w : string) (prev : option ascii) (s : string)
  : option (option ascii * string) :=
  match w with
  | EmptyString => Some (prev, s)
  | String a w' =>
      match s with
      | EmptyString => None
      | String b s' =>
          if (canonicalize a =? canonicalize b)%N then literal_ci w' (Some b) s' else None
      end
  end.

Definition BOOKING_WORDS : list string := ["book"; "appointment"; "session"; "slot"].

(** A match that starts right here: [\b], one of the words, [\b]. *)
Definition match_here (prev : option ascii) (s : string) : bool :=
  word_boundary prev (first_unit s)
  && existsb (fun w => match literal_ci w prev s with
                       | Some (last, rest) => word_boundary last (first_unit rest)
                       | None => false
                       end) BOOKING_WORDS.

(** [test] tries every start position from left to right. *)
Fixpoint test_from (prev : option ascii) (s : string) : bool :=
  match_here prev s
  || match s with
     | EmptyString => false
     | String c s' => test_from (Some c) s'
     end.

Definition booking_intent (message : string) : bool := test_from None message.

Definition nl : string := String (ascii_of_nat 10) EmptyString.

Definition safety : string :=
  "I care about your safety. I cannot provide emergency services. Please call local emergency services or helplines: Vandrevala 1860-266-2345, iCall 9152987821. Would you like me to request an urgent booking?".

Definition contextText (top : list EmbeddedDocument) : string :=
  JS.join (nl +++ nl)
    (map (fun t => "Document (" +++ eid t +++ "):" +++ nl +++ etext t) top).

Definition buildPrompt (top : list EmbeddedDocument) (message : string) : string :=
  "You are Shyam, an empathetic Indian counselling assistant. Use person-centered language, validation, and culturally sensitive examples. Do NOT provide medical prescriptions. Use context below:"
  +++ nl +++ nl +++ contextText top +++ nl +++ nl +++ "User: " +++ message +++ nl +++ nl
  +++ "Respond warmly and ask permission before techniques. Keep reply concise.".

(** The fallback reply; [ids || 'none'] takes ['none'] when the joined ids
    are the empty string. *)
Definition demo (top : list EmbeddedDocument) (message : string) : string :=
  let ids := JS.join ", " (map eid top) in
  "[DEMO] I hear you said: '" +++ message +++ "'. Retrieved docs: "
  +++ (if JS.truthy ids then ids else "none") +++ ".".

(** What a request did besides answering: the calls to [retrieveTopK] and
    [generateWithRotation], and the provider helpers the latter reached. *)
Inductive Event :=
| Retrieval (query : string) (k : Z)
| Generation (prompt : string) (maxTries : nat)
| ProviderCall (p : Provider) (prompt : string).

Definition ok (b : Body) : Response := {| status := 200; body := b |}.

(** The handler.  [req] is [req.body.message] turned into a string, [None]
    when the body or the field is missing.  Nothing in the [try] block can
    throw outside the inner [try] around [generateWithRotation], so the
    outer [catch] (500, 'Server error') has no counterpart here. *)
Definition api_chat (cfg : Config) (net : World) (req : option string) (st : State)
  : Response * State * list Event :=
  let message := match req with Some m => m | None => "" end in
  if negb (JS.truthy message)
  then ({| status := 400; body := Error "Provide message" |}, st, [])
  else if checkEmergency message
  then (ok (Chat safety true None), st, [])
  else
    let top := retrieveTopK (vectorStore st) message 3 in
    let prompt := buildPrompt top message in
    match providers cfg with
    | [] => (ok (Chat (demo top message) false None), st, [Retrieval message 3])
    | _ :: _ =>
        match generateWithRotation cfg net prompt 3 st with
        | (Returned reply, st', calls) =>
            (ok (Chat (JS.trim reply) false
                   (if booking_intent message then Some (BOOKING_LINK cfg) else None)),
             st',
             Retrieval message 3 :: Generation prompt 3
               :: map (fun p => ProviderCall p prompt) calls)
        | (Threw _, st', calls) =>
            (ok (Chat (demo top message) false None),
             st',
             Retrieval message 3 :: Generation prompt 3
               :: map (fun p => ProviderCall p prompt) calls)
        end
    end.

(** The index handler on the process state. *)
Definition handle_index (fs : FileSystem) (st : State) : Response * State :=
  let (r, store) := api_index fs (vectorStore st) in
  (r, {| providerIndex := providerIndex st; vectorStore := store; sent := sent st |}).

(* ================================================================= *)
(** ** Requests in sequence *)

(** The requests that touch the state of the process. *)
Inductive Request :=
| ChatRequest (message : option string)
| IndexRequest (fs : FileSystem).

Definition handle (cfg : Config) (net : World) (r : Request) (st : State)
  : Response * State * list Event :=
  match r with
  | ChatRequest message => api_chat cfg net message st
  | IndexRequest fs => (handle_index fs st, [])
  end.

(** Requests served one after the other, each to completion before the
    next one starts. *)
Fixpoint serve (cfg : Config) (net : World) (rs : list Request) (st : State)
  : list Response * State * list Event :=
  match rs with
  | [] => ([], st, [])
  | r :: rs' =>
      let '(resp, st1, evs1) := handle cfg net r st in
      let '(resps, st2, evs2) := serve cfg net rs' st1 in
      (resp :: resps, st2, evs1 ++ evs2)
  end.

(* ================================================================= *)
(** ** [POST /api/book] *)

(** The values [JSON.parse] produces; the request body is one of them.  An
    object lists its own properties, each name once. *)
#[warnings="-register-all"] Inductive json :=
| JNull
| JBool (b : bool)
| JNum (x : float)
| JStr (s : string)
| JArr (items : list json)
| JObj (fields : list (string * json)).

(** [Boolean(v)]; [None] is [undefined].  The falsy values are
    [undefined], [null], [false], [0], [-0], [NaN] and the empty string. *)
Definition json_truthy (v : option json) : bool :=
  match v with
  | None | Some JNull => false
  | Some (JBool b) => b
  | Some (JNum x) => negb (x =? 0)%float && negb (is_nan x)
  | Some (JStr s) => JS.truthy s
  | Some (JArr _) | Some (JObj _) => true
  end.

Fixpoint lookup (k : string) (fields : list (string * json)) : option json :=
  match fields with
  | [] => None
  | (k', v) :: rest => if String.eqb k' k then Some v else lookup k rest
  end.

(** [v.k] for the names the handler reads ([name], [phone], [preferred],
    [notes], [source]): an own property of an object; no prototype has a
    property of these names, so anything else gives [undefined]. *)
Definition prop (v : json) (k : string) : option json :=
  match v with
  | JObj fields => lookup k fields
  | _ => None
  end.

(** [v || ''] *)
Definition or_empty (v : option json) : json :=
  match v with
  | Some x => if json_truthy v then x else JStr ""
  | None => JStr ""
  end.

(** [req.body || {}] *)
Definition body_or_empty (body : option json) : json :=
  match body with
  | Some v => if json_truthy body then v else JObj []
  | None => JObj []
  end.

(** What [fs.writeFileSync(bookingsFile, data)] does.  It opens the file
    with the flag ['w'], which creates it or cuts it to length 0, then
    writes [data] and closes the file; it throws when one of the steps
    fails.  When the file cannot be opened it stays as it was.  When a
    later step fails the file has been cut already and holds what was
    written of [data] before the failure, possibly nothing. *)
Inductive FileWrite :=
| Written                          (* returns, the file holds [data] *)
| OpenFailed                       (* throws, the file is as it was *)
| WriteFailed (remains : string).  (* throws, the file holds [remains] *)

(** The file [bookings.json] of the install directory, and what a call of
    [writeFileSync] on it does. *)
Record BookingDisk := { bookings : file_state; writeFileSync : FileWrite }.

Inductive BookReply :=
| Booked (ref : string)                        (* 200, [{ ok: true, ref }] *)
| BookError (code : nat) (error : string).     (* [{ error }] *)

(** The text of an integer in a string concatenation: its decimal digits,
    with a minus sign when negative.  [Date.now()] is an integer number
    of milliseconds, far below the 10^21 from which JavaScript switches to
    the exponent notation. *)
Definition number_text (n : Z) : string := NilEmpty.string_of_int (Z.to_int n).

Section Booking.
(** [JSON.parse] ([None] when it throws), [JSON.stringify(v, null, 2)] and
    [new Date(t).toISOString()] are left to the platform. *)
Variable JSON_parse : string -> option json.
Variable JSON_stringify : json -> string.
Variable toISOString : Z -> string.

(** Line 160: [all]; [None] when reading or parsing throws. *)
Definition stored_bookings (disk : BookingDisk) : option json :=
  match bookings disk with
  | NoFile => Some (JArr [])
  | BadFile => None
  | File content => JSON_parse content
  end.

(** Line 162: [entry]. *)
Definition booking_entry (ref : string) (name phone : json)
  (preferred notes source : option json) (created : Z) : json :=
  JObj [("ref", JStr ref); ("name", name); ("phone", phone);
        ("preferred", or_empty preferred); ("notes", or_empty notes);
        ("source", or_empty source); ("created", JStr (toISOString created))].

(** The handler.  [now] is the value of [Date.now()] and [created] the
    time [new Date()] reads right after it.  [all.push(entry)] throws
    unless [all] is an array: no other JSON value has a callable [push].
    Whatever throws inside the [try] is answered with 500; a file that
    [writeFileSync] had cut before it threw stays cut. *)
Definition api_book (body : option json) (now created : Z) (disk : BookingDisk)
  : BookReply * BookingDisk :=
  let b := body_or_empty body in
  match prop b "name", prop b "phone" with
  | Some name, Some phone =>
      if negb (json_truthy (Some name)) || negb (json_truthy (Some phone))
      then (BookError 400 "Provide name and phone", disk)
      else
        match stored_bookings disk with
        | Some (JArr all) =>
            let ref := "BK" +++ number_text now in
            let entry := booking_entry ref name phone
                           (prop b "preferred") (prop b "notes") (prop b "source") created in
            match writeFileSync disk with
            | Written =>
                (Booked ref,
                 {| bookings := File (JSON_stringify (JArr (all ++ [entry])));
                    writeFileSync := writeFileSync disk |})
            | OpenFailed => (BookError 500 "Booking failed", disk)
            | WriteFailed remains =>
                (BookError 500 "Booking failed",
                 {| bookings := File remains; writeFileSync := writeFileSync disk |})
            end
        | _ => (BookError 500 "Booking failed", disk)
        end
  | _, _ => (BookError 400 "Provide name and phone", disk)
  end.

End Booking.

(* ================================================================= *)
(** ** Vocabulary of the statements *)

(** The emergency gate as the specification words it: some emergency
    phrase occurs in the lower-cased message. *)
Definition mentions_emergency (message : string) : Prop :=
  exists w pre post, In w EMER_WORDS /\ JS.toLowerCase message = pre +++ w +++ post.

(** The provider under cursor [i]: [providers[i % providers.length]]. *)
Definition selected (cfg : Config) (i : nat) : Provider :=
  nth (i mod List.length (providers cfg)) (providers cfg) google.

(** The message of the error the [t]-th request throws at provider [p]. *)
Definition thrown (net : World) (prompt : string) (t : nat) (p : Provider) : string :=
  match net t p prompt with
  | Threw e => e
  | Returned r => r
  end.

(** The error [generateWithRotation] ends with after [r] further failed
    attempts, the first of them being request [s] under cursor [i]. *)
Definition final_error (cfg : Config) (net : World) (prompt : string)
  (r : nat) (lastErr : option string) (s i : nat) : string :=
  match r with
  | O => match lastErr with Some e => e | None => "All providers failed" end
  | S r' => thrown net prompt (s + r') (selected cfg (i + r'))
  end.

(** Discovery finds nothing: the [knowledge] folder is missing or holds no
    [.txt]/[.md] name, and there is no [my_data.txt] in the install
    directory. *)
Definition nothing_to_index (fs : FileSystem) : Prop :=
  (knowledge fs = NoDir
   \/ exists names, knowledge fs = Dir names
                    /\ forall f, In f names -> is_knowledge_file f = false)
  /\ root fs "my_data.txt" = NoFile.

(** The store a successful indexing of the documents [ds] installs. *)
Definition indexed_store (ds : list Document) : VectorStore :=
  {| docs := map (embed (buildVocab ds 400)) ds; vocab := buildVocab ds 400 |}.

(** The store after a series of indexing requests, each seeing its own
    state of the disk, from start-up on. *)
Definition store_after (disks : list FileSystem) : VectorStore :=
  fold_left (fun store fs => snd (api_index fs store)) disks initialStore.

(** Vocabulary within the cap; every stored embedding is the
    term-frequency vector of its text over the store's vocabulary. *)
Definition store_ok (store : VectorStore) : Prop :=
  List.length (vocab store) <= 400
  /\ Forall (fun d => embedding d = tfvec (etext d) (vocab store)
                      /\ List.length (embedding d) = List.length (vocab store))
       (docs store).

(** The token stream the tabulation pass of [buildVocab] goes through. *)
Definition all_toks (ds : list Document) : list string :=
  flat_map (fun d => toks (text d)) ds.

(** Total frequency of a term. *)
Definition occurrences (T : list string) (t : string) : nat :=
  count_occ string_dec T t.

(** The distinct tokens in the order of their first occurrence. *)
Definition first_seen (T : list string) : list string :=
  rev (nodup string_dec (rev T)).

(** The terms that get an entry in the frequency table: every token but
    [__proto__]. *)
Definition table_terms (T : list string) : list string :=
  filter (fun t => negb (String.eqb t "__proto__")) (first_seen T).

(** The numeric value of a key, 0 for a key that is no array index. *)
Definition index_value (k : string) : N :=
  match JS.array_index k with
  | Some n => n
  | None => 0%N
  end.

(** [buildVocab] as the specification words it: the distinct terms in
    first-seen order, sorted stably by descending total count, cut at
    [maxVocab]. *)
Definition buildVocab_spec (ds : list Document) (maxVocab : nat) : list string :=
  let T := all_toks ds in
  firstn maxVocab
    (JS.sort (fun a b => Nat.ltb (occurrences T a) (occurrences T b)) (first_seen T)).

(** The terms with a given total count. *)
Definition with_count (T : list string) (c : nat) (t : string) : bool :=
  Nat.eqb (occurrences T t) c.

(** A double that is a number: neither NaN nor an infinity, in the
    specification format of binary64. *)
Definition SFfinite (x : spec_float) : bool :=
  match x with
  | S754_zero _ | S754_finite _ _ _ => true
  | _ => false
  end.

(** The value of a finite double as an integer multiple of the smallest
    positive double, [2 ^ emin]. *)
Definition SFkey (emin : Z) (x : spec_float) : Z :=
  match x with
  | S754_finite s m e => SpecFloat.cond_Zopp s (Zpos m * 2 ^ (e - emin))
  | _ => 0%Z
  end.

Definition fkey (x : float) : Z := SFkey (SpecFloat.emin prec emax) (Prim2SF x).

(** Every similarity score of the query against the store is a number. *)
Definition finite_scores (store : VectorStore) (query : string) : Prop :=
  Forall (fun p => is_finite (snd p) = true) (scored store query).

(** The scored documents whose score equals [s]. *)
Definition with_score (s : float) (p : EmbeddedDocument * float) : bool :=
  (snd p =? s)%float.

(** The booking-intent pattern as the specification words it: one of the
    booking words occurs in the message, in any mix of cases, with no word
    unit right before or right after it. *)
Fixpoint last_unit (s : string) : option ascii :=
  match s with
  | EmptyString => None
  | String c EmptyString => Some c
  | String _ s' => last_unit s'
  end.

Fixpoint ci_equal (w s : string) : bool :=
  match w, s with
  | EmptyString, EmptyString => true
  | String a w', String b s' => (canonicalize a =? canonicalize b)%N && ci_equal w' s'
  | _, _ => false
  end.

Definition matches_booking_word (message : string) : Prop :=
  exists pre mid post w,
    In w BOOKING_WORDS
    /\ message = pre +++ mid +++ post
    /\ ci_equal w mid = true
    /\ is_word (last_unit pre) = false
    /\ is_word (first_unit post) = false.

(** The last unit of [s], or [prev] when [s] is empty. *)
Definition last_or (prev : option ascii) (s : string) : option ascii :=
  match last_unit s with
  | Some c => Some c
  | None => prev
  end.

Fixpoint all_units (p : ascii -> bool) (s : string) : bool :=
  match s with
  | EmptyString => true
  | String c s' => p c && all_units p s'
  end.

(** Units that match an ASCII letter under the [i] flag. *)
Definition letter_like (c : ascii) : bool :=
  (65 <=? canonicalize c)%N && (canonicalize c <=? 90)%N.

(** The state [generateWithRotation] leaves after [n] provider requests. *)
Definition advanced (st : State) (n : nat) : State :=
  {| providerIndex := providerIndex st + n;
     vectorStore := vectorStore st;
     sent := sent st + n |}.

(** A unit that is its own lower case. *)
Definition lower_unit (c : ascii) : bool := Ascii.eqb (JS.toLowerUnit c) c.

(** A unit a token is made of: a word unit in lower case, that is one of
    [a-z0-9_]. *)
Definition token_unit (c : ascii) : bool := JS.isWordChar c && lower_unit c.

(** The providers requested, in order. *)
Definition provider_calls (evs : list Event) : list Provider :=
  flat_map (fun e => match e with ProviderCall p _ => [p] | _ => [] end) evs.

(** Request [t] of the process, sent to the provider under cursor [i],
    fails. *)
Definition failed (cfg : Config) (net : World) (prompt : string) (t i : nat) : Prop :=
  exists e, net t (selected cfg i) prompt = Threw e.

(** What [n] provider requests, the first of them request [t] under cursor
    [i], did when a loop of [r] iterations ends with [out]: all of them
    failed and the budget is used up, or the last one answered after the
    others had failed. *)
Definition explains (cfg : Config) (net : World) (prompt : string)
  (t i r n : nat) (out : Outcome) : Prop :=
  match out with
  | Returned reply =>
      exists j, n = S j
        /\ (forall d, d < j -> failed cfg net prompt (t + d) (i + d))
        /\ net (t + j) (selected cfg (i + j)) prompt = Returned reply
  | Threw _ => n = r /\ forall d, d < n -> failed cfg net prompt (t + d) (i + d)
  end.

(** No other request draws from the rotation or sends a provider request
    while the invocation waits.  (A request that draws a provider sends
    its request in the same turn, so the two go together.) *)
Definition undisturbed (others : Others) : Prop :=
  forall k st, providerIndex (others k st) = providerIndex st
               /\ sent (others k st) = sent st.

(** A request of the log, given by its number and its provider, failed. *)
Definition request_failed (net : World) (prompt : string) (r : nat * Provider) : Prop :=
  exists e, net (fst r) (snd r) prompt = Threw e.

(** The error of the last request of a log, when it failed. *)
Definition last_error (net : World) (prompt : string) (log : list (nat * Provider))
  : option string :=
  match rev log with
  | [] => None
  | (t, p) :: _ => match net t p prompt with
                   | Threw e => Some e
                   | Returned _ => None
                   end
  end.

(** Two outcomes that differ at most in the message of the error thrown. *)
Definition same_reply (a b : Outcome) : Prop :=
  match a, b with
  | Returned x, Returned y => x = y
  | Threw _, Threw _ => True
  | _, _ => False
  end.

(** Two worlds in which the providers give the same replies and fail on
    the same requests, with whatever error messages. *)
Definition same_replies (net1 net2 : World) : Prop :=
  forall t p prompt, same_reply (net1 t p prompt) (net2 t p prompt).

(** The tokens of a text that are terms of the vocabulary. *)
Definition known_tokens (vocabulary : list string) (txt : string) : list string :=
  filter (fun t => existsb (String.eqb t) vocabulary) (toks txt).

(** There is a unit at this end of a text and it is white space. *)
Definition space_at (u : option ascii) : bool :=
  match u with
  | Some c => JS.isSpace c
  | None => false
  end.

(** The entries of a bookings file that holds an array. *)
Definition entries_of (v : option json) : option (list json) :=
  match v with
  | Some (JArr items) => Some items
  | _ => None
  end.

(** A double that is [+0] or positive and below [2 ^ B]: it has at most
    [B] binary digits in front of the point. *)
Definition SFbelow (B : Z) (x : spec_float) : bool :=
  match x with
  | S754_zero false => true
  | S754_finite false m e => (Zpos (digits2_pos m) + e <=? B)%Z
  | _ => false
  end.

(** A positive double that is at least [2 ^ (L - 1)]. *)
Definition SFabove (L : Z) (x : spec_float) : bool :=
  match x with
  | S754_finite false m e => (L <=? Zpos (digits2_pos m) + e)%Z
  | _ => false
  end.

Definition below (B : Z) (x : float) : bool := SFbelow B (Prim2SF x).
Definition above (L : Z) (x : float) : bool := SFabove L (Prim2SF x).

(** A document shares a term of the vocabulary with the query. *)
Definition shares_term (vocabulary : list string) (query txt : string) : Prop :=
  exists w, In w vocabulary /\ In w (toks query) /\ In w (toks txt).

(** Both counts of a coordinate are positive. *)
Definition both_positive (p : nat * nat) : Prop := (1 <= fst p)%nat /\ (1 <= snd p)%nat.

(** Counts below [2 ^ 63], which [num] converts without wrapping; the
    counts of the program, lengths of arrays, are below [2 ^ 32]. *)
Definition small_counts (a : list nat) : Prop :=
  Forall (fun n => (Z.of_nat n < 2 ^ 63)%Z) a.

(* ================================================================= *)
(** ** Sample inputs *)

(** Two providers configured, one not. *)
Definition sample_cfg : Config :=
  {| GOOGLE_API_KEY := "g-key";
     OPENAI_API_KEY := "";
     HUGGINGFACE_API_KEY := "hf-key";
     BOOKING_LINK := "https://example.org/book" |}.

(** No provider configured. *)
Definition bare_cfg : Config :=
  {| GOOGLE_API_KEY := ""; OPENAI_API_KEY := ""; HUGGINGFACE_API_KEY := "";
     BOOKING_LINK := "https://example.org/book" |}.

(** A world in which every provider request fails, and one in which every
    request is answered. *)
Definition failing : World := fun _ _ _ => Threw "HF error: 503".
Definition answering : World := fun _ _ _ => Returned "  I hear you.  ".

(** A second chat request arrives while the first provider request of the
    invocation is pending: it draws the next provider and sends its own
    request.  Nothing else happens later. *)
Definition one_draw : Others :=
  fun k st =>
    match k with
    | O => {| providerIndex := S (providerIndex st); vectorStore := vectorStore st;
              sent := S (sent st) |}
    | S _ => st
    end.

(** A world in which google is down and the other providers answer. *)
Definition google_down : World :=
  fun _ p _ => match p with
               | google => Threw "Google error: 500"
               | _ => Returned "ok"
               end.

(** A disk with two knowledge files that also exist in the install
    directory, and an image the indexer skips. *)
Definition sample_disk : FileSystem :=
  {| knowledge := Dir ["a.txt"; "b.md"; "c.png"];
     root := fun fn =>
       if String.eqb fn "a.txt" then File "anxiety stress calm"
       else if String.eqb fn "b.md" then File "sleep calm sleep"
       else NoFile |}.

(** A disk with nothing to index. *)
Definition empty_disk : FileSystem :=
  {| knowledge := NoDir; root := fun _ => NoFile |}.

(** A disk whose knowledge file is missing from the install directory. *)
Definition misplaced_disk : FileSystem :=
  {| knowledge := Dir ["a.txt"]; root := fun _ => NoFile |}.

Definition sample_store : VectorStore := snd (api_index sample_disk initialStore).

Definition sample_state : State :=
  {| providerIndex := 0; vectorStore := sample_store; sent := 0 |}.

(** A document in which a number and a word occur once each. *)
Definition numbered_docs : list Document := [{| id := "notes.txt"; text := "b 7" |}].

Definition sample_docs : list Document :=
  [{| id := "a.txt"; text := "anxiety stress calm" |};
   {| id := "b.md"; text := "sleep calm sleep" |}].

(** A booking request. *)
Definition sample_booking : option json :=
  Some (JObj [("name", JStr "Asha"); ("phone", JStr "98200 00000"); ("notes", JNull)]).

(* ================================================================= *)
(** * Properties *)

(* ----------------------------------------------------------------- *)
(** ** Strings *)

Lemma append_nil_r (s : string) : s +++ "" = s.
Proof. induction s as [|c s IH]; simpl; [reflexivity | now rewrite IH]. Qed.

Lemma append_assoc (a b c : string) : (a +++ b) +++ c = a +++ b +++ c.
Proof. induction a as [|x a IH]; simpl; [reflexivity | now rewrite IH]. Qed.

Lemma startsWith_spec (w s : string) :
  JS.startsWith s w = true <-> exists post, s = w +++ post.
Proof.
  revert s; induction w as [|a w IH]; intros s; simpl.
  - split; [intros _; now exists s | intros _; now destruct s].
  - destruct s as [|b s]; simpl.
    + split; [discriminate | intros [post H]; discriminate].
    + rewrite andb_true_iff, Ascii.eqb_eq, IH. split.
      * intros [-> [post ->]]. now exists post.
      * intros [post H]. injection H as -> ->. split; [reflexivity | now exists post].
Qed.

(** [includes] decides the substring relation. *)
Lemma includes_spec (s w : string) :
  JS.includes s w = true <-> exists pre post, s = pre +++ w +++ post.
Proof.
  induction s as [|c s IH]; cbn [JS.includes].
  - rewrite orb_false_r, startsWith_spec. split.
    + intros [post H]. now exists "", post.
    + intros [pre [post H]]. destruct pre; simpl in H; [now exists post | discriminate].
  - rewrite orb_true_iff, startsWith_spec, IH. split.
    + intros [[post H] | [pre [post H]]].
      * now exists "", post.
      * exists (String c pre), post. simpl. now rewrite H.
    + intros [pre [post H]]. destruct pre as [|x pre]; simpl in H.
      * left. now exists post.
      * right. injection H as _ H. now exists pre, post.
Qed.

Lemma toLowerCase_empty (s : string) : JS.toLowerCase s = "" -> s = "".
Proof. destruct s; simpl; [reflexivity | discriminate]. Qed.

(* ----------------------------------------------------------------- *)
(** ** The emergency gate *)

Lemma checkEmergency_spec (message : string) :
  checkEmergency message = true <-> mentions_emergency message.
Proof.
  unfold checkEmergency, mentions_emergency. rewrite existsb_exists. split.
  - intros [w [Hin H]]. apply includes_spec in H as [pre [post H]]. now exists w, pre, post.
  - intros [w [pre [post [Hin H]]]]. exists w. split; [assumption|].
    apply includes_spec. now exists pre, post.
Qed.

Lemma emergency_message_truthy (message : string) :
  checkEmergency message = true -> JS.truthy message = true.
Proof.
  destruct message; [|reflexivity]. vm_compute. discriminate.
Qed.

(** C1. A chat request whose message contains, ignoring case, one of the
    fixed emergency phrases is answered with the fixed safety reply and
    [emergency: true]; the request calls neither [retrieveTopK] nor
    [generateWithRotation] nor any provider helper (its event list is
    empty), and it leaves the rotation cursor, the request counter and the
    store as they were. *)
Theorem emergency_bypasses_retrieval_and_generation
  (cfg : Config) (net : World) (message : string) (st : State) :
  mentions_emergency message ->
  api_chat cfg net (Some message) st = (ok (Chat safety true None), st, []).
Proof.
  intros H. apply checkEmergency_spec in H.
  unfold api_chat. rewrite (emergency_message_truthy _ H). simpl. now rewrite H.
Qed.

(* ----------------------------------------------------------------- *)
(** ** The provider rotation *)

Lemma Provider_eqb_eq (p q : Provider) : Provider_eqb p q = true <-> p = q.
Proof. destruct p, q; simpl; split; congruence. Qed.

Lemma providers_NoDup (cfg : Config) : NoDup (providers cfg).
Proof.
  unfold providers.
  destruct (JS.truthy (GOOGLE_API_KEY cfg)), (JS.truthy (OPENAI_API_KEY cfg)),
    (JS.truthy (HUGGINGFACE_API_KEY cfg)); simpl;
    repeat (constructor; [simpl; intuition discriminate|]); constructor.
Qed.

Lemma providers_length (cfg : Config) : List.length (providers cfg) <= 3.
Proof.
  unfold providers.
  destruct (JS.truthy (GOOGLE_API_KEY cfg)), (JS.truthy (OPENAI_API_KEY cfg)),
    (JS.truthy (HUGGINGFACE_API_KEY cfg)); simpl; lia.
Qed.

Lemma getNextProvider_selected (cfg : Config) (i : nat) :
  providers cfg <> [] ->
  getNextProvider cfg i = (Some (selected cfg i), S i).
Proof.
  intros Hne. unfold getNextProvider, selected.
  destruct (providers cfg) as [|p ps] eqn:E; [congruence|].
  f_equal. apply nth_error_nth'. apply Nat.mod_upper_bound. simpl. lia.
Qed.

Lemma selected_In (cfg : Config) (i : nat) :
  providers cfg <> [] -> In (selected cfg i) (providers cfg).
Proof.
  intros Hne. apply nth_In. apply Nat.mod_upper_bound.
  destruct (providers cfg); simpl; [congruence | lia].
Qed.

(** Cursors less than [providers.length] apart select different providers. *)
Lemma selected_inj (cfg : Config) (a b : nat) :
  a <= b -> b - a < List.length (providers cfg) ->
  selected cfg a = selected cfg b -> a = b.
Proof.
  intros Hab Hlt Heq. set (n := List.length (providers cfg)) in *.
  assert (Hn : n <> 0) by lia.
  assert (Hm : a mod n = b mod n).
  { apply (proj1 (NoDup_nth (providers cfg) google) (providers_NoDup cfg));
      try (apply Nat.mod_upper_bound; exact Hn). exact Heq. }
  rewrite (Nat.div_mod_eq a n), (Nat.div_mod_eq b n), Hm.
  assert (Hd : a / n = b / n); [|now rewrite Hd].
  pose proof (Nat.div_mod_eq a n) as Ha. pose proof (Nat.div_mod_eq b n) as Hb.
  pose proof (Nat.mod_upper_bound b n Hn) as Hub.
  rewrite Hm in Ha.
  assert (n * (b / n) - n * (a / n) < n) by lia.
  assert (a / n <= b / n) by (apply Nat.Div0.div_le_mono; exact Hab).
  nia.
Qed.

Section AllFail.
Variable cfg : Config.
Variable net : World.
Variable prompt : string.

Hypothesis all_fail : forall t p, In p (providers cfg) -> exists e, net t p prompt = Threw e.
Hypothesis configured : providers cfg <> [].

Lemma attempts_all_fail (r : nat) :
  forall tried lastErr st calls i0 k,
    providerIndex st = i0 + k ->
    (forall p, In p tried -> In p (map (selected cfg) (seq i0 k))) ->
    k + r <= List.length (providers cfg) ->
    attempts cfg net prompt r tried lastErr st calls =
      (Threw (final_error cfg net prompt r lastErr (sent st) (i0 + k)),
       {| providerIndex := i0 + k + r; vectorStore := vectorStore st; sent := sent st + r |},
       calls ++ map (selected cfg) (seq (i0 + k) r)).
Proof.
  induction r as [|r IH]; intros tried lastErr st calls i0 k Hi Htried Hk.
  - simpl. rewrite app_nil_r, !Nat.add_0_r, <- Hi. now destruct st.
  - cbn [attempts]. rewrite (getNextProvider_selected cfg _ configured), Hi.
    assert (Hnew : existsb (Provider_eqb (selected cfg (i0 + k))) tried = false).
    { apply not_true_is_false. intros H. apply existsb_exists in H as [q [Hq Heq]].
      apply Provider_eqb_eq in Heq. subst q. apply Htried in Hq.
      apply in_map_iff in Hq as [j [Hj Hin]]. apply in_seq in Hin.
      apply selected_inj in Hj; lia. }
    rewrite Hnew.
    destruct (all_fail (sent st) (selected cfg (i0 + k)) (selected_In cfg _ configured))
      as [e He].
    rewrite He.
    rewrite (IH _ _ _ _ i0 (S k)); cbn [providerIndex vectorStore sent].
    + f_equal; [f_equal|].
      * f_equal. destruct r as [|r']; cbn [final_error].
        -- unfold thrown. now rewrite !Nat.add_0_r, He.
        -- f_equal; [|f_equal]; lia.
      * f_equal; lia.
      * rewrite <- app_assoc. f_equal. cbn [seq map app]. do 3 f_equal; lia.
    + lia.
    + intros p [<- | Hp].
      * rewrite seq_S, map_app. apply in_or_app. right. now left.
      * rewrite seq_S, map_app. apply in_or_app. left. now apply Htried.
    + lia.
Qed.

End AllFail.

Lemma getNextProvider_In (cfg : Config) (i next : nat) (p : Provider) :
  getNextProvider cfg i = (Some p, next) -> In p (providers cfg).
Proof.
  unfold getNextProvider. destruct (providers cfg) as [|p0 ps] eqn:E; [discriminate|].
  intros H. injection H as H _. eapply nth_error_In. exact H.
Qed.

(** *** One invocation run alone *)

Lemma advanced_0 (st : State) : advanced st 0 = st.
Proof. destruct st. unfold advanced. cbn. now rewrite !Nat.add_0_r. Qed.

Lemma attempts_trace (cfg : Config) (net : World) (prompt : string) :
  providers cfg <> [] ->
  forall r tried lastErr st calls i0 k,
    providerIndex st = i0 + k ->
    (forall p, In p tried -> In p (map (selected cfg) (seq i0 k))) ->
    k + r <= List.length (providers cfg) ->
    exists n out,
      attempts cfg net prompt r tried lastErr st calls
      = (out, advanced st n, calls ++ map (selected cfg) (seq (i0 + k) n))
      /\ n <= r
      /\ explains cfg net prompt (sent st) (i0 + k) r n out.
Proof.
  intros Hne. induction r as [|r IH]; intros tried lastErr st calls i0 k Hi Htried Hk.
  - exists 0. eexists. cbn [attempts seq map]. rewrite app_nil_r, advanced_0.
    split; [reflexivity|]. split; [lia|]. split; [reflexivity | intros d Hd; lia].
  - cbn [attempts]. rewrite (getNextProvider_selected cfg _ Hne), Hi.
    assert (Hnew : existsb (Provider_eqb (selected cfg (i0 + k))) tried = false).
    { apply not_true_is_false. intros H. apply existsb_exists in H as [q [Hq Heq]].
      apply Provider_eqb_eq in Heq. subst q. apply Htried in Hq.
      apply in_map_iff in Hq as [j [Hj Hin]]. apply in_seq in Hin.
      apply selected_inj in Hj; lia. }
    rewrite Hnew.
    destruct (net (sent st) (selected cfg (i0 + k)) prompt) as [reply | e] eqn:He.
    + exists 1, (Returned reply). cbn [seq map]. split.
      * unfold advanced. rewrite <- Hi. do 2 f_equal. f_equal; lia.
      * split; [lia|]. exists 0. split; [reflexivity|]. split; [intros d Hd; lia|].
        now rewrite !Nat.add_0_r.
    + destruct (IH (selected cfg (i0 + k) :: tried) (Some e)
                  {| providerIndex := S (i0 + k); vectorStore := vectorStore st;
                     sent := S (sent st) |}
                  (calls ++ [selected cfg (i0 + k)]) i0 (S k))
        as (n & out & Hrun & Hn & Hout); cbn [providerIndex vectorStore sent].
      * lia.
      * intros p [<- | Hp]; rewrite seq_S, map_app; apply in_or_app;
          [right; now left | left; now apply Htried].
      * lia.
      * exists (S n), out. rewrite Hrun. split; [|split; [lia|]].
        -- unfold advanced. cbn [providerIndex vectorStore sent]. f_equal; [f_equal|].
           ++ rewrite <- Hi. f_equal; lia.
           ++ rewrite <- app_assoc. f_equal. cbn [seq map app].
              replace (i0 + S k) with (S (i0 + k)) by lia. reflexivity.
        -- cbn [sent] in Hout. destruct out as [reply | e'].
           ++ destruct Hout as (j & -> & Hfail & Hok). exists (S j).
              split; [reflexivity|]. split.
              ** intros [|d] Hd.
                 --- exists e. now rewrite !Nat.add_0_r.
                 --- replace (sent st + S d) with (S (sent st) + d) by lia.
                     replace (i0 + k + S d) with (i0 + S k + d) by lia. apply Hfail. lia.
              ** replace (sent st + S j) with (S (sent st) + j) by lia.
                 replace (i0 + k + S j) with (i0 + S k + j) by lia. exact Hok.
           ++ destruct Hout as [-> Hfail]. split; [reflexivity|].
              intros [|d] Hd.
              ** exists e. now rewrite !Nat.add_0_r.
              ** replace (sent st + S d) with (S (sent st) + d) by lia.
                 replace (i0 + k + S d) with (i0 + S k + d) by lia. apply Hfail. lia.
Qed.

Lemma generateWithRotation_trace
  (cfg : Config) (net : World) (prompt : string) (maxTries : nat) (st : State) :
  exists n out,
    generateWithRotation cfg net prompt maxTries st
    = (out, advanced st n, map (selected cfg) (seq (providerIndex st) n))
    /\ n <= Nat.min maxTries (List.length (providers cfg))
    /\ explains cfg net prompt (sent st) (providerIndex st)
         (Nat.min maxTries (List.length (providers cfg))) n out.
Proof.
  unfold generateWithRotation. destruct (providers cfg) as [|p0 ps] eqn:E.
  - exists 0. eexists. rewrite advanced_0. cbn [seq map List.length].
    rewrite Nat.min_0_r. split; [reflexivity|]. split; [lia|].
    split; [reflexivity | intros d Hd; lia].
  - rewrite <- E. assert (Hne : providers cfg <> []) by (rewrite E; discriminate).
    destruct (attempts_trace cfg net prompt Hne
                (Nat.min maxTries (List.length (providers cfg))) [] None st []
                (providerIndex st) 0) as (n & out & Hrun & Hn & Hout);
      [lia | intros p [] | lia |].
    rewrite Nat.add_0_r in Hrun, Hout. exists n, out. now rewrite Hrun.
Qed.

(** *** One invocation among other requests *)

Lemma last_error_snoc (net : World) (prompt : string) (log : list (nat * Provider))
  (t : nat) (p : Provider) (e : string) :
  net t p prompt = Threw e -> last_error net prompt (log ++ [(t, p)]) = Some e.
Proof. intros H. unfold last_error. rewrite rev_app_distr. cbn. now rewrite H. Qed.

Lemma last_error_last (net : World) (prompt : string) (earlier : list (nat * Provider))
  (t : nat) (p : Provider) :
  last_error net prompt (earlier ++ [(t, p)])
  = match net t p prompt with Threw e => Some e | Returned _ => None end.
Proof. unfold last_error. now rewrite rev_app_distr. Qed.

Section Among.
Variable cfg : Config.
Variable net : World.
Variable prompt : string.
Variable others : Others.

(** What a run of the loop adds to the log, whatever the other requests
    do. *)
Lemma attempts_among (r : nat) :
  forall tried lastErr st log,
    (forall p, In p tried <-> In p (map snd log)) ->
    NoDup (map snd log) ->
    (forall p, In p (map snd log) -> In p (providers cfg)) ->
    Forall (request_failed net prompt) log ->
    lastErr = last_error net prompt log ->
    exists out st' more,
      Interleaved.attempts cfg net prompt others r tried lastErr st log
      = (out, st', log ++ more)
      /\ List.length more <= r
      /\ (r <> 0 -> tried = [] -> providers cfg <> [] ->
          exists rest, more = (sent st, selected cfg (providerIndex st)) :: rest)
      /\ NoDup (map snd (log ++ more))
      /\ (forall p, In p (map snd (log ++ more)) -> In p (providers cfg))
      /\ match out with
         | Returned reply =>
             exists earlier t p,
               log ++ more = earlier ++ [(t, p)]
               /\ Forall (request_failed net prompt) earlier
               /\ net t p prompt = Returned reply
         | Threw e =>
             Forall (request_failed net prompt) (log ++ more)
             /\ e = match last_error net prompt (log ++ more) with
                    | Some e' => e'
                    | None => "All providers failed"
                    end
         end.
Proof.
  induction r as [|r IH]; intros tried lastErr st log Htried Hnd Hin Hfail Herr;
    cbn [Interleaved.attempts].
  - eexists _, _, []. rewrite app_nil_r. split; [reflexivity|]. split; [cbn; lia|].
    split; [congruence|]. split; [assumption|]. split; [assumption|]. split; [assumption|]. now rewrite Herr.
  - destruct (getNextProvider cfg (providerIndex st)) as [[p|] next] eqn:G.
    + destruct (existsb (Provider_eqb p) tried) eqn:E.
      * destruct (IH tried lastErr
                    {| providerIndex := next; vectorStore := vectorStore st; sent := sent st |}
                    log Htried Hnd Hin Hfail Herr)
          as (out & st' & more & Hrun & Hlen & _ & H1 & H2 & H3).
        exists out, st', more. rewrite Hrun.
        split; [reflexivity|]. split; [lia|]. split; [|repeat split; assumption].
        intros _ -> _. discriminate.
      * assert (Hnew : ~ In p (map snd log)).
        { intros H. apply Htried in H. apply not_true_iff_false in E. apply E.
          apply existsb_exists. exists p. split; [assumption|]. now apply Provider_eqb_eq. }
        assert (Hnd' : NoDup (map snd (log ++ [(sent st, p)]))).
        { rewrite map_app. cbn [map snd]. apply NoDup_app; [assumption | repeat constructor; intros [] |].
          intros x Hx [<- | []]. contradiction. }
        assert (Hin' : forall q, In q (map snd (log ++ [(sent st, p)])) -> In q (providers cfg)).
        { intros q Hq. rewrite map_app in Hq. apply in_app_or in Hq as [Hq | [<- | []]];
            [now apply Hin | now apply (getNextProvider_In cfg _ _ _ G)]. }
        destruct (net (sent st) p prompt) as [reply | e] eqn:N.
        -- eexists _, _, [(sent st, p)]. split; [reflexivity|]. split; [cbn; lia|].
           split.
           { intros _ _ Hne. rewrite (getNextProvider_selected cfg _ Hne) in G.
             injection G as <- _. now exists []. }
           split; [assumption|]. split; [assumption|].
           exists log, (sent st), p. repeat split; assumption.
        -- destruct (IH (p :: tried) (Some e)
                       (others (List.length log)
                          {| providerIndex := next; vectorStore := vectorStore st;
                             sent := S (sent st) |})
                       (log ++ [(sent st, p)]))
             as (out & st' & more & Hrun & Hlen & _ & H1 & H2 & H3).
           ++ intros q. rewrite map_app. cbn [map snd In]. rewrite in_app_iff. cbn [In].
              rewrite <- Htried. tauto.
           ++ assumption.
           ++ assumption.
           ++ apply Forall_app. split; [assumption|]. constructor; [|constructor].
              now exists e.
           ++ symmetry. now apply last_error_snoc.
           ++ exists out, st', ((sent st, p) :: more). rewrite Hrun, <- app_assoc.
              cbn [app]. rewrite <- app_assoc in H1, H2, H3. cbn [app] in H1, H2, H3.
              split; [reflexivity|]. split; [cbn [List.length]; lia|].
              split; [|repeat split; assumption].
              intros _ _ Hne. rewrite (getNextProvider_selected cfg _ Hne) in G.
              injection G as <- _. now exists more.
    + destruct (IH tried lastErr
                  {| providerIndex := next; vectorStore := vectorStore st; sent := sent st |}
                  log Htried Hnd Hin Hfail Herr)
        as (out & st' & more & Hrun & Hlen & _ & H1 & H2 & H3).
      exists out, st', more. rewrite Hrun.
      split; [reflexivity|]. split; [lia|]. split; [|repeat split; assumption].
      intros _ _ Hne. rewrite (getNextProvider_selected cfg _ Hne) in G. discriminate.
Qed.

End Among.

Section Undisturbed.
Variable cfg : Config.
Variable net : World.
Variable prompt : string.
Variable others : Others.
Hypothesis quiet : undisturbed others.

(** With no other request at the rotation, the loop does what it does when
    it runs alone. *)
Lemma attempts_undisturbed (r : nat) :
  forall tried lastErr st st0 log calls,
    providerIndex st = providerIndex st0 ->
    sent st = sent st0 ->
    exists out st' st0' more,
      Interleaved.attempts cfg net prompt others r tried lastErr st log
      = (out, st', log ++ more)
      /\ attempts cfg net prompt r tried lastErr st0 calls
         = (out, st0', calls ++ map snd more)
      /\ providerIndex st' = providerIndex st0'
      /\ sent st' = sent st0'
      /\ map fst more = seq (sent st) (List.length more).
Proof.
  induction r as [|r IH]; intros tried lastErr st st0 log calls Hi Hs;
    cbn [Interleaved.attempts attempts].
  - eexists _, _, _, []. rewrite !app_nil_r. repeat split; assumption.
  - rewrite <- Hi, <- Hs.
    destruct (getNextProvider cfg (providerIndex st)) as [[p|] next] eqn:G.
    + destruct (existsb (Provider_eqb p) tried).
      * exact (IH tried lastErr
                 {| providerIndex := next; vectorStore := vectorStore st; sent := sent st |}
                 {| providerIndex := next; vectorStore := vectorStore st0; sent := sent st |}
                 log calls eq_refl eq_refl).
      * destruct (net (sent st) p prompt) as [reply | e].
        -- eexists _, _, _, [(sent st, p)]. split; [reflexivity|]. split; [reflexivity|].
           cbn [providerIndex sent]. destruct (quiet (List.length log)
             {| providerIndex := next; vectorStore := vectorStore st; sent := S (sent st) |})
             as [Q1 Q2]. cbn [providerIndex sent] in Q1, Q2. repeat split; assumption.
        -- destruct (quiet (List.length log)
             {| providerIndex := next; vectorStore := vectorStore st; sent := S (sent st) |})
             as [Q1 Q2]. cbn [providerIndex sent] in Q1, Q2.
           destruct (IH (p :: tried) (Some e)
                       (others (List.length log)
                          {| providerIndex := next; vectorStore := vectorStore st;
                             sent := S (sent st) |})
                       {| providerIndex := next; vectorStore := vectorStore st0;
                          sent := S (sent st) |}
                       (log ++ [(sent st, p)]) (calls ++ [p]))
             as (out & st' & st0' & more & H1 & H2 & H3 & H4 & H5);
             [exact Q1 | exact Q2 |].
           exists out, st', st0', ((sent st, p) :: more).
           rewrite H1, H2, <- !app_assoc. cbn [app map fst snd List.length seq].
           repeat split; try assumption. rewrite H5, Q2. reflexivity.
    + exact (IH tried lastErr
               {| providerIndex := next; vectorStore := vectorStore st; sent := sent st |}
               {| providerIndex := next; vectorStore := vectorStore st0; sent := sent st |}
               log calls eq_refl eq_refl).
Qed.

Lemma generateWithRotation_undisturbed (maxTries : nat) (st : State) :
  exists n out st' log,
    Interleaved.generateWithRotation cfg net prompt others maxTries st = (out, st', log)
    /\ map fst log = seq (sent st) n
    /\ map snd log = map (selected cfg) (seq (providerIndex st) n)
    /\ providerIndex st' = providerIndex st + n
    /\ sent st' = sent st + n
    /\ n <= Nat.min maxTries (List.length (providers cfg))
    /\ explains cfg net prompt (sent st) (providerIndex st)
         (Nat.min maxTries (List.length (providers cfg))) n out.
Proof.
  destruct (generateWithRotation_trace cfg net prompt maxTries st)
    as (n & out & Hrun & Hn & Hout).
  exists n, out. revert Hrun Hn Hout.
  unfold Interleaved.generateWithRotation, generateWithRotation.
  destruct (providers cfg) as [|p0 ps] eqn:E.
  - intros Hrun Hn Hout. injection Hrun as <- Hst Hcalls.
    assert (n = 0) as -> by (destruct n; [reflexivity | discriminate]).
    exists st, []. cbn [seq map]. rewrite !Nat.add_0_r.
    do 5 (split; [reflexivity|]). split; assumption.
  - rewrite <- E. intros Hrun Hn Hout.
    destruct (attempts_undisturbed (Nat.min maxTries (List.length (providers cfg)))
                [] None st st [] [] eq_refl eq_refl)
      as (out' & st' & st0' & more & H1 & H2 & H3 & H4 & H5).
    rewrite Hrun in H2. injection H2 as <- <- Hmore. cbn [app] in Hmore, H1.
    exists st', more.
    assert (Hlen : List.length more = n).
    { rewrite <- (length_map snd), <- Hmore, length_map, length_seq. reflexivity. }
    rewrite Hlen in H5. unfold advanced in H3, H4. cbn [providerIndex sent] in H3, H4.
    split; [exact H1|]. split; [exact H5|]. split; [now symmetry|].
    do 2 (split; [assumption|]). split; assumption.
Qed.

End Undisturbed.

Lemma alone_undisturbed : undisturbed alone.
Proof. intros k st. split; reflexivity. Qed.

(** With nothing else running, the loop is [attempts]. *)
Lemma attempts_alone (cfg : Config) (net : World) (prompt : string) (r : nat) :
  forall tried lastErr st log,
    attempts cfg net prompt r tried lastErr st (map snd log)
    = (let '(out, st', log') :=
         Interleaved.attempts cfg net prompt alone r tried lastErr st log in
       (out, st', map snd log')).
Proof.
  induction r as [|r IH]; intros tried lastErr st log;
    cbn [Interleaved.attempts attempts]; [reflexivity|].
  destruct (getNextProvider cfg (providerIndex st)) as [[p|] next]; [|apply IH].
  destruct (existsb (Provider_eqb p) tried); [apply IH|].
  destruct (net (sent st) p prompt) as [reply | e].
  - now rewrite map_app.
  - unfold alone at 1. rewrite <- IH, map_app. reflexivity.
Qed.

Lemma generateWithRotation_alone (cfg : Config) (net : World) (prompt : string)
  (maxTries : nat) (st : State) :
  generateWithRotation cfg net prompt maxTries st
  = (let '(out, st', log) :=
       Interleaved.generateWithRotation cfg net prompt alone maxTries st in
     (out, st', map snd log)).
Proof.
  unfold generateWithRotation, Interleaved.generateWithRotation.
  destruct (providers cfg); [reflexivity|]. exact (attempts_alone cfg net prompt _ [] None st []).
Qed.

(** One invocation, whatever the other requests do meanwhile. *)
Lemma generateWithRotation_among (cfg : Config) (net : World) (prompt : string)
  (others : Others) (maxTries : nat) (st : State) :
  exists out st' log,
    Interleaved.generateWithRotation cfg net prompt others maxTries st = (out, st', log)
    /\ List.length log <= Nat.min maxTries (List.length (providers cfg))
    /\ (Nat.min maxTries (List.length (providers cfg)) <> 0 ->
        exists rest, log = (sent st, selected cfg (providerIndex st)) :: rest)
    /\ NoDup (map snd log)
    /\ (forall p, In p (map snd log) -> In p (providers cfg))
    /\ (providers cfg = [] ->
        out = Threw "No providers configured" /\ st' = st /\ log = [])
    /\ match out with
       | Returned reply =>
           exists earlier t p,
             log = earlier ++ [(t, p)]
             /\ Forall (request_failed net prompt) earlier
             /\ net t p prompt = Returned reply
       | Threw e =>
           Forall (request_failed net prompt) log
           /\ (providers cfg <> [] ->
               e = match last_error net prompt log with
                   | Some e' => e'
                   | None => "All providers failed"
                   end)
       end.
Proof.
  unfold Interleaved.generateWithRotation.
  destruct (providers cfg) as [|p0 ps] eqn:E.
  - exists (Threw "No providers configured"), st, []. rewrite Nat.min_0_r.
    split; [reflexivity|]. split; [cbn; lia|]. split; [congruence|].
    split; [constructor|]. split; [intros p []|]. split; [now repeat split|].
    split; [constructor | congruence].
  - rewrite <- E. assert (Hne : providers cfg <> []) by (rewrite E; discriminate).
    destruct (attempts_among cfg net prompt others
                (Nat.min maxTries (List.length (providers cfg))) [] None st [])
      as (out & st' & more & Hrun & Hlen & Hfirst & Hnd & Hin & Hout).
    + intros p. cbn. tauto.
    + constructor.
    + intros p [].
    + constructor.
    + reflexivity.
    + cbn [app] in *. exists out, st', more. split; [exact Hrun|]. split; [exact Hlen|].
      split; [intros Ha; now apply Hfirst|]. split; [exact Hnd|]. split; [exact Hin|].
      split; [intros H; congruence|].
      destruct out as [reply | e]; [exact Hout|]. destruct Hout as [Hf He].
      split; [exact Hf | intros _; exact He].
Qed.

(** C2. When every configured provider fails, [generateWithRotation]
    throws after it has requested at most [min(maxTries, providers.length)]
    providers, all of them configured and no two of them equal; unless
    that minimum is 0 the first of them is the provider under the cursor.
    The error is that of the last provider requested, or 'All providers
    failed' when none was requested.  With no provider configured it
    throws 'No providers configured' at once.  When no other request draws
    from the rotation while the invocation waits, the providers requested
    are exactly the [min(maxTries, providers.length)] ones under the next
    cursors, in rotation order. *)
Theorem rotation_tries_distinct_providers
  (cfg : Config) (net : World) (prompt : string) (others : Others)
  (maxTries : nat) (st : State) :
  (forall t p, In p (providers cfg) -> exists e, net t p prompt = Threw e) ->
  let n := List.length (providers cfg) in
  let a := Nat.min maxTries n in
  exists e st' log,
    Interleaved.generateWithRotation cfg net prompt others maxTries st = (Threw e, st', log)
    /\ List.length log <= a
    /\ (a <> 0 -> exists rest, log = (sent st, selected cfg (providerIndex st)) :: rest)
    /\ NoDup (map snd log)
    /\ (forall p, In p (map snd log) -> In p (providers cfg))
    /\ (n = 0 -> e = "No providers configured" /\ st' = st /\ log = [])
    /\ (n <> 0 -> log = [] -> e = "All providers failed")
    /\ (n <> 0 -> forall earlier t p, log = earlier ++ [(t, p)] -> net t p prompt = Threw e)
    /\ (undisturbed others ->
        List.length log = a
        /\ map snd log = map (selected cfg) (seq (providerIndex st) a)
        /\ map fst log = seq (sent st) a
        /\ providerIndex st' = providerIndex st + a
        /\ sent st' = sent st + a).
Proof.
  intros Hfail. cbv zeta.
  destruct (generateWithRotation_among cfg net prompt others maxTries st)
    as (out & st' & log & Hrun & Hlen & Hfirst & Hnd & Hin & Hnone & Hout).
  destruct out as [reply | e].
  { exfalso. destruct Hout as (earlier & t & p & -> & _ & Hok).
    destruct (Hfail t p) as [e He]; [|congruence].
    apply Hin. rewrite map_app. apply in_or_app. right. now left. }
  destruct Hout as [_ He].
  exists e, st', log. split; [exact Hrun|]. split; [exact Hlen|]. split; [exact Hfirst|].
  split; [exact Hnd|]. split; [exact Hin|]. split.
  { intros Hn. apply length_zero_iff_nil in Hn. destruct (Hnone Hn) as (H & -> & ->).
    injection H as ->. now repeat split. }
  split.
  { intros Hn ->. apply He. intros H. now rewrite H in Hn. }
  split.
  { intros Hn earlier t p ->. rewrite last_error_last in He.
    destruct (Hfail t p) as [e' He'].
    - apply Hin. rewrite map_app. apply in_or_app. right. now left.
    - rewrite He' in He |- *. f_equal. symmetry. apply He. intros H. now rewrite H in Hn. }
  intros Hq.
  destruct (generateWithRotation_undisturbed cfg net prompt others Hq maxTries st)
    as (k & out2 & st2 & log2 & Hrun2 & Hfst & Hsnd & Hi & Hs & Hk & Hexp).
  rewrite Hrun in Hrun2. injection Hrun2 as <- <- <-. destruct Hexp as [-> _].
  split; [now rewrite <- (length_map snd), Hsnd, length_map, length_seq|].
  repeat split; assumption.
Qed.

(** The cursor never moves back in the loop, and moves by at most one per
    iteration. *)
Lemma attempts_cursor (cfg : Config) (net : World) (prompt : string) (r : nat) :
  forall tried lastErr st calls,
    providers cfg <> [] ->
    providerIndex st <= providerIndex (snd (fst (attempts cfg net prompt r tried lastErr st calls)))
    /\ providerIndex (snd (fst (attempts cfg net prompt r tried lastErr st calls)))
       <= providerIndex st + r.
Proof.
  induction r as [|r IH]; intros tried lastErr st calls Hne; cbn [attempts].
  - simpl. lia.
  - rewrite (getNextProvider_selected cfg _ Hne).
    destruct (existsb _ tried).
    + specialize (IH tried lastErr
        {| providerIndex := S (providerIndex st); vectorStore := vectorStore st;
           sent := sent st |} calls Hne). simpl in IH. lia.
    + destruct (net (sent st) (selected cfg (providerIndex st)) prompt) as [reply | e].
      * simpl. lia.
      * specialize (IH (selected cfg (providerIndex st) :: tried) (Some e)
          {| providerIndex := S (providerIndex st); vectorStore := vectorStore st;
             sent := S (sent st) |} (calls ++ [selected cfg (providerIndex st)]) Hne).
        simpl in IH. lia.
Qed.

(** The loop only ever extends the list of providers called. *)
Lemma attempts_calls_prefix (cfg : Config) (net : World) (prompt : string) (r : nat) :
  forall tried lastErr st calls,
    exists more, snd (attempts cfg net prompt r tried lastErr st calls) = calls ++ more.
Proof.
  induction r as [|r IH]; intros tried lastErr st calls; cbn [attempts].
  - exists []. simpl. now rewrite app_nil_r.
  - destruct (getNextProvider cfg (providerIndex st)) as [[p|] next].
    + destruct (existsb _ tried); [apply IH|].
      destruct (net (sent st) p prompt) as [reply | e].
      * now exists [p].
      * destruct (IH (p :: tried) (Some e)
          {| providerIndex := next; vectorStore := vectorStore st; sent := S (sent st) |}
          (calls ++ [p])) as [more H].
        exists (p :: more). rewrite H, <- app_assoc. reflexivity.
    + apply IH.
Qed.

Lemma generateWithRotation_cursor (cfg : Config) (net : World) (prompt : string)
  (maxTries : nat) (st : State) :
  providerIndex st
  <= providerIndex (snd (fst (generateWithRotation cfg net prompt maxTries st))).
Proof.
  unfold generateWithRotation. destruct (providers cfg) as [|p0 ps] eqn:E; [simpl; lia|].
  rewrite <- E. apply attempts_cursor. rewrite E. discriminate.
Qed.

Lemma api_chat_cursor (cfg : Config) (net : World) (req : option string) (st : State) :
  providerIndex st <= providerIndex (snd (fst (api_chat cfg net req st))).
Proof.
  unfold api_chat.
  destruct (negb _); [simpl; lia|].
  destruct (checkEmergency _); [simpl; lia|].
  destruct (providers cfg) as [|p0 ps] eqn:E; [simpl; lia|].
  pose proof (generateWithRotation_cursor cfg net
    (buildPrompt
       (retrieveTopK (vectorStore st) match req with Some m => m | None => "" end 3)
       match req with Some m => m | None => "" end) 3 st) as H.
  destruct (generateWithRotation _ _ _ _ _) as [[[reply | e] st'] calls]; exact H.
Qed.

(** The first iteration of a call with a positive budget goes to the
    provider under the cursor. *)
Lemma generateWithRotation_first (cfg : Config) (net : World) (prompt : string)
  (m : nat) (st : State) :
  providers cfg <> [] ->
  hd_error (snd (generateWithRotation cfg net prompt (S m) st))
  = Some (selected cfg (providerIndex st)).
Proof.
  intros Hne. unfold generateWithRotation.
  destruct (providers cfg) as [|p0 ps] eqn:E; [congruence|]. rewrite <- E.
  assert (Hne' : providers cfg <> []) by (rewrite E; discriminate).
  assert (Hmin : exists r, Nat.min (S m) (List.length (providers cfg)) = S r).
  { rewrite E. simpl. now eexists. }
  destruct Hmin as [r ->]. cbn [attempts].
  rewrite (getNextProvider_selected cfg _ Hne'). cbn [existsb].
  destruct (net (sent st) (selected cfg (providerIndex st)) prompt) as [reply | e].
  - reflexivity.
  - destruct (attempts_calls_prefix cfg net prompt r
      [selected cfg (providerIndex st)] (Some e)
      {| providerIndex := S (providerIndex st); vectorStore := vectorStore st;
         sent := S (sent st) |} ([] ++ [selected cfg (providerIndex st)])) as [more H].
    rewrite H. reflexivity.
Qed.

(** C9. The cursor only grows.  With a provider configured,
    [getNextProvider] returns [providers[providerIndex % providers.length]]
    and adds exactly one to the cursor; no handler ever lowers or resets
    it.  Hence the starting provider rotates from call to call: after a
    call that succeeded at once on the provider under the cursor, the next
    call starts from the provider under the following cursor, which is a
    different provider as soon as two are configured. *)
Theorem cursor_rotates_across_calls (cfg : Config) :
  (forall i, providers cfg <> [] ->
     getNextProvider cfg i
     = (nth_error (providers cfg) (i mod List.length (providers cfg)), S i)
     /\ nth_error (providers cfg) (i mod List.length (providers cfg))
        = Some (selected cfg i))
  /\ (forall net prompt maxTries st,
        providerIndex st
        <= providerIndex (snd (fst (generateWithRotation cfg net prompt maxTries st))))
  /\ (forall net req st,
        providerIndex st <= providerIndex (snd (fst (api_chat cfg net req st))))
  /\ (forall fs st, providerIndex (snd (handle_index fs st)) = providerIndex st)
  /\ (forall net prompt prompt' m m' st reply,
        providers cfg <> [] ->
        net (sent st) (selected cfg (providerIndex st)) prompt = Returned reply ->
        exists st',
          generateWithRotation cfg net prompt (S m) st
          = (Returned reply, st', [selected cfg (providerIndex st)])
          /\ providerIndex st' = S (providerIndex st)
          /\ hd_error (snd (generateWithRotation cfg net prompt' (S m') st'))
             = Some (selected cfg (S (providerIndex st)))
          /\ (2 <= List.length (providers cfg) ->
              selected cfg (S (providerIndex st)) <> selected cfg (providerIndex st))).
Proof.
  split; [|split; [|split; [|split]]].
  - intros i Hne. pose proof (getNextProvider_selected cfg i Hne) as H.
    unfold getNextProvider in *. destruct (providers cfg) as [|p0 ps] eqn:E; [congruence|].
    split; [reflexivity|]. now injection H as H.
  - intros. apply generateWithRotation_cursor.
  - intros. apply api_chat_cursor.
  - intros fs st. unfold handle_index. now destruct (api_index fs (vectorStore st)).
  - intros net prompt prompt' m m' st reply Hne Hret.
    eexists. split; [|split; [|split]].
    + unfold generateWithRotation.
      destruct (providers cfg) as [|p0 ps] eqn:E; [congruence|]. rewrite <- E.
      assert (Hne' : providers cfg <> []) by (rewrite E; discriminate).
      assert (Hmin : exists r, Nat.min (S m) (List.length (providers cfg)) = S r).
      { rewrite E. simpl. now eexists. }
      destruct Hmin as [r ->]. cbn [attempts].
      rewrite (getNextProvider_selected cfg _ Hne'). cbn [existsb]. rewrite Hret.
      reflexivity.
    + reflexivity.
    + now rewrite generateWithRotation_first.
    + intros Hlen Heq. symmetry in Heq. apply selected_inj in Heq; lia.
Qed.

(* ----------------------------------------------------------------- *)
(** ** The chat handler *)

(** A reply comes from a provider helper that returned it. *)
Lemma attempts_returned (cfg : Config) (net : World) (prompt : string) (r : nat) :
  forall tried lastErr st calls reply st' calls',
    attempts cfg net prompt r tried lastErr st calls = (Returned reply, st', calls') ->
    exists t p, In p (providers cfg) /\ net t p prompt = Returned reply.
Proof.
  induction r as [|r IH]; intros tried lastErr st calls reply st' calls'; cbn [attempts].
  - discriminate.
  - destruct (getNextProvider cfg (providerIndex st)) as [[p|] next] eqn:G; [|apply IH].
    destruct (existsb _ tried); [apply IH|].
    destruct (net (sent st) p prompt) as [reply0 | e] eqn:Hnet; [|apply IH].
    intros H. injection H as -> _ _. exists (sent st), p. split; [|exact Hnet].
    eapply getNextProvider_In. exact G.
Qed.

Lemma generateWithRotation_returned (cfg : Config) (net : World) (prompt : string)
  (maxTries : nat) (st st' : State) (reply : string) (calls : list Provider) :
  generateWithRotation cfg net prompt maxTries st = (Returned reply, st', calls) ->
  exists t p, In p (providers cfg) /\ net t p prompt = Returned reply.
Proof.
  unfold generateWithRotation. destruct (providers cfg) as [|p0 ps] eqn:E; [discriminate|].
  rewrite <- E. apply attempts_returned.
Qed.

Lemma generateWithRotation_all_fail (cfg : Config) (net : World) (prompt : string)
  (maxTries : nat) (st : State) :
  (forall t p, In p (providers cfg) -> exists e, net t p prompt = Threw e) ->
  exists e st' calls, generateWithRotation cfg net prompt maxTries st = (Threw e, st', calls).
Proof.
  intros Hfail. unfold generateWithRotation.
  destruct (providers cfg) as [|p0 ps] eqn:E; [now eexists _, _, _|].
  rewrite <- E in *.
  assert (Hne : providers cfg <> []) by (rewrite E; discriminate).
  pose proof (attempts_all_fail cfg net prompt Hfail Hne
    (Nat.min maxTries (List.length (providers cfg))) [] None st [] (providerIndex st) 0) as H.
  rewrite Nat.add_0_r in H. rewrite H; [now eexists _, _, _ | reflexivity | contradiction | lia].
Qed.

Lemma truthy_nonempty (s : string) : s <> "" -> JS.truthy s = true.
Proof. destruct s; [congruence | reflexivity]. Qed.

(** C4. A chat request with a non-empty message is answered with status
    200 and a reply: the safety message, the trimmed text a provider
    returned, or the demo fallback.  When the message is no emergency and
    no provider is configured, or every configured provider fails, the
    reply is the demo fallback. *)
Theorem chat_always_replies
  (cfg : Config) (net : World) (message : string) (st : State) :
  message <> "" ->
  let top := retrieveTopK (vectorStore st) message 3 in
  let prompt := buildPrompt top message in
  exists reply emergency booking,
    fst (fst (api_chat cfg net (Some message) st)) = ok (Chat reply emergency booking)
    /\ (reply = safety
        \/ (exists t p r, In p (providers cfg) /\ net t p prompt = Returned r
                          /\ reply = JS.trim r)
        \/ reply = demo top message)
    /\ (checkEmergency message = false ->
        providers cfg = []
        \/ (forall t p, In p (providers cfg) -> exists e, net t p prompt = Threw e) ->
        reply = demo top message /\ emergency = false /\ booking = None).
Proof.
  intros Hne. cbv zeta. unfold api_chat. rewrite (truthy_nonempty _ Hne). cbn [negb].
  destruct (checkEmergency message) eqn:Hem.
  - exists safety, true, None. split; [reflexivity|]. split; [now left | discriminate].
  - destruct (providers cfg) as [|p0 ps] eqn:E.
    + eexists _, _, _. split; [reflexivity|]. split; [now right; right | now intros _ _].
    + rewrite <- E.
      destruct (generateWithRotation cfg net _ 3 st) as [[[r | e] st'] calls] eqn:G.
      * eexists _, _, _. split; [reflexivity|]. split.
        -- right; left. apply generateWithRotation_returned in G as [t [p [Hin Hnet]]].
           now exists t, p, r.
        -- intros _ [Hnil | Hfail]; [rewrite E in Hnil; discriminate|].
           destruct (generateWithRotation_all_fail cfg net _ 3 st Hfail) as [e [s [c H]]].
           rewrite H in G. discriminate.
      * eexists _, _, _. split; [reflexivity|]. split; [now right; right | now intros _ _].
Qed.

(** *** The booking-intent pattern *)

Lemma last_unit_cons (c : ascii) (s : string) :
  last_unit (String c s) = last_or (Some c) s.
Proof.
  unfold last_or. revert c; induction s as [|d s IH]; intros c; [reflexivity|].
  change (last_unit (String c (String d s))) with (last_unit (String d s)).
  rewrite IH. now destruct (last_unit s).
Qed.

Lemma last_or_cons (prev : option ascii) (c : ascii) (s : string) :
  last_or prev (String c s) = last_or (Some c) s.
Proof. unfold last_or at 1. rewrite last_unit_cons. unfold last_or. now destruct (last_unit s). Qed.

Lemma literal_ci_spec (w : string) :
  forall prev s last rest,
    literal_ci w prev s = Some (last, rest)
    <-> exists mid, s = mid +++ rest /\ ci_equal w mid = true /\ last = last_or prev mid.
Proof.
  induction w as [|a w IH]; intros prev s last rest; cbn [literal_ci].
  - split.
    + intros H. injection H as <- <-. now exists "".
    + intros [mid (-> & Hci & ->)]. destruct mid; [reflexivity | discriminate].
  - destruct s as [|b s].
    + split; [discriminate|]. intros [mid (Hs & Hci & _)].
      destruct mid; [discriminate | discriminate].
    + destruct (canonicalize a =? canonicalize b)%N eqn:E.
      * rewrite IH. split.
        -- intros [mid (-> & Hci & ->)]. exists (String b mid).
           cbn [ci_equal]. rewrite E, Hci, last_or_cons. now repeat split.
        -- intros [mid (Hs & Hci & ->)]. destruct mid as [|b' mid]; [discriminate|].
           cbn [ci_equal] in Hci. apply andb_true_iff in Hci as [_ Hci].
           injection Hs as <- ->. exists mid. rewrite last_or_cons. now repeat split.
      * split; [discriminate|]. intros [mid (Hs & Hci & _)].
        destruct mid as [|b' mid]; [discriminate|]. injection Hs as <- _.
        cbn [ci_equal] in Hci. rewrite E in Hci. discriminate.
Qed.

Lemma letter_like_word (c : ascii) : letter_like c = true -> JS.isWordChar c = true.
Proof.
  destruct c as [[] [] [] [] [] [] [] []]; vm_compute; congruence.
Qed.

Lemma ci_equal_units (w mid : string) :
  all_units letter_like w = true -> ci_equal w mid = true ->
  all_units JS.isWordChar mid = true.
Proof.
  revert mid; induction w as [|a w IH]; intros [|b mid]; cbn [ci_equal all_units];
    try discriminate; try reflexivity.
  rewrite !andb_true_iff, N.eqb_eq. intros [Ha Hw] [Hab Hci]. split; [|now apply IH].
  apply letter_like_word. unfold letter_like in *. now rewrite <- Hab.
Qed.

Lemma all_units_first (p : ascii -> bool) (s rest : string) :
  all_units p s = true -> s <> "" ->
  exists c, first_unit (s +++ rest) = Some c /\ p c = true.
Proof.
  destruct s as [|c s]; [congruence|]. cbn [all_units]. rewrite andb_true_iff.
  intros [Hc _] _. now exists c.
Qed.

Lemma all_units_last (p : ascii -> bool) (prev : option ascii) (s : string) :
  all_units p s = true -> s <> "" -> exists c, last_or prev s = Some c /\ p c = true.
Proof.
  revert prev; induction s as [|c s IH]; intros prev; [congruence|].
  cbn [all_units]. rewrite andb_true_iff. intros [Hc Hs] _. rewrite last_or_cons.
  destruct s as [|d s]; [now exists c|]. apply IH; [assumption | discriminate].
Qed.

Lemma booking_words_letters (w : string) :
  In w BOOKING_WORDS -> all_units letter_like w = true /\ w <> "".
Proof.
  intros [<- | [<- | [<- | [<- | []]]]]; (split; [reflexivity | discriminate]).
Qed.

Lemma ci_equal_nonempty (w mid : string) : w <> "" -> ci_equal w mid = true -> mid <> "".
Proof. destruct w, mid; try discriminate; congruence. Qed.

Lemma match_here_spec (prev : option ascii) (s : string) :
  match_here prev s = true
  <-> is_word prev = false
      /\ exists mid post w,
           In w BOOKING_WORDS /\ s = mid +++ post /\ ci_equal w mid = true
           /\ is_word (first_unit post) = false.
Proof.
  unfold match_here. rewrite andb_true_iff, existsb_exists. split.
  - intros [Hstart [w [Hw Hlit]]].
    destruct (literal_ci w prev s) as [[last rest]|] eqn:L; [|discriminate].
    apply literal_ci_spec in L as [mid (-> & Hci & ->)].
    destruct (booking_words_letters w Hw) as [Hl Hne].
    pose proof (ci_equal_units w mid Hl Hci) as Hu.
    pose proof (ci_equal_nonempty w mid Hne Hci) as Hm.
    destruct (all_units_first _ mid rest Hu Hm) as [c [Hc Hcw]].
    destruct (all_units_last _ prev mid Hu Hm) as [d [Hd Hdw]].
    rewrite Hc in Hstart. rewrite Hd in Hlit. unfold word_boundary in *. cbn [is_word] in *.
    rewrite Hcw in Hstart. rewrite Hdw in Hlit.
    split; [now destruct (is_word prev)|].
    exists mid, rest, w. repeat split; try assumption. now destruct (is_word (first_unit rest)).
  - intros [Hprev [mid [post [w (Hw & -> & Hci & Hpost)]]]].
    destruct (booking_words_letters w Hw) as [Hl Hne].
    pose proof (ci_equal_units w mid Hl Hci) as Hu.
    pose proof (ci_equal_nonempty w mid Hne Hci) as Hm.
    destruct (all_units_first _ mid post Hu Hm) as [c [Hc Hcw]].
    destruct (all_units_last _ prev mid Hu Hm) as [d [Hd Hdw]].
    split.
    + rewrite Hc. unfold word_boundary. cbn [is_word]. now rewrite Hprev, Hcw.
    + exists w. split; [assumption|].
      rewrite (proj2 (literal_ci_spec w prev (mid +++ post) (last_or prev mid) post))
        by (exists mid; now repeat split).
      rewrite Hd. unfold word_boundary. cbn [is_word]. now rewrite Hdw, Hpost.
Qed.

Lemma test_from_spec (s : string) :
  forall prev,
    test_from prev s = true
    <-> exists pre mid post w,
          In w BOOKING_WORDS /\ s = pre +++ mid +++ post /\ ci_equal w mid = true
          /\ is_word (last_or prev pre) = false /\ is_word (first_unit post) = false.
Proof.
  induction s as [|c s IH]; intros prev; cbn [test_from]; rewrite orb_true_iff, match_here_spec.
  - split.
    + intros [[Hprev [mid [post [w (Hw & Hs & Hci & Hpost)]]]] | H]; [|discriminate].
      exists "", mid, post, w. now repeat split.
    + intros [pre [mid [post [w (Hw & Hs & Hci & Hpre & Hpost)]]]].
      destruct pre; [|discriminate]. left. split; [exact Hpre|]. now exists mid, post, w.
  - rewrite IH. split.
    + intros [[Hprev [mid [post [w (Hw & Hs & Hci & Hpost)]]]]
             | [pre [mid [post [w (Hw & Hs & Hci & Hpre & Hpost)]]]]].
      * exists "", mid, post, w. now repeat split.
      * exists (String c pre), mid, post, w. rewrite last_or_cons.
        repeat split; try assumption. cbn. now rewrite Hs.
    + intros [pre [mid [post [w (Hw & Hs & Hci & Hpre & Hpost)]]]].
      destruct pre as [|c' pre].
      * left. split; [exact Hpre|]. now exists mid, post, w.
      * right. cbn in Hs. injection Hs as <- ->. rewrite last_or_cons in Hpre.
        now exists pre, mid, post, w.
Qed.

(** The regular-expression test decides the specification's pattern. *)
Lemma booking_intent_spec (message : string) :
  booking_intent message = true <-> matches_booking_word message.
Proof.
  unfold booking_intent, matches_booking_word. rewrite test_from_spec.
  split; intros [pre [mid [post [w (Hw & Hs & Hci & Hpre & Hpost)]]]];
    exists pre, mid, post, w; repeat split; try assumption.
  - unfold last_or in Hpre. now destruct (last_unit pre).
  - unfold last_or. now destruct (last_unit pre).
Qed.

(** C6 (amended). The [booking] field of a chat response is present
    exactly when the message is no emergency, matches the booking-intent
    pattern (one of the words book, appointment, session, slot, in any mix
    of cases, between word boundaries), and the reply was generated by a
    provider (some provider is configured and [generateWithRotation]
    returned); it then carries [BOOKING_LINK].  The safety reply and the
    demo fallback never carry it. *)
Theorem booking_only_with_generated_reply
  (cfg : Config) (net : World) (message : string) (st : State) :
  let top := retrieveTopK (vectorStore st) message 3 in
  let prompt := buildPrompt top message in
  forall reply emergency booking,
    fst (fst (api_chat cfg net (Some message) st)) = ok (Chat reply emergency booking) ->
    (booking = Some (BOOKING_LINK cfg) \/ booking = None)
    /\ (booking <> None <->
        ~ mentions_emergency message
        /\ matches_booking_word message
        /\ providers cfg <> []
        /\ exists r st' calls,
             generateWithRotation cfg net prompt 3 st = (Returned r, st', calls)).
Proof.
  cbv zeta. intros reply emergency booking.
  rewrite <- booking_intent_spec, <- checkEmergency_spec. unfold api_chat.
  destruct (negb (JS.truthy message)); [discriminate|].
  destruct (checkEmergency message) eqn:Hem.
  - cbn [fst]. intros H. injection H as _ _ <-.
    split; [now right|]. split; [congruence | intros [H _]; now destruct H].
  - destruct (providers cfg) as [|p0 ps] eqn:E.
    + cbn [fst]. intros H. injection H as _ _ <-.
      split; [now right|]. split; [congruence | intros (_ & _ & H & _); congruence].
    + rewrite <- E.
      assert (Hne : providers cfg <> []) by (rewrite E; discriminate).
      destruct (generateWithRotation cfg net _ 3 st) as [[[r | e] st'] calls] eqn:G;
        cbn [fst]; intros H; injection H as _ _ <-.
      * destruct (booking_intent message) eqn:Hb.
        -- split; [now left|]. split; [|discriminate].
           intros _. split; [discriminate|]. split; [reflexivity|].
           split; [assumption|]. now exists r, st', calls.
        -- split; [now right|]. split; [congruence | intros (_ & H & _); discriminate].
      * split; [now right|]. split; [congruence|].
        intros (_ & _ & _ & r & s & c & H). discriminate.
Qed.

(* ----------------------------------------------------------------- *)
(** ** Indexing *)

Lemma filter_none {A : Type} (p : A -> bool) (l : list A) :
  (forall x, In x l -> p x = false) -> filter p l = [].
Proof.
  induction l as [|x l IH]; intros H; simpl; [reflexivity|].
  rewrite (H x (or_introl eq_refl)). apply IH. intros y Hy. apply H. now right.
Qed.

Lemma readDocs_missing (fs : FileSystem) (files : list string) (fn : string) :
  In fn files -> (forall c, root fs fn <> File c) -> readDocs fs files = None.
Proof.
  induction files as [|f files IH]; intros Hin Hno; [contradiction|].
  simpl. destruct Hin as [-> | Hin].
  - destruct (root fs fn) as [| |c] eqn:E; try reflexivity. now destruct (Hno c).
  - destruct (root fs f); try reflexivity. now rewrite (IH Hin Hno).
Qed.

Lemma readDocs_present (fs : FileSystem) (content : string -> string) (files : list string) :
  (forall fn, In fn files -> root fs fn = File (content fn)) ->
  readDocs fs files = Some (map (fun fn => {| id := fn; text := content fn |}) files).
Proof.
  induction files as [|f files IH]; intros H; simpl; [reflexivity|].
  rewrite (H f (or_introl eq_refl)), IH; [reflexivity|].
  intros fn Hin. apply H. now right.
Qed.

Lemma readDocs_length (fs : FileSystem) (files : list string) (ds : list Document) :
  readDocs fs files = Some ds -> List.length ds = List.length files.
Proof.
  revert ds; induction files as [|f files IH]; intros ds; simpl.
  - intros H. now injection H as <-.
  - destruct (root fs f); try discriminate.
    destruct (readDocs fs files) as [ds'|]; try discriminate.
    intros H. injection H as <-. simpl. now rewrite (IH ds').
Qed.

(** The two ways [api_index] can end: an error that leaves the store as it
    was, or a fresh store built from the documents read. *)
Lemma api_index_cases (fs : FileSystem) (store : VectorStore) :
  (exists code msg, (code = 400 \/ code = 500)
                    /\ api_index fs store = ({| status := code; body := Error msg |}, store))
  \/ (exists ds, ds <> []
                 /\ api_index fs store
                    = ({| status := 200; body := Indexed (List.length ds) |}, indexed_store ds)).
Proof.
  unfold api_index.
  destruct (discover fs) as [[|f files]|].
  - left. eexists _, _. split; [left; reflexivity | reflexivity].
  - destruct (readDocs fs (f :: files)) as [ds|] eqn:R.
    + right. exists ds. split.
      * apply readDocs_length in R. destruct ds; [discriminate | discriminate].
      * unfold indexed_store. cbn [docs]. now rewrite length_map.
    + left. eexists _, _. split; [right; reflexivity | reflexivity].
  - left. eexists _, _. split; [right; reflexivity | reflexivity].
Qed.

(** C5. When discovery yields no document, [/api/index] answers 400 with
    the 'No knowledge files found' error and the vector store (vocabulary
    and embedded documents) is exactly the one from before.  More
    generally, a request that does not answer 200 leaves the store as it
    was: a failure never clears a store built earlier. *)
Theorem index_without_documents_keeps_store (fs : FileSystem) (store : VectorStore) :
  (nothing_to_index fs ->
   api_index fs store
   = ({| status := 400;
         body := Error "No knowledge files found. Add .txt/.md to ./knowledge or place my_data.txt" |},
      store))
  /\ (status (fst (api_index fs store)) <> 200 -> snd (api_index fs store) = store).
Proof.
  split.
  - intros [Hk Hm]. unfold api_index, discover. rewrite Hm.
    destruct Hk as [-> | [names [-> Hnone]]]; [reflexivity|].
    now rewrite (filter_none _ _ Hnone).
  - destruct (api_index_cases fs store) as [(code & msg & _ & ->) | (ds & _ & ->)];
      [reflexivity | intros H; now destruct H].
Qed.

(** C7. The names discovered in the [knowledge] folder are read from the
    install directory itself.  If one of them has no readable file of
    that name there, [/api/index] answers 500 'index failed' and indexes
    nothing; if all of them do, the texts indexed are those of the install
    directory's files. *)
Theorem index_reads_from_install_directory
  (fs : FileSystem) (store : VectorStore) (names : list string) :
  knowledge fs = Dir names ->
  (forall fn, In fn names -> is_knowledge_file fn = true ->
              (forall c, root fs fn <> File c) ->
              api_index fs store = ({| status := 500; body := Error "index failed" |}, store))
  /\ (forall content,
        filter is_knowledge_file names <> [] ->
        (forall fn, In fn (filter is_knowledge_file names) -> root fs fn = File (content fn)) ->
        let ds := map (fun fn => {| id := fn; text := content fn |})
                    (filter is_knowledge_file names) in
        api_index fs store
        = ({| status := 200; body := Indexed (List.length ds) |}, indexed_store ds)).
Proof.
  intros Hk. split.
  - intros fn Hin Hext Hno. unfold api_index, discover. rewrite Hk.
    assert (Hf : In fn (filter is_knowledge_file names)) by (apply filter_In; now split).
    destruct (filter is_knowledge_file names) as [|f files] eqn:E; [contradiction|].
    now rewrite (readDocs_missing fs _ fn Hf Hno).
  - intros content Hne Hall. cbv zeta. unfold api_index, discover. rewrite Hk.
    destruct (filter is_knowledge_file names) as [|f files] eqn:E; [congruence|].
    rewrite (readDocs_present fs content _ Hall).
    unfold indexed_store. cbn [docs]. now rewrite length_map.
Qed.

Lemma tfvec_length (txt : string) (vocabulary : list string) :
  List.length (tfvec txt vocabulary) = List.length vocabulary.
Proof. unfold tfvec. apply length_map. Qed.

Lemma slice0_length {A : Type} (l : list A) (e : Z) :
  (0 <= e)%Z -> List.length (JS.slice0 l e) <= Z.to_nat e.
Proof.
  intros He. unfold JS.slice0.
  destruct (Z.ltb_spec e 0); [lia|].
  rewrite length_firstn. lia.
Qed.

Lemma buildVocab_length (ds : list Document) (maxV : Z) :
  (0 <= maxV)%Z -> List.length (buildVocab ds maxV) <= Z.to_nat maxV.
Proof. intros H. unfold buildVocab. now apply slice0_length. Qed.

Lemma indexed_store_ok (ds : list Document) : store_ok (indexed_store ds).
Proof.
  split; cbn [indexed_store vocab docs].
  - pose proof (buildVocab_length ds 400). lia.
  - apply Forall_forall. intros d Hd. apply in_map_iff in Hd as [x [<- _]].
    cbn [embed embedding etext]. split; [reflexivity | apply tfvec_length].
Qed.

Lemma api_index_ok (fs : FileSystem) (store : VectorStore) :
  store_ok store -> store_ok (snd (api_index fs store)).
Proof.
  intros Hok.
  destruct (api_index_cases fs store) as [(code & msg & _ & ->) | (ds & _ & ->)];
    [exact Hok | apply indexed_store_ok].
Qed.

Lemma store_after_app (disks : list FileSystem) (fs : FileSystem) :
  store_after (disks ++ [fs]) = snd (api_index fs (store_after disks)).
Proof. unfold store_after. now rewrite fold_left_app. Qed.

(** C10. After any series of indexing requests the vocabulary has at
    most 400 terms, and every embedding [tfvec] produces has exactly the
    length of the vocabulary it was computed over: that holds for the
    embedding of each stored document, which is the vector of its text
    over the store's current vocabulary, and for the embedding of any
    query against the store. *)
Theorem vocabulary_cap_and_embedding_lengths (disks : list FileSystem) :
  let store := store_after disks in
  List.length (vocab store) <= 400
  /\ Forall (fun d => embedding d = tfvec (etext d) (vocab store)
                      /\ List.length (embedding d) = List.length (vocab store))
       (docs store)
  /\ (forall query, List.length (tfvec query (vocab store)) = List.length (vocab store))
  /\ (forall txt vocabulary, List.length (tfvec txt vocabulary) = List.length vocabulary).
Proof.
  cbv zeta.
  assert (Hok : store_ok (store_after disks)).
  { induction disks as [|fs disks IH] using rev_ind.
    - split; [simpl; lia | constructor].
    - rewrite store_after_app. now apply api_index_ok. }
  destruct Hok as [Hcap Hall].
  repeat split; try assumption; intros; apply tfvec_length.
Qed.

(* ----------------------------------------------------------------- *)
(** ** [Array.prototype.sort] and [slice] *)

Section SortFacts.
Context {A : Type} (after : A -> A -> bool).

Lemma insert_perm (x : A) (l : list A) : Permutation (JS.insert after x l) (x :: l).
Proof.
  induction l as [|y l IH]; simpl; [reflexivity|].
  destruct (after x y); [|reflexivity].
  rewrite IH. apply perm_swap.
Qed.

Lemma sort_perm (l : list A) : Permutation (JS.sort after l) l.
Proof.
  induction l as [|x l IH]; simpl; [reflexivity|].
  rewrite insert_perm. now constructor.
Qed.

Lemma sort_length (l : list A) : List.length (JS.sort after l) = List.length l.
Proof. apply Permutation_length, sort_perm. Qed.

Lemma sort_In (l : list A) (x : A) : In x (JS.sort after l) <-> In x l.
Proof.
  split; apply Permutation_in; [apply sort_perm | apply Permutation_sym, sort_perm].
Qed.

(** Stability: elements that the comparator never puts after one another
    keep their relative order. *)
Lemma insert_tied (p : A -> bool) (x : A) (l : list A) :
  (forall b, In b l -> p x = true -> p b = true -> after x b = false) ->
  filter p (JS.insert after x l) = filter p (x :: l).
Proof.
  intros Htie. induction l as [|y l IH]; [reflexivity|].
  cbn [JS.insert]. destruct (after x y) eqn:Hxy; [|reflexivity].
  assert (IH' : filter p (JS.insert after x l) = filter p (x :: l))
    by (apply IH; intros b Hb; apply Htie; now right).
  cbn [filter] in *. destruct (p y) eqn:Hy.
  - rewrite IH'. destruct (p x) eqn:Hx; [|reflexivity].
    rewrite (Htie y (or_introl eq_refl) eq_refl Hy) in Hxy. discriminate.
  - exact IH'.
Qed.

Lemma sort_tied (p : A -> bool) (l : list A) :
  (forall a b, In a l -> In b l -> p a = true -> p b = true -> after a b = false) ->
  filter p (JS.sort after l) = filter p l.
Proof.
  intros Htie. induction l as [|x l IH]; [reflexivity|].
  cbn [JS.sort]. rewrite insert_tied.
  - cbn [filter]. rewrite IH; [reflexivity|]. intros a b Ha Hb. apply Htie; now right.
  - intros b Hb. apply Htie; [now left | right]. now apply (proj1 (sort_In l b)).
Qed.

(** Sortedness: on elements where the comparator is consistent
    (asymmetric, and transitive in its negation) no element of the result
    is followed, at any distance, by one the comparator puts before it. *)
Section Consistent.
Variable ok : A -> Prop.
Hypothesis asym : forall x y, ok x -> ok y -> after x y = true -> after y x = false.
Hypothesis trans : forall x y z, ok x -> ok y -> ok z ->
  after x y = false -> after y z = false -> after x z = false.

Lemma insert_sorted (x : A) (l : list A) :
  ok x -> Forall ok l ->
  StronglySorted (fun a b => after a b = false) l ->
  StronglySorted (fun a b => after a b = false) (JS.insert after x l).
Proof.
  intros Hx Hl Hs. induction l as [|y l IH]; simpl.
  - constructor; constructor.
  - inversion Hl as [|? ? Hy Hl']; subst. inversion Hs as [|? ? Hs' Hall]; subst.
    destruct (after x y) eqn:Hxy.
    + constructor; [now apply IH|].
      apply Forall_forall. intros z Hz.
      apply (Permutation_in _ (insert_perm x l)) in Hz. destruct Hz as [<- | Hz].
      * now apply asym.
      * rewrite Forall_forall in Hall. now apply Hall.
    + constructor; [assumption|]. constructor; [assumption|].
      rewrite Forall_forall in *. intros z Hz.
      apply (trans x y z); auto.
Qed.

Lemma sort_sorted (l : list A) :
  Forall ok l -> StronglySorted (fun a b => after a b = false) (JS.sort after l).
Proof.
  induction l as [|x l IH]; intros Hl; simpl; [constructor|].
  inversion Hl as [|? ? Hx Hl']; subst. apply insert_sorted.
  - exact Hx.
  - rewrite Forall_forall in *. intros z Hz. apply (proj1 (sort_In _ _)) in Hz. auto.
  - now apply IH.
Qed.

End Consistent.
End SortFacts.

Lemma slice0_firstn {A : Type} (l : list A) (e : Z) :
  (0 <= e)%Z -> JS.slice0 l e = firstn (Z.to_nat e) l.
Proof.
  intros He. unfold JS.slice0. destruct (Z.ltb_spec e 0); [lia|].
  destruct (Z.le_ge_cases e (Z.of_nat (List.length l))).
  - now rewrite Z.min_l.
  - rewrite Z.min_r, Nat2Z.id by assumption.
    rewrite !firstn_all2; [reflexivity | lia | lia].
Qed.

Lemma slice0_negative {A : Type} (l : list A) (e : Z) :
  (e < 0)%Z -> JS.slice0 l e = firstn (List.length l - Z.to_nat (- e)) l.
Proof.
  intros He. unfold JS.slice0. destruct (Z.ltb_spec e 0); [|lia].
  f_equal. lia.
Qed.

(* ----------------------------------------------------------------- *)
(** ** The frequency table of [buildVocab] *)

Lemma own_None (f : ftable) (k : string) : own f k = None <-> ~ In k (map fst f).
Proof.
  induction f as [|[k' v] f IH]; simpl; [tauto|].
  destruct (String.eqb_spec k' k) as [-> | Hne].
  - split; [discriminate | intros H; exfalso; apply H; now left].
  - rewrite IH. tauto.
Qed.

Lemma set_own_keys_old (f : ftable) (t : string) (v : jsvalue) :
  In t (map fst f) -> map fst (set_own f t v) = map fst f.
Proof.
  induction f as [|[k w] f IH]; simpl; [contradiction|].
  destruct (String.eqb_spec k t) as [-> | Hne]; [reflexivity|].
  intros [H | H]; [contradiction|]. simpl. now rewrite IH.
Qed.

Lemma set_own_keys_new (f : ftable) (t : string) (v : jsvalue) :
  ~ In t (map fst f) -> map fst (set_own f t v) = map fst f ++ [t].
Proof.
  induction f as [|[k w] f IH]; simpl; [reflexivity|].
  destruct (String.eqb_spec k t) as [-> | Hne]; [tauto|].
  intros H. simpl. rewrite IH; tauto.
Qed.

Lemma own_set_own (f : ftable) (t k : string) (v : jsvalue) :
  own (set_own f t v) k = if String.eqb t k then Some v else own f k.
Proof.
  induction f as [|[k' w] f IH]; simpl.
  - reflexivity.
  - destruct (String.eqb_spec k' t) as [-> | Hne]; simpl.
    + now destruct (String.eqb t k).
    + destruct (String.eqb_spec k' k) as [-> | Hne'].
      * destruct (String.eqb_spec t k); [congruence | reflexivity].
      * exact IH.
Qed.

Lemma first_seen_snoc (T : list string) (t : string) :
  first_seen (T ++ [t]) = if in_dec string_dec t T then first_seen T else first_seen T ++ [t].
Proof.
  unfold first_seen. rewrite rev_app_distr. cbn [rev app nodup].
  destruct (in_dec string_dec t (rev T)) as [Hin | Hout];
    destruct (in_dec string_dec t T) as [Hin' | Hout']; try reflexivity.
  - apply in_rev in Hin. contradiction.
  - apply in_rev in Hin'. contradiction.
Qed.

Lemma first_seen_In (T : list string) (t : string) : In t (first_seen T) <-> In t T.
Proof. unfold first_seen. now rewrite <- in_rev, nodup_In, <- in_rev. Qed.

Lemma first_seen_NoDup (T : list string) : NoDup (first_seen T).
Proof. unfold first_seen. apply NoDup_rev, NoDup_nodup. Qed.

Lemma table_terms_In (T : list string) (t : string) :
  In t (table_terms T) <-> In t T /\ t <> "__proto__".
Proof.
  unfold table_terms. rewrite filter_In, first_seen_In, negb_true_iff.
  destruct (String.eqb_spec t "__proto__"); intuition congruence.
Qed.

Lemma table_terms_NoDup (T : list string) : NoDup (table_terms T).
Proof. apply NoDup_filter, first_seen_NoDup. Qed.

Lemma table_terms_snoc (T : list string) (t : string) :
  table_terms (T ++ [t])
  = if String.eqb t "__proto__" then table_terms T
    else if in_dec string_dec t T then table_terms T
    else table_terms T ++ [t].
Proof.
  unfold table_terms. rewrite first_seen_snoc.
  destruct (in_dec string_dec t T).
  - now destruct (String.eqb t "__proto__").
  - rewrite filter_app. cbn [filter].
    destruct (String.eqb t "__proto__"); cbn [negb]; [apply app_nil_r | reflexivity].
Qed.

Lemma occurrences_snoc (T : list string) (t k : string) :
  occurrences (T ++ [t]) k = occurrences T k + (if String.eqb t k then 1 else 0).
Proof.
  unfold occurrences. rewrite count_occ_app. f_equal. simpl.
  destruct (string_dec t k) as [-> | Hne].
  - now rewrite String.eqb_refl.
  - destruct (String.eqb_spec t k); [contradiction | reflexivity].
Qed.

Lemma tabulate_fold (ds : list Document) : tabulate ds = fold_left bump (all_toks ds) [].
Proof.
  unfold tabulate, all_toks. generalize (@nil (string * jsvalue)) as f.
  induction ds as [|d ds IH]; intros f; simpl; [reflexivity|].
  now rewrite fold_left_app, IH.
Qed.

Lemma bump_eq (f : ftable) (t : string) :
  bump f t = if String.eqb t "__proto__" then f else set_own f t (or0_plus1 (get f t)).
Proof. reflexivity. Qed.

(** The keys of the table are the terms met so far, in the order of their
    first occurrence. *)
Lemma table_keys (T : list string) : map fst (fold_left bump T []) = table_terms T.
Proof.
  induction T as [|t T IH] using rev_ind; [reflexivity|].
  rewrite fold_left_app, table_terms_snoc. cbn [fold_left]. rewrite bump_eq.
  destruct (String.eqb_spec t "__proto__") as [-> | Hproto]; [exact IH|].
  destruct (in_dec string_dec t T) as [Hin | Hout].
  - rewrite set_own_keys_old; [exact IH|].
    rewrite IH. apply table_terms_In. now split.
  - rewrite set_own_keys_new; [now rewrite IH|].
    rewrite IH, table_terms_In. tauto.
Qed.

(** The value under a key is the number of occurrences of the term, as
    long as the word [constructor] has not been met. *)
Lemma table_values (T : list string) (k : string) :
  ~ In "constructor" T -> In k (table_terms T) ->
  own (fold_left bump T []) k = Some (Num (Z.of_nat (occurrences T k))).
Proof.
  induction T as [|t T IH] using rev_ind; intros Hc Hk; [contradiction|].
  assert (Hc' : ~ In "constructor" T) by (intros H; apply Hc, in_or_app; now left).
  assert (Ht : t <> "constructor") by (intros ->; apply Hc, in_or_app; right; now left).
  rewrite fold_left_app, occurrences_snoc. cbn [fold_left]. rewrite bump_eq.
  rewrite table_terms_snoc in Hk.
  destruct (String.eqb_spec t "__proto__") as [-> | Hproto].
  - rewrite (IH Hc' Hk). apply table_terms_In in Hk as [_ Hk].
    destruct (String.eqb_spec "__proto__" k); [congruence|]. now rewrite Nat.add_0_r.
  - rewrite own_set_own. destruct (String.eqb_spec t k) as [-> | Hne].
    + unfold get. destruct (in_dec string_dec k T) as [Hin | Hout].
      * rewrite (IH Hc' Hk). cbn [or0_plus1].
        destruct (Z.eqb_spec (Z.of_nat (occurrences T k)) 0) as [E | E].
        -- do 2 f_equal. lia.
        -- do 2 f_equal. lia.
      * assert (Hnone : own (fold_left bump T []) k = None).
        { apply own_None. rewrite table_keys, table_terms_In. tauto. }
        rewrite Hnone.
        destruct (String.eqb_spec k "constructor"); [contradiction|].
        destruct (String.eqb_spec k "__proto__"); [contradiction|].
        cbn [or0_plus1]. do 2 f_equal.
        unfold occurrences. rewrite (proj1 (count_occ_not_In string_dec T k) Hout). reflexivity.
    + rewrite Nat.add_0_r. apply IH; [assumption|].
      destruct (in_dec string_dec t T); [assumption|].
      apply in_app_or in Hk as [Hk | [Hk | []]]; [assumption | contradiction].
Qed.

(** *** The order of [Object.keys] *)

Lemma filter_split_perm {A : Type} (p : A -> bool) (l : list A) :
  Permutation (filter (fun x => negb (p x)) l ++ filter p l) l.
Proof.
  induction l as [|x l IH]; simpl; [reflexivity|].
  destruct (p x); simpl.
  - apply Permutation_sym, Permutation_cons_app, Permutation_sym, IH.
  - now constructor.
Qed.

Lemma index_keys_snd (ks : list string) :
  map snd (index_keys ks) = filter (fun k => negb (is_named k)) ks.
Proof.
  unfold index_keys, is_named. induction ks as [|k ks IH]; simpl; [reflexivity|].
  destruct (JS.array_index k); simpl; now rewrite IH.
Qed.

Lemma index_keys_value (ks : list string) (p : N * string) :
  In p (index_keys ks) -> fst p = index_value (snd p).
Proof.
  unfold index_keys. rewrite in_flat_map. intros [k [_ H]].
  unfold index_value. destruct (JS.array_index k) as [n|] eqn:E; [|contradiction].
  destruct H as [<- | []]. simpl. now rewrite E.
Qed.

Lemma StronglySorted_map {A B : Type} (R : B -> B -> Prop) (f : A -> B) (l : list A) :
  StronglySorted (fun a b => R (f a) (f b)) l -> StronglySorted R (map f l).
Proof.
  induction 1 as [|x l Hs IH Hall]; simpl; constructor; [assumption|].
  rewrite Forall_map. exact Hall.
Qed.

Lemma StronglySorted_weaken {A : Type} (R R' : A -> A -> Prop) (l : list A) :
  (forall a b, In a l -> In b l -> R a b -> R' a b) ->
  StronglySorted R l -> StronglySorted R' l.
Proof.
  intros Himp Hs. induction Hs as [|x l Hs IH Hall]; constructor.
  - apply IH. intros a b Ha Hb. apply Himp; now right.
  - rewrite Forall_forall in *. intros y Hy. apply Himp; [now left | now right | auto].
Qed.

(** The array indices come first, by ascending value; the named keys
    follow as they stand. *)
Lemma own_keys_order_shape (ks : list string) :
  exists idx,
    own_keys_order ks = idx ++ filter is_named ks
    /\ Permutation idx (filter (fun k => negb (is_named k)) ks)
    /\ StronglySorted (fun a b => (index_value a <= index_value b)%N) idx.
Proof.
  exists (map snd (JS.sort index_after (index_keys ks))). split; [reflexivity|]. split.
  - rewrite <- index_keys_snd. apply Permutation_map, sort_perm.
  - apply StronglySorted_map.
    apply StronglySorted_weaken with (R := fun a b => index_after a b = false).
    + intros a b Ha Hb. apply (proj1 (sort_In _ _ _)) in Ha, Hb.
      rewrite <- (index_keys_value ks a Ha), <- (index_keys_value ks b Hb).
      unfold index_after. rewrite N.ltb_ge. tauto.
    + apply (sort_sorted index_after (fun _ => True)).
      * intros x y _ _. unfold index_after. rewrite N.ltb_lt, N.ltb_ge. lia.
      * intros x y z _ _ _. unfold index_after. rewrite !N.ltb_ge. lia.
      * apply Forall_forall. trivial.
Qed.

Lemma own_keys_order_perm (ks : list string) : Permutation (own_keys_order ks) ks.
Proof.
  destruct (own_keys_order_shape ks) as [idx [-> [Hp _]]].
  rewrite Hp. apply filter_split_perm.
Qed.

Lemma own_keys_order_named (ks : list string) :
  (forall k, In k ks -> is_named k = true) -> own_keys_order ks = ks.
Proof.
  intros H. unfold own_keys_order.
  assert (Hi : index_keys ks = []).
  { unfold index_keys. induction ks as [|k ks IH]; [reflexivity|]. simpl.
    pose proof (H k (or_introl eq_refl)) as Hk. unfold is_named in Hk.
    destruct (JS.array_index k); [discriminate|]. apply IH. intros; apply H; now right. }
  rewrite Hi. simpl. clear Hi.
  induction ks as [|k ks IH]; [reflexivity|]. simpl.
  rewrite (H k (or_introl eq_refl)). f_equal. apply IH. intros; apply H; now right.
Qed.

(** *** The comparator of [buildVocab] *)

Lemma get_term (T : list string) (k : string) :
  ~ In "constructor" T -> In k (table_terms T) ->
  get (fold_left bump T []) k = Num (Z.of_nat (occurrences T k)).
Proof. intros Hc Hk. unfold get. now rewrite (table_values T k Hc Hk). Qed.

Lemma get_other (T : list string) (k : string) :
  ~ In k (table_terms T) -> forall n, get (fold_left bump T []) k <> Num n.
Proof.
  intros Hk n. unfold get.
  rewrite (proj2 (own_None _ k)) by now rewrite table_keys.
  destruct (String.eqb k "constructor"); [discriminate|].
  destruct (String.eqb k "__proto__"); discriminate.
Qed.

Lemma count_after_terms (T : list string) (a b : string) :
  ~ In "constructor" T -> In a (table_terms T) -> In b (table_terms T) ->
  count_after (fold_left bump T []) a b = (occurrences T a <? occurrences T b)%nat.
Proof.
  intros Hc Ha Hb. unfold count_after. rewrite (get_term T a Hc Ha), (get_term T b Hc Hb).
  destruct (Nat.ltb_spec (occurrences T a) (occurrences T b)).
  - apply Z.ltb_lt. lia.
  - apply Z.ltb_ge. lia.
Qed.

Lemma count_after_tied (T : list string) (a b : string) :
  ~ In "constructor" T -> occurrences T a = occurrences T b ->
  count_after (fold_left bump T []) a b = false.
Proof.
  intros Hc Heq.
  destruct (in_dec string_dec a (table_terms T)) as [Ha | Ha];
    destruct (in_dec string_dec b (table_terms T)) as [Hb | Hb].
  - rewrite (count_after_terms T a b Hc Ha Hb), Heq. apply Nat.ltb_irrefl.
  - unfold count_after. pose proof (get_other T b Hb) as H.
    destruct (get _ b) as [|n| | |]; try reflexivity. now destruct (H n).
  - unfold count_after. pose proof (get_other T a Ha) as H.
    destruct (get _ b) as [|m| | |]; try reflexivity.
    destruct (get _ a) as [|n| | |]; try reflexivity. now destruct (H n).
  - unfold count_after. pose proof (get_other T b Hb) as H.
    destruct (get _ b) as [|n| | |]; try reflexivity. now destruct (H n).
Qed.

Lemma insert_ext {A : Type} (after after' : A -> A -> bool) (x : A) (l : list A) :
  (forall b, In b l -> after x b = after' x b) ->
  JS.insert after x l = JS.insert after' x l.
Proof.
  induction l as [|y l IH]; intros H; [reflexivity|]. cbn [JS.insert].
  rewrite <- (H y (or_introl eq_refl)).
  rewrite IH by (intros; apply H; now right). reflexivity.
Qed.

Lemma sort_ext {A : Type} (after after' : A -> A -> bool) (l : list A) :
  (forall a b, In a l -> In b l -> after a b = after' a b) ->
  JS.sort after l = JS.sort after' l.
Proof.
  induction l as [|x l IH]; intros H; [reflexivity|]. cbn [JS.sort].
  rewrite <- IH by (intros; apply H; now right).
  apply insert_ext. intros b Hb.
  apply H; [now left | right; now apply (proj1 (sort_In after l b))].
Qed.

Lemma filter_all {A : Type} (p : A -> bool) (l : list A) :
  (forall x, In x l -> p x = true) -> filter p l = l.
Proof.
  induction l as [|x l IH]; intros H; simpl; [reflexivity|].
  rewrite (H x (or_introl eq_refl)). f_equal. apply IH. intros; apply H; now right.
Qed.

(** C8 (amended). [buildVocab] returns the first [maxVocab] entries of a
    ranking of all distinct terms other than [__proto__].  When the word
    [constructor] is not among the tokens, the ranking is by descending
    total count, and terms of equal count stand in the key order of the
    frequency table: first the terms that are array indices (canonical
    decimal integers up to 2^32 - 2), by ascending numeric value, then the
    other terms in first-encountered order.  When moreover no token is an
    array index or [__proto__], that is the ranking the specification
    describes. *)
Theorem buildVocab_ranks_terms (ds : list Document) (maxVocab : nat) :
  let T := all_toks ds in
  exists ranked,
    buildVocab ds (Z.of_nat maxVocab) = firstn maxVocab ranked
    /\ NoDup ranked
    /\ (forall t, In t ranked <-> In t T /\ t <> "__proto__")
    /\ (exists idx,
          own_keys_order (table_terms T) = idx ++ filter is_named (table_terms T)
          /\ Permutation idx (filter (fun k => negb (is_named k)) (table_terms T))
          /\ StronglySorted (fun a b => (index_value a <= index_value b)%N) idx)
    /\ (~ In "constructor" T ->
        StronglySorted (fun a b => occurrences T b <= occurrences T a) ranked
        /\ (forall c, filter (with_count T c) ranked
                      = filter (with_count T c) (own_keys_order (table_terms T)))
        /\ ((forall t, In t T -> is_named t = true /\ t <> "__proto__") ->
            buildVocab ds (Z.of_nat maxVocab) = buildVocab_spec ds maxVocab)).
Proof.
  cbv zeta. set (T := all_toks ds).
  set (f := fold_left bump T []).
  assert (Hf : tabulate ds = f) by apply tabulate_fold.
  assert (Hkeys : Object_keys f = own_keys_order (table_terms T)).
  { unfold Object_keys, f. now rewrite table_keys. }
  exists (JS.sort (count_after f) (Object_keys f)).
  assert (Hperm : Permutation (JS.sort (count_after f) (Object_keys f)) (table_terms T)).
  { rewrite sort_perm, Hkeys. apply own_keys_order_perm. }
  split; [|split; [|split; [|split]]].
  - unfold buildVocab. rewrite Hf, slice0_firstn by lia. now rewrite Nat2Z.id.
  - apply (Permutation_NoDup (Permutation_sym Hperm)), table_terms_NoDup.
  - intros t. rewrite <- table_terms_In. split; apply Permutation_in;
      [exact Hperm | apply Permutation_sym, Hperm].
  - apply own_keys_order_shape.
  - intros Hc. split; [|split].
    + apply StronglySorted_weaken with (R := fun a b => count_after f a b = false).
      * intros a b Ha Hb. apply (Permutation_in _ Hperm) in Ha, Hb.
        unfold f. rewrite (count_after_terms T a b Hc Ha Hb), Nat.ltb_ge. tauto.
      * apply (sort_sorted (count_after f) (fun k => In k (table_terms T))).
        -- intros x y Hx Hy. unfold f.
           rewrite (count_after_terms T x y Hc Hx Hy), (count_after_terms T y x Hc Hy Hx).
           rewrite Nat.ltb_lt, Nat.ltb_ge. lia.
        -- intros x y z Hx Hy Hz. unfold f.
           rewrite (count_after_terms T x y Hc Hx Hy), (count_after_terms T y z Hc Hy Hz),
             (count_after_terms T x z Hc Hx Hz).
           rewrite !Nat.ltb_ge. lia.
        -- apply Forall_forall. intros k Hk. rewrite Hkeys in Hk.
           apply (Permutation_in _ (own_keys_order_perm _) Hk).
    + intros c. rewrite <- Hkeys. apply sort_tied.
      intros a b _ _ Ha Hb. unfold with_count in *. apply Nat.eqb_eq in Ha, Hb.
      apply count_after_tied; [assumption | congruence].
    + intros Hnamed. unfold buildVocab, buildVocab_spec. fold T.
      rewrite Hf, slice0_firstn by lia. rewrite Nat2Z.id. f_equal.
      assert (Hterms : table_terms T = first_seen T).
      { unfold table_terms. apply filter_all. intros t Ht.
        apply (proj1 (first_seen_In T t)) in Ht.
        destruct (Hnamed t Ht) as [_ Hp]. apply negb_true_iff.
        now destruct (String.eqb_spec t "__proto__"). }
      rewrite Hkeys, own_keys_order_named.
      * rewrite Hterms. apply sort_ext. intros a b Ha Hb.
        rewrite <- Hterms in Ha, Hb. apply (count_after_terms T a b Hc Ha Hb).
      * intros k Hk. apply table_terms_In in Hk as [Hk _]. now apply Hnamed.
Qed.

(* ----------------------------------------------------------------- *)
(** ** Doubles: the sign of a difference

    The comparator of [retrieveTopK] subtracts two scores and [sort] looks
    at the sign of the result.  For finite doubles that sign is the sign
    of the exact difference: the subtraction is computed exactly at the
    smaller exponent and rounding never takes a non-zero value to zero.
    The section works in the specification format ([spec_float]); the
    primitive operations are tied to it by the standard library. *)

Local Open Scope Z_scope.

Section SignOfDifference.
Variables prec emax : Z.
Hypothesis prec_pos : 0 < prec.

Abbreviation emin := (SpecFloat.emin prec emax).
Abbreviation fexp := (SpecFloat.fexp prec emax).

Lemma digits2_bounds (m : positive) :
  2 ^ (Zpos (digits2_pos m) - 1) <= Zpos m < 2 ^ Zpos (digits2_pos m).
Proof.
  induction m as [m IH | m IH |]; cbn [digits2_pos].
  - rewrite Pos2Z.inj_succ.
    replace (Z.succ (Zpos (digits2_pos m)) - 1) with (Z.succ (Zpos (digits2_pos m) - 1)) by lia.
    rewrite !Z.pow_succ_r by lia. lia.
  - rewrite Pos2Z.inj_succ.
    replace (Z.succ (Zpos (digits2_pos m)) - 1) with (Z.succ (Zpos (digits2_pos m) - 1)) by lia.
    rewrite !Z.pow_succ_r by lia. lia.
  - simpl. lia.
Qed.

Lemma shr_1_m (r : shr_record) : 0 <= shr_m r -> shr_m (shr_1 r) = shr_m r / 2.
Proof.
  destruct r as [m a b]. cbn [shr_m]. intros Hm. unfold shr_1.
  destruct m as [|[p|p|]|p]; cbn [shr_m].
  - reflexivity.
  - rewrite Pos2Z.inj_xI. apply Z.div_unique with (r := 1); lia.
  - rewrite Pos2Z.inj_xO. apply Z.div_unique with (r := 0); lia.
  - reflexivity.
  - lia.
Qed.

Lemma iter_shr_1_m (p : positive) :
  forall r, 0 <= shr_m r -> shr_m (iter_pos shr_1 p r) = shr_m r / 2 ^ Zpos p.
Proof.
  induction p as [p IH | p IH |]; intros r Hr; cbn [iter_pos].
  - assert (H1 : 0 <= shr_m (shr_1 r)) by (rewrite shr_1_m by assumption; apply Z.div_pos; lia).
    assert (H2 : 0 <= shr_m (iter_pos shr_1 p (shr_1 r)))
      by (rewrite IH by assumption; apply Z.div_pos; [lia | apply Z.pow_pos_nonneg; lia]).
    rewrite IH, IH, shr_1_m by assumption.
    rewrite !Z.div_div by (try apply Z.pow_pos_nonneg; lia).
    f_equal. rewrite (Pos2Z.inj_xI p). rewrite Z.pow_add_r by lia.
    rewrite Z.pow_twice_r, Z.pow_1_r. ring.
  - assert (H2 : 0 <= shr_m (iter_pos shr_1 p r))
      by (rewrite IH by assumption; apply Z.div_pos; [lia | apply Z.pow_pos_nonneg; lia]).
    rewrite IH, IH by assumption.
    rewrite !Z.div_div by (try apply Z.pow_pos_nonneg; lia).
    f_equal. rewrite (Pos2Z.inj_xO p), Z.pow_twice_r. ring.
  - rewrite shr_1_m by assumption. reflexivity.
Qed.

Lemma shr_record_of_loc_m (m : Z) (l : location) : shr_m (shr_record_of_loc m l) = m.
Proof. destruct l as [|[| |]]; reflexivity. Qed.

(** Shifting a positive mantissa to its canonical exponent leaves it positive. *)
Lemma shr_fexp_pos (m e : Z) (l : location) :
  0 < m -> emin <= e ->
  0 < shr_m (fst (shr_fexp prec emax m e l)) /\ emin <= snd (shr_fexp prec emax m e l).
Proof.
  intros Hm He. unfold shr_fexp, shr.
  destruct m as [|p|p]; try lia. cbn [Zdigits2].
  destruct (fexp (Zpos (digits2_pos p) + e) - e) as [|n|n] eqn:En; cbn [fst snd].
  - rewrite shr_record_of_loc_m. lia.
  - rewrite iter_shr_1_m by (rewrite shr_record_of_loc_m; lia).
    rewrite shr_record_of_loc_m. split; [|lia].
    unfold SpecFloat.fexp in En.
    assert (Hn : Zpos n = Zpos (digits2_pos p) - prec) by lia.
    pose proof (digits2_bounds p) as [Hlo _].
    apply Z.div_str_pos. split; [apply Z.pow_pos_nonneg; lia|].
    eapply Z.le_trans; [|exact Hlo]. apply Z.pow_le_mono_r; lia.
  - rewrite shr_record_of_loc_m. lia.
Qed.

Lemma round_nearest_even_ge (m : Z) (l : location) : m <= round_nearest_even m l.
Proof. destruct l as [|[| |]]; cbn [round_nearest_even]; try lia. destruct (Z.even m); lia. Qed.

(** Rounding a positive mantissa with an exponent not below [emin] never
    underflows to zero: the result is a finite number or an infinity of
    the sign asked for. *)
Lemma binary_round_aux_sign (sx : bool) (m e : Z) (l : location) :
  0 < m -> emin <= e ->
  (exists m' e', binary_round_aux prec emax sx m e l = S754_finite sx m' e')
  \/ binary_round_aux prec emax sx m e l = S754_infinity sx.
Proof.
  intros Hm He. unfold binary_round_aux.
  pose proof (shr_fexp_pos m e l Hm He) as [H1 H1e].
  destruct (shr_fexp prec emax m e l) as [mrs' e'] eqn:E1. cbn [fst snd] in *.
  set (m2 := round_nearest_even (shr_m mrs') (loc_of_shr_record mrs')).
  assert (Hm2 : 0 < m2) by (pose proof (round_nearest_even_ge (shr_m mrs') (loc_of_shr_record mrs')); lia).
  pose proof (shr_fexp_pos m2 e' loc_Exact Hm2 H1e) as [H2 _].
  destruct (shr_fexp prec emax m2 e' loc_Exact) as [mrs'' e''] eqn:E2. cbn [fst snd] in *.
  destruct (shr_m mrs'') as [|q|q]; try lia.
  destruct (e'' <=? emax - prec); [left; now eexists _, _ | now right].
Qed.

Lemma shl_align_fst (mx : positive) (ex ez : Z) :
  ez <= ex -> Zpos (fst (shl_align mx ex ez)) = Zpos mx * 2 ^ (ex - ez).
Proof.
  intros H. unfold shl_align.
  destruct (ez - ex) as [|d|d] eqn:E; cbn [fst]; try lia.
  - replace (ex - ez) with 0 by lia. lia.
  - fold (shift_pos d mx). rewrite shift_pos_correct, Zpower_pos_nat, Zpower_nat_Z.
    rewrite positive_nat_Z. replace (ex - ez) with (Zpos d) by lia. lia.
Qed.

Lemma binary_round_sign (sx : bool) (mx : positive) (ex : Z) :
  emin <= ex ->
  (exists m' e', binary_round prec emax sx mx ex = S754_finite sx m' e')
  \/ binary_round prec emax sx mx ex = S754_infinity sx.
Proof.
  intros He. unfold binary_round.
  destruct (shl_align mx ex (fexp (Zpos (digits2_pos mx) + ex))) as [mz ez] eqn:E.
  apply binary_round_aux_sign; [lia|].
  unfold shl_align in E.
  destruct (fexp (Zpos (digits2_pos mx) + ex) - ex) as [|d|d] eqn:Ed;
    injection E as <- <-; try assumption.
  unfold SpecFloat.fexp. lia.
Qed.

Lemma bounded_canonical (m : positive) (e : Z) :
  bounded prec emax m e = true ->
  emin <= e /\ Zpos (digits2_pos m) <= prec /\ (emin < e -> Zpos (digits2_pos m) = prec).
Proof.
  unfold bounded, canonical_mantissa, SpecFloat.fexp.
  rewrite andb_true_iff, Z.eqb_eq. lia.
Qed.

Lemma pow2_pos (z : Z) : 0 <= z -> 0 < 2 ^ z.
Proof. intros. apply Z.pow_pos_nonneg; lia. Qed.

(** Of two canonical numbers the one with the larger exponent is larger. *)
Lemma key_lt_exponent (m1 m2 : positive) (e1 e2 : Z) :
  bounded prec emax m1 e1 = true -> bounded prec emax m2 e2 = true -> e1 < e2 ->
  Zpos m1 * 2 ^ (e1 - emin) < Zpos m2 * 2 ^ (e2 - emin).
Proof.
  intros H1 H2 Hlt.
  apply bounded_canonical in H1 as (He1 & Hd1 & _).
  apply bounded_canonical in H2 as (He2 & _ & Hd2).
  pose proof (digits2_bounds m1) as [_ Hu1]. pose proof (digits2_bounds m2) as [Hl2 _].
  rewrite Hd2 in Hl2 by lia.
  assert (Hm1 : Zpos m1 < 2 ^ prec).
  { eapply Z.lt_le_trans; [exact Hu1|]. apply Z.pow_le_mono_r; lia. }
  replace (e2 - emin) with ((e1 - emin) + (e2 - e1)) by lia.
  rewrite Z.pow_add_r by lia.
  pose proof (pow2_pos (e1 - emin) ltac:(lia)) as HA.
  assert (HB : 2 ^ 1 <= 2 ^ (e2 - e1)) by (apply Z.pow_le_mono_r; lia).
  rewrite Z.pow_1_r in HB.
  assert (HP : 2 ^ prec = 2 * 2 ^ (prec - 1)).
  { replace prec with ((prec - 1) + 1) at 1 by lia. rewrite Z.pow_add_r, Z.pow_1_r by lia. ring. }
  rewrite HP in Hm1. clear HP.
  pose proof (pow2_pos (prec - 1) ltac:(lia)) as HQ.
  set (A := 2 ^ (e1 - emin)) in *. set (B := 2 ^ (e2 - e1)) in *.
  set (Q := 2 ^ (prec - 1)) in *.
  apply Z.lt_le_trans with (2 * Q * A).
  - apply Z.mul_lt_mono_pos_r; assumption.
  - apply Z.le_trans with (Q * (A * B)).
    + replace (2 * Q * A) with (Q * (A * 2)) by ring.
      apply Z.mul_le_mono_nonneg_l; [lia|]. apply Z.mul_le_mono_nonneg_l; lia.
    + apply Z.mul_le_mono_nonneg_r; [|assumption]. apply Z.mul_nonneg_nonneg; lia.
Qed.

Lemma scaled_compare (m1 m2 : positive) (A : Z) :
  0 < A ->
  (Zpos m1 * A ?= Zpos m2 * A) = Pos.compare_cont Eq m1 m2
  /\ (- (Zpos m1 * A) ?= - (Zpos m2 * A)) = CompOpp (Pos.compare_cont Eq m1 m2).
Proof.
  intros HA. change (Pos.compare_cont Eq m1 m2) with (m1 ?= m2)%positive.
  destruct (Pos.compare_spec m1 m2) as [E | E | E]; cbn [CompOpp].
  - subst. now rewrite !Z.compare_refl.
  - split; [apply Z.compare_lt_iff | apply Z.compare_gt_iff]; nia.
  - split; [apply Z.compare_gt_iff | apply Z.compare_lt_iff]; nia.
Qed.

Lemma SFcompare_key (x y : spec_float) :
  SpecFloat.valid_binary prec emax x = true -> SpecFloat.valid_binary prec emax y = true ->
  SFfinite x = true -> SFfinite y = true ->
  SFcompare x y = Some (SFkey emin x ?= SFkey emin y).
Proof.
  intros Vx Vy Fx Fy.
  destruct x as [sx| | |sx mx ex]; try discriminate;
    destruct y as [sy| | |sy my ey]; try discriminate; cbn [SFcompare SFkey].
  - reflexivity.
  - apply bounded_canonical in Vy as (He & _).
    pose proof (pow2_pos (ey - emin) ltac:(lia)).
    destruct sy; cbn [SpecFloat.cond_Zopp]; f_equal; symmetry;
      [apply Z.compare_gt_iff | apply Z.compare_lt_iff]; nia.
  - apply bounded_canonical in Vx as (He & _).
    pose proof (pow2_pos (ex - emin) ltac:(lia)).
    destruct sx; cbn [SpecFloat.cond_Zopp]; f_equal; symmetry;
      [apply Z.compare_lt_iff | apply Z.compare_gt_iff]; nia.
  - cbn [SpecFloat.valid_binary] in Vx, Vy.
    pose proof (bounded_canonical _ _ Vx) as (Hex & _).
    pose proof (bounded_canonical _ _ Vy) as (Hey & _).
    pose proof (pow2_pos (ex - emin) ltac:(lia)) as Px.
    pose proof (pow2_pos (ey - emin) ltac:(lia)) as Py.
    destruct sx, sy; cbn [SpecFloat.cond_Zopp]; f_equal; symmetry.
    + destruct (Z.compare_spec ex ey) as [E | E | E].
      * subst ey. apply (scaled_compare mx my _ Px).
      * apply Z.compare_gt_iff. pose proof (key_lt_exponent _ _ _ _ Vx Vy E). lia.
      * apply Z.compare_lt_iff. pose proof (key_lt_exponent _ _ _ _ Vy Vx E). lia.
    + apply Z.compare_lt_iff. nia.
    + apply Z.compare_gt_iff. nia.
    + destruct (Z.compare_spec ex ey) as [E | E | E].
      * subst ey. apply (scaled_compare mx my _ Px).
      * apply Z.compare_lt_iff. apply (key_lt_exponent _ _ _ _ Vx Vy E).
      * apply Z.compare_gt_iff. apply (key_lt_exponent _ _ _ _ Vy Vx E).
Qed.

Lemma binary_normalize_sign (m e : Z) :
  emin <= e ->
  SFcompare (S754_zero false) (binary_normalize prec emax m e false) = Some (0 ?= m).
Proof.
  intros He. destruct m as [|p|p]; cbn [binary_normalize].
  - reflexivity.
  - destruct (binary_round_sign false p e He) as [(m' & e' & ->) | ->]; reflexivity.
  - destruct (binary_round_sign true p e He) as [(m' & e' & ->) | ->]; reflexivity.
Qed.

(** The sign of a computed difference is the sign of the exact one:
    a difference of two different numbers never rounds to zero. *)
Lemma SFsub_sign (x y : spec_float) :
  SpecFloat.valid_binary prec emax x = true -> SpecFloat.valid_binary prec emax y = true ->
  SFfinite x = true -> SFfinite y = true ->
  SFcompare (S754_zero false) (SFsub prec emax x y)
  = Some (0 ?= SFkey emin x - SFkey emin y).
Proof.
  intros Vx Vy Fx Fy.
  destruct x as [sx| | |sx mx ex]; try discriminate;
    destruct y as [sy| | |sy my ey]; try discriminate; cbn [SFsub SFkey].
  - now destruct sx, sy.
  - apply bounded_canonical in Vy as (He & _).
    pose proof (pow2_pos (ey - emin) ltac:(lia)).
    cbn [SFcompare]. f_equal. symmetry.
    destruct sy; cbn [negb SpecFloat.cond_Zopp];
      [apply Z.compare_lt_iff | apply Z.compare_gt_iff]; nia.
  - apply bounded_canonical in Vx as (He & _).
    pose proof (pow2_pos (ex - emin) ltac:(lia)).
    cbn [SFcompare]. f_equal. symmetry.
    destruct sx; cbn [SpecFloat.cond_Zopp];
      [apply Z.compare_gt_iff | apply Z.compare_lt_iff]; nia.
  - cbn [SpecFloat.valid_binary] in Vx, Vy.
    pose proof (bounded_canonical _ _ Vx) as (Hex & _).
    pose proof (bounded_canonical _ _ Vy) as (Hey & _).
    cbv zeta. rewrite binary_normalize_sign by lia. f_equal.
    rewrite !shl_align_fst by lia.
    set (ez := Z.min ex ey).
    pose proof (pow2_pos (ez - emin) ltac:(lia)) as Pz.
    replace (ex - emin) with ((ex - ez) + (ez - emin)) by lia.
    replace (ey - emin) with ((ey - ez) + (ez - emin)) by lia.
    rewrite !Z.pow_add_r by lia.
    set (X := Zpos mx * 2 ^ (ex - ez)). set (Y := Zpos my * 2 ^ (ey - ez)).
    replace (SpecFloat.cond_Zopp sx (Zpos mx * (2 ^ (ex - ez) * 2 ^ (ez - emin))))
      with (SpecFloat.cond_Zopp sx X * 2 ^ (ez - emin))
      by (unfold X; destruct sx; cbn [SpecFloat.cond_Zopp]; ring).
    replace (SpecFloat.cond_Zopp sy (Zpos my * (2 ^ (ey - ez) * 2 ^ (ez - emin))))
      with (SpecFloat.cond_Zopp sy Y * 2 ^ (ez - emin))
      by (unfold Y; destruct sy; cbn [SpecFloat.cond_Zopp]; ring).
    set (D := SpecFloat.cond_Zopp sx X - SpecFloat.cond_Zopp sy Y).
    replace (SpecFloat.cond_Zopp sx X * 2 ^ (ez - emin) - SpecFloat.cond_Zopp sy Y * 2 ^ (ez - emin))
      with (D * 2 ^ (ez - emin)) by (unfold D; ring).
    destruct (Z.compare_spec 0 D) as [E | E | E]; symmetry.
    + rewrite <- E. reflexivity.
    + apply Z.compare_lt_iff. nia.
    + apply Z.compare_gt_iff. nia.
Qed.

End SignOfDifference.

Lemma is_finite_SF (x : float) : is_finite x = true -> SFfinite (Prim2SF x) = true.
Proof.
  unfold is_finite, is_nan, is_infinity.
  rewrite negb_true_iff, orb_false_iff, negb_false_iff, !eqb_spec, abs_spec.
  intros [Hnan Hinf].
  destruct (Prim2SF x) as [s|s| |s m e]; try reflexivity.
  - change (Prim2SF infinity) with (S754_infinity false) in Hinf. discriminate.
  - discriminate.
Qed.

Section Binary64.
Variables a b : float.
Hypothesis finite_a : is_finite a = true.
Hypothesis finite_b : is_finite b = true.

Lemma compare_fkey : SFcompare (Prim2SF a) (Prim2SF b) = Some (fkey a ?= fkey b)%Z.
Proof.
  apply SFcompare_key; try apply Prim2SF_valid; try reflexivity; now apply is_finite_SF.
Qed.

Lemma ltb_fkey : (a <? b)%float = (fkey a <? fkey b)%Z.
Proof. rewrite ltb_spec. unfold SFltb. rewrite compare_fkey. reflexivity. Qed.

Lemma leb_fkey : (a <=? b)%float = (fkey a <=? fkey b)%Z.
Proof.
  rewrite leb_spec. unfold SFleb. rewrite compare_fkey. unfold Z.leb.
  now destruct (fkey a ?= fkey b)%Z.
Qed.

Lemma eqb_fkey : (a =? b)%float = (fkey a =? fkey b)%Z.
Proof.
  rewrite eqb_spec. unfold SFeqb. rewrite compare_fkey.
  destruct (Z.compare_spec (fkey a) (fkey b)); destruct (Z.eqb_spec (fkey a) (fkey b));
    try reflexivity; lia.
Qed.

Lemma sub_positive_fkey : (0 <? b - a)%float = (fkey a <? fkey b)%Z.
Proof.
  rewrite ltb_spec, sub_spec. change (Prim2SF 0) with (S754_zero false).
  unfold SFltb, SF64sub. rewrite SFsub_sign;
    try apply Prim2SF_valid; try reflexivity; try (now apply is_finite_SF).
  fold (fkey a). fold (fkey b). unfold Z.ltb.
  destruct (Z.compare_spec 0 (fkey b - fkey a)); destruct (Z.compare_spec (fkey a) (fkey b));
    try reflexivity; lia.
Qed.

End Binary64.

Local Close Scope Z_scope.

(* ----------------------------------------------------------------- *)
(** ** Retrieval *)

Lemma retrieveTopK_eq (store : VectorStore) (query : string) (k : Z) :
  retrieveTopK store query k
  = map fst (JS.slice0 (JS.sort score_after (scored store query)) k).
Proof.
  unfold retrieveTopK, scored. destruct (docs store); [|reflexivity].
  unfold JS.slice0. simpl. now rewrite firstn_nil.
Qed.

Lemma scored_length (store : VectorStore) (query : string) :
  List.length (scored store query) = List.length (docs store).
Proof. unfold scored. apply length_map. Qed.

Lemma score_after_fkey (a b : EmbeddedDocument * float) :
  is_finite (snd a) = true -> is_finite (snd b) = true ->
  score_after a b = (fkey (snd a) <? fkey (snd b))%Z.
Proof. intros Ha Hb. unfold score_after. now apply sub_positive_fkey. Qed.

(** C3 (amended). [retrieveTopK] cuts a ranking of the stored documents,
    a rearrangement of them with their scores.  When the similarity
    scores against the query are numbers (no NaN, no infinity), the ranking
    is by non-increasing cosine similarity and documents of equal score
    keep their storage order.  For [k >= 0] the result is the first [k]
    documents of the ranking, hence at most [k]; for [k < 0] it is the
    ranking without its last [-k] documents.  The result is empty when the
    store holds no document or [k = 0]. *)
Theorem retrieveTopK_ranks_documents (store : VectorStore) (query : string) :
  exists ranked,
    Permutation ranked (scored store query)
    /\ (finite_scores store query ->
        StronglySorted (fun a b => (snd b <=? snd a)%float = true) ranked
        /\ (forall s, is_finite s = true ->
              filter (with_score s) ranked = filter (with_score s) (scored store query)))
    /\ (forall k, (0 <= k)%Z ->
          retrieveTopK store query k = firstn (Z.to_nat k) (map fst ranked)
          /\ List.length (retrieveTopK store query k) <= Z.to_nat k)
    /\ (forall k, (k < 0)%Z ->
          retrieveTopK store query k
          = firstn (List.length (docs store) - Z.to_nat (- k)) (map fst ranked))
    /\ (forall k, docs store = [] \/ k = 0%Z -> retrieveTopK store query k = []).
Proof.
  exists (JS.sort score_after (scored store query)).
  split; [apply sort_perm|]. split; [|split; [|split]].
  - intros Hfin. unfold finite_scores in Hfin.
    assert (Hin : forall p, In p (JS.sort score_after (scored store query)) ->
                            is_finite (snd p) = true).
    { intros p Hp. rewrite Forall_forall in Hfin. apply Hfin.
      now apply (proj1 (sort_In score_after _ _)). }
    split.
    + apply StronglySorted_weaken with (R := fun a b => score_after a b = false).
      * intros a b Ha Hb. rewrite (score_after_fkey a b (Hin a Ha) (Hin b Hb)).
        rewrite (leb_fkey _ _ (Hin b Hb) (Hin a Ha)), Z.ltb_ge, Z.leb_le. tauto.
      * apply (sort_sorted score_after (fun p => is_finite (snd p) = true)).
        -- intros x y Hx Hy.
           rewrite (score_after_fkey x y Hx Hy), (score_after_fkey y x Hy Hx).
           rewrite Z.ltb_lt, Z.ltb_ge. lia.
        -- intros x y z Hx Hy Hz.
           rewrite (score_after_fkey x y Hx Hy), (score_after_fkey y z Hy Hz),
             (score_after_fkey x z Hx Hz).
           rewrite !Z.ltb_ge. lia.
        -- exact Hfin.
    + intros s Hs. apply sort_tied. intros a b Ha Hb. unfold with_score.
      rewrite Forall_forall in Hfin.
      pose proof (Hfin a Ha) as Fa. pose proof (Hfin b Hb) as Fb.
      rewrite (eqb_fkey _ _ Fa Hs), (eqb_fkey _ _ Fb Hs), (score_after_fkey a b Fa Fb).
      rewrite !Z.eqb_eq, Z.ltb_ge. lia.
  - intros k Hk. rewrite retrieveTopK_eq, slice0_firstn by assumption.
    rewrite firstn_map. split; [reflexivity|].
    rewrite length_map, length_firstn. lia.
  - intros k Hk. rewrite retrieveTopK_eq, slice0_negative by assumption.
    now rewrite sort_length, scored_length, firstn_map.
  - intros k [Hnil | ->].
    + unfold retrieveTopK. now rewrite Hnil.
    + rewrite retrieveTopK_eq, slice0_firstn by lia. reflexivity.
Qed.

(* ================================================================= *)
(** * The statements at concrete inputs *)

Lemma emergency_bypass_witness :
  mentions_emergency "I want to die"
  /\ api_chat sample_cfg answering (Some "I want to die") sample_state
     = (ok (Chat safety true None), sample_state, []).
Proof.
  assert (H : mentions_emergency "I want to die").
  { exists "i want to die", "", "". split; [simpl; tauto | reflexivity]. }
  split; [exact H|].
  exact (emergency_bypasses_retrieval_and_generation sample_cfg answering _ sample_state H).
Defined.

(** Two providers, both failing, and a budget of 3: a second chat request
    draws a provider while the first request of the invocation is pending.
    The invocation then draws the provider it has tried, skips it, and
    throws after one request, not two. *)
Lemma overlapping_request_cuts_rotation :
  (forall t p, In p (providers sample_cfg) -> exists e, failing t p "hello" = Threw e)
  /\ Interleaved.generateWithRotation sample_cfg failing "hello" one_draw 3 sample_state
     = (Threw "HF error: 503",
        {| providerIndex := 3; vectorStore := sample_store; sent := 2 |},
        [(0, google)])
  /\ List.length [(0, google)] <> Nat.min 3 (List.length (providers sample_cfg)).
Proof.
  split; [intros; now eexists|]. split; [reflexivity|]. vm_compute. discriminate.
Qed.

(** The same overlap, with a healthy provider configured: the invocation
    never reaches it. *)
Lemma overlapping_request_hides_healthy_provider :
  Interleaved.generateWithRotation sample_cfg google_down "hello" one_draw 3 sample_state
  = (Threw "Google error: 500",
     {| providerIndex := 3; vectorStore := sample_store; sent := 2 |},
     [(0, google)])
  /\ google_down 1 huggingface "hello" = Returned "ok".
Proof. split; reflexivity. Qed.

Lemma rotation_tries_witness :
  (forall t p, In p (providers sample_cfg) -> exists e, failing t p "hello" = Threw e)
  /\ exists e st' log,
       Interleaved.generateWithRotation sample_cfg failing "hello" one_draw 3 sample_state
       = (Threw e, st', log)
       /\ List.length log <= 2
       /\ NoDup (map snd log).
Proof.
  assert (H : forall t p, In p (providers sample_cfg) ->
                          exists e, failing t p "hello" = Threw e)
    by (intros; now eexists).
  split; [exact H|].
  destruct (rotation_tries_distinct_providers sample_cfg failing "hello" one_draw 3
              sample_state H)
    as (e & st' & log & Hg & Hlen & _ & Hnd & _).
  exists e, st', log. split; [exact Hg|]. split; [exact Hlen | exact Hnd].
Defined.

Lemma sample_scores_finite : finite_scores sample_store "sleep".
Proof.
  unfold finite_scores. apply Forall_forall. intros p Hp.
  vm_compute in Hp. destruct Hp as [<- | [<- | []]]; reflexivity.
Qed.

Lemma retrieveTopK_ranks_witness :
  finite_scores sample_store "sleep"
  /\ exists ranked,
       Permutation ranked (scored sample_store "sleep")
       /\ StronglySorted (fun a b => (snd b <=? snd a)%float = true) ranked
       /\ retrieveTopK sample_store "sleep" 1 = firstn 1 (map fst ranked).
Proof.
  split; [exact sample_scores_finite|].
  destruct (retrieveTopK_ranks_documents sample_store "sleep")
    as (ranked & Hperm & Hsorted & Hk & _).
  exists ranked. split; [exact Hperm|].
  split; [exact (proj1 (Hsorted sample_scores_finite))|].
  exact (proj1 (Hk 1%Z ltac:(discriminate))).
Defined.

(** C3, as stated, fails for a negative [k]: against a store of two
    documents [k = -1] returns one document, not none (and not at most
    [k]). *)
Lemma retrieveTopK_negative_k :
  (-1 <= 0)%Z
  /\ List.length (docs sample_store) = 2
  /\ map eid (retrieveTopK sample_store "sleep" (-1)) = ["b.md"]
  /\ retrieveTopK sample_store "sleep" (-1) <> [].
Proof.
  split; [discriminate|]. split; [reflexivity|]. split; [vm_compute; reflexivity|].
  vm_compute. discriminate.
Qed.

Lemma chat_always_replies_witness :
  "hello" <> ""
  /\ exists reply emergency booking,
       fst (fst (api_chat sample_cfg failing (Some "hello") sample_state))
       = ok (Chat reply emergency booking).
Proof.
  assert (H : "hello" <> "") by discriminate.
  split; [exact H|].
  destruct (chat_always_replies sample_cfg failing "hello" sample_state H)
    as (r & e & b & Hr & _).
  now exists r, e, b.
Defined.

Lemma index_without_documents_witness :
  nothing_to_index empty_disk
  /\ sample_store <> initialStore
  /\ api_index empty_disk sample_store
     = ({| status := 400;
           body := Error "No knowledge files found. Add .txt/.md to ./knowledge or place my_data.txt" |},
        sample_store).
Proof.
  assert (H : nothing_to_index empty_disk) by (split; [now left | reflexivity]).
  split; [exact H|]. split; [vm_compute; discriminate|].
  exact (proj1 (index_without_documents_keeps_store empty_disk sample_store) H).
Defined.

Lemma booking_with_generated_reply_witness :
  fst (fst (api_chat sample_cfg answering (Some "I'd like to book a session") sample_state))
  = ok (Chat "I hear you." false (Some "https://example.org/book"))
  /\ ~ mentions_emergency "I'd like to book a session"
  /\ matches_booking_word "I'd like to book a session".
Proof.
  assert (H : fst (fst (api_chat sample_cfg answering
                          (Some "I'd like to book a session") sample_state))
              = ok (Chat "I hear you." false (Some "https://example.org/book")))
    by (vm_compute; reflexivity).
  split; [exact H|].
  destruct (booking_only_with_generated_reply sample_cfg answering
              "I'd like to book a session" sample_state _ _ _ H) as [_ Hiff].
  destruct (proj1 Hiff ltac:(discriminate)) as (He & Hb & _).
  split; [exact He | exact Hb].
Defined.

(** C6, as stated, fails on the fallback path: with no provider
    configured a message that is no emergency and matches the
    booking-intent pattern is answered by the demo reply, without a
    [booking] field. *)
Lemma booking_absent_from_fallback :
  ~ mentions_emergency "I'd like to book a session"
  /\ matches_booking_word "I'd like to book a session"
  /\ fst (fst (api_chat bare_cfg answering (Some "I'd like to book a session") sample_state))
     = ok (Chat "[DEMO] I hear you said: 'I'd like to book a session'. Retrieved docs: a.txt, b.md."
             false None).
Proof.
  split; [|split].
  - rewrite <- checkEmergency_spec. vm_compute. discriminate.
  - apply booking_intent_spec. vm_compute. reflexivity.
  - vm_compute. reflexivity.
Qed.

Lemma index_reads_root_witness :
  knowledge misplaced_disk = Dir ["a.txt"]
  /\ api_index misplaced_disk sample_store
     = ({| status := 500; body := Error "index failed" |}, sample_store).
Proof.
  split; [reflexivity|].
  apply (proj1 (index_reads_from_install_directory misplaced_disk sample_store ["a.txt"]
                  eq_refl) "a.txt"); [now left | reflexivity | discriminate].
Defined.

Lemma buildVocab_ranks_witness :
  ~ In "constructor" (all_toks sample_docs)
  /\ exists ranked,
       buildVocab sample_docs (Z.of_nat 2) = firstn 2 ranked
       /\ NoDup ranked
       /\ StronglySorted
            (fun a b => occurrences (all_toks sample_docs) b
                        <= occurrences (all_toks sample_docs) a) ranked.
Proof.
  assert (H : ~ In "constructor" (all_toks sample_docs))
    by (vm_compute; intuition discriminate).
  split; [exact H|].
  destruct (buildVocab_ranks_terms sample_docs 2) as (ranked & Hb & Hnd & _ & _ & Hs).
  exists ranked. split; [exact Hb|]. split; [exact Hnd | exact (proj1 (Hs H))].
Defined.

(** C8, as stated, fails when a term is an array index: in ["b 7"] both
    terms occur once and [b] comes first, yet the vocabulary lists [7]
    first. *)
Lemma buildVocab_number_before_word :
  all_toks numbered_docs = ["b"; "7"]
  /\ occurrences (all_toks numbered_docs) "b" = occurrences (all_toks numbered_docs) "7"
  /\ buildVocab numbered_docs 400 = ["7"; "b"]
  /\ buildVocab_spec numbered_docs 400 = ["b"; "7"]
  /\ buildVocab numbered_docs 400 <> buildVocab_spec numbered_docs 400.
Proof.
  split; [reflexivity|]. split; [reflexivity|]. split; [vm_compute; reflexivity|].
  split; [vm_compute; reflexivity|]. vm_compute. discriminate.
Qed.

Lemma cursor_rotation_witness :
  providers sample_cfg <> []
  /\ exists st',
       generateWithRotation sample_cfg answering "first" 3 sample_state
       = (Returned "  I hear you.  ", st', [google])
       /\ hd_error (snd (generateWithRotation sample_cfg answering "second" 3 st'))
          = Some huggingface.
Proof.
  assert (H : providers sample_cfg <> []) by discriminate.
  split; [exact H|].
  destruct (cursor_rotates_across_calls sample_cfg) as (_ & _ & _ & _ & Hrot).
  destruct (Hrot answering "first" "second" 2 2 sample_state "  I hear you.  " H eq_refl)
    as (st' & Hg & _ & Hnext & _).
  exists st'. split; [exact Hg | exact Hnext].
Defined.

(* ================================================================= *)
(** * Further properties of the handlers *)

Lemma attempts_store (cfg : Config) (net : World) (prompt : string) (r : nat) :
  forall tried lastErr st calls,
    vectorStore (snd (fst (attempts cfg net prompt r tried lastErr st calls)))
    = vectorStore st.
Proof.
  induction r as [|r IH]; intros tried lastErr st calls; cbn [attempts]; [reflexivity|].
  destruct (getNextProvider cfg (providerIndex st)) as [[p|] next].
  - destruct (existsb _ tried); [now rewrite IH|].
    destruct (net (sent st) p prompt); [reflexivity | now rewrite IH].
  - now rewrite IH.
Qed.

(** X1. A chat request never touches the vector store: whatever the
    message and the providers do, the store after the request is the store
    before it. *)
Theorem chat_leaves_store (cfg : Config) (net : World) (req : option string) (st : State) :
  vectorStore (snd (fst (api_chat cfg net req st))) = vectorStore st.
Proof.
  unfold api_chat.
  destruct (negb _); [reflexivity|].
  destruct (checkEmergency _); [reflexivity|].
  destruct (providers cfg) as [|p0 ps] eqn:E; [reflexivity|].
  pose proof (attempts_store cfg net
    (buildPrompt
       (retrieveTopK (vectorStore st) match req with Some m => m | None => "" end 3)
       match req with Some m => m | None => "" end)
    (Nat.min 3 (List.length (providers cfg))) [] None st []) as H.
  unfold generateWithRotation. rewrite E in *.
  destruct (attempts _ _ _ _ _ _ _ _) as [[[reply | e] st'] calls]; exact H.
Qed.

(** The loop when the next [j] providers fail and the one after them
    answers. *)
(** X2. Fail-over, when no other request draws from the rotation while
    the invocation waits: if the providers under the next [j] cursors fail
    and the provider under the cursor after them answers, within the
    attempt budget, [generateWithRotation] returns that answer; it has
    requested exactly those [j + 1] providers, in rotation order, and the
    cursor and the request counter have advanced by [j + 1]. *)
Theorem failover_returns_first_answer
  (cfg : Config) (net : World) (prompt reply : string) (others : Others)
  (maxTries j : nat) (st : State) :
  undisturbed others ->
  j < Nat.min maxTries (List.length (providers cfg)) ->
  (forall i, i < j ->
     exists e, net (sent st + i) (selected cfg (providerIndex st + i)) prompt = Threw e) ->
  net (sent st + j) (selected cfg (providerIndex st + j)) prompt = Returned reply ->
  exists st' log,
    Interleaved.generateWithRotation cfg net prompt others maxTries st
    = (Returned reply, st', log)
    /\ map snd log = map (selected cfg) (seq (providerIndex st) (S j))
    /\ map fst log = seq (sent st) (S j)
    /\ providerIndex st' = providerIndex st + S j
    /\ sent st' = sent st + S j.
Proof.
  intros Hq Hj Hfail Hok.
  destruct (generateWithRotation_undisturbed cfg net prompt others Hq maxTries st)
    as (n & out & st' & log & Hrun & Hfst & Hsnd & Hi & Hs & Hn & Hexp).
  assert (E : out = Returned reply /\ n = S j).
  { destruct out as [reply' | e]; cbn [explains] in Hexp.
    - destruct Hexp as (j' & -> & Hfail' & Hok').
      destruct (Nat.lt_trichotomy j j') as [Hlt | [<- | Hlt]].
      + destruct (Hfail' j Hlt) as [e He]. unfold failed in *. congruence.
      + split; congruence.
      + destruct (Hfail j' Hlt) as [e He]. congruence.
    - destruct Hexp as [-> Hfail']. destruct (Hfail' j Hj) as [e' He']. congruence. }
  destruct E as [-> ->]. exists st', log. repeat split; assumption.
Qed.

Lemma failover_witness :
  exists st' log,
    Interleaved.generateWithRotation sample_cfg google_down "hello" alone 3 sample_state
    = (Returned "ok", st', log)
    /\ map snd log = [google; huggingface].
Proof.
  destruct (failover_returns_first_answer sample_cfg google_down
              "hello" "ok" alone 3 1 sample_state)
    as (st' & log & Hrun & Hsnd & _).
  - intros k st. split; reflexivity.
  - vm_compute. lia.
  - intros i Hi. assert (i = 0) as -> by lia. now eexists.
  - reflexivity.
  - exists st', log. split; [exact Hrun | exact Hsnd].
Defined.

(* ----------------------------------------------------------------- *)
(** ** The tokenizer *)

Lemma toLowerUnit_lower (c : ascii) : lower_unit (JS.toLowerUnit c) = true.
Proof. destruct c as [[] [] [] [] [] [] [] []]; reflexivity. Qed.

Lemma toLowerCase_lower (s : string) : all_units lower_unit (JS.toLowerCase s) = true.
Proof.
  induction s as [|c s IH]; [reflexivity|]. cbn [JS.toLowerCase all_units].
  now rewrite toLowerUnit_lower, IH.
Qed.

Lemma all_units_app (p : ascii -> bool) (a b : string) :
  all_units p (a +++ b) = all_units p a && all_units p b.
Proof.
  induction a as [|c a IH]; [reflexivity|]. cbn [String.append all_units].
  now rewrite IH, andb_assoc.
Qed.

Lemma split_nonword_pieces (p : ascii -> bool) (s : string) :
  forall cur sep,
    all_units (fun c => JS.isWordChar c && p c) cur = true ->
    all_units p s = true ->
    Forall (fun t => all_units (fun c => JS.isWordChar c && p c) t = true)
      (JS.split_nonword cur sep s).
Proof.
  induction s as [|c s IH]; intros cur sep Hcur Hs; cbn [JS.split_nonword].
  - now constructor.
  - cbn [all_units] in Hs. apply andb_true_iff in Hs as [Hc Hs].
    destruct (JS.isWordChar c) eqn:Hw.
    + apply IH; [|assumption]. rewrite all_units_app, Hcur. cbn [all_units].
      now rewrite Hw, Hc.
    + destruct sep; [now apply IH|]. constructor; [assumption | now apply IH].
Qed.

Lemma lower_units_fixed (t : string) :
  all_units lower_unit t = true -> JS.toLowerCase t = t.
Proof.
  induction t as [|c t IH]; [reflexivity|]. cbn [all_units JS.toLowerCase].
  rewrite andb_true_iff. intros [Hc Ht]. rewrite (IH Ht). f_equal.
  now apply Ascii.eqb_eq.
Qed.

Lemma all_units_weaken (p q : ascii -> bool) (t : string) :
  (forall c, p c = true -> q c = true) -> all_units p t = true -> all_units q t = true.
Proof.
  intros H. induction t as [|c t IH]; [reflexivity|]. cbn [all_units].
  rewrite !andb_true_iff. intros [Hc Ht]. split; [now apply H | now apply IH].
Qed.

(** X3. Every token [toks] yields is non-empty, consists of lower-case
    word units ([a-z0-9_]) only, and is its own lower case; the empty text
    has no tokens. *)
Theorem toks_are_lowercase_words (s t : string) :
  In t (toks s) ->
  t <> "" /\ all_units token_unit t = true /\ JS.toLowerCase t = t /\ toks "" = [].
Proof.
  unfold toks at 1. rewrite filter_In. intros [Hin Htruthy].
  pose proof (split_nonword_pieces lower_unit (JS.toLowerCase s) "" false eq_refl
                (toLowerCase_lower s)) as Hall.
  rewrite Forall_forall in Hall. specialize (Hall t Hin).
  split; [destruct t; discriminate|]. split; [exact Hall|]. split; [|reflexivity].
  apply lower_units_fixed. revert Hall. apply all_units_weaken.
  intros c Hc. now apply andb_true_iff in Hc as [_ Hc].
Qed.

Lemma toks_witness :
  In "world" (toks "Hello, World!")
  /\ all_units token_unit "world" = true.
Proof.
  assert (H : In "world" (toks "Hello, World!")) by (vm_compute; tauto).
  split; [exact H|].
  exact (proj1 (proj2 (toks_are_lowercase_words "Hello, World!" "world" H))).
Defined.

Lemma filter_count (t : list string) (w : string) :
  List.length (filter (fun x => String.eqb x w) t) = occurrences t w.
Proof.
  unfold occurrences. induction t as [|x t IH]; [reflexivity|]. cbn [filter count_occ].
  destruct (string_dec x w) as [E | E].
  - rewrite (proj2 (String.eqb_eq x w) E). cbn [List.length]. now rewrite IH.
  - rewrite (proj2 (String.eqb_neq x w) E). exact IH.
Qed.

(* ----------------------------------------------------------------- *)
(** ** The rotation, whatever the providers do *)

(** X4. One invocation of [generateWithRotation], whatever the providers
    and the other requests do: it sends at most [min(maxTries,
    providers.length)] requests, to configured providers no two of which
    are equal, the first of them to the provider under the cursor.  It
    returns a reply exactly when the last of these requests was answered,
    all the earlier ones having failed; when it throws, every request it
    sent has failed.  When no other request draws from the rotation while
    the invocation waits, the [n] requests go to the providers under the
    next [n] cursors, the cursor and the request counter advance by
    exactly [n], and the invocation throws only after [min(maxTries,
    providers.length)] failed requests. *)
Theorem rotation_trace
  (cfg : Config) (net : World) (prompt : string) (others : Others)
  (maxTries : nat) (st : State) :
  let budget := Nat.min maxTries (List.length (providers cfg)) in
  exists out st' log,
    Interleaved.generateWithRotation cfg net prompt others maxTries st = (out, st', log)
    /\ List.length log <= budget
    /\ NoDup (map snd log)
    /\ (forall p, In p (map snd log) -> In p (providers cfg))
    /\ (budget <> 0 -> exists rest, log = (sent st, selected cfg (providerIndex st)) :: rest)
    /\ match out with
       | Returned reply =>
           exists earlier t p,
             log = earlier ++ [(t, p)]
             /\ Forall (request_failed net prompt) earlier
             /\ net t p prompt = Returned reply
       | Threw _ => Forall (request_failed net prompt) log
       end
    /\ (undisturbed others ->
        map snd log = map (selected cfg) (seq (providerIndex st) (List.length log))
        /\ map fst log = seq (sent st) (List.length log)
        /\ providerIndex st' = providerIndex st + List.length log
        /\ sent st' = sent st + List.length log
        /\ (forall e, out = Threw e -> List.length log = budget)).
Proof.
  cbv zeta.
  destruct (generateWithRotation_among cfg net prompt others maxTries st)
    as (out & st' & log & Hrun & Hlen & Hfirst & Hnd & Hin & _ & Hout).
  exists out, st', log. split; [exact Hrun|]. split; [exact Hlen|]. split; [exact Hnd|].
  split; [exact Hin|]. split; [exact Hfirst|]. split.
  { destruct out; [exact Hout | exact (proj1 Hout)]. }
  intros Hq.
  destruct (generateWithRotation_undisturbed cfg net prompt others Hq maxTries st)
    as (n & out2 & st2 & log2 & Hrun2 & Hfst & Hsnd & Hi & Hs & Hn & Hexp).
  rewrite Hrun in Hrun2. injection Hrun2 as <- <- <-.
  assert (Hl : List.length log = n)
    by now rewrite <- (length_map snd), Hsnd, length_map, length_seq.
  rewrite Hl. do 4 (split; [assumption|]).
  intros e ->. exact (proj1 Hexp).
Qed.

Lemma provider_calls_app (a b : list Event) :
  provider_calls (a ++ b) = provider_calls a ++ provider_calls b.
Proof. unfold provider_calls. apply flat_map_app. Qed.

Lemma provider_calls_map (calls : list Provider) (prompt : string) :
  provider_calls (map (fun p => ProviderCall p prompt) calls) = calls.
Proof. induction calls as [|p l IH]; [reflexivity|]. cbn. now f_equal. Qed.

Lemma api_chat_trace (cfg : Config) (net : World) (req : option string) (st : State) :
  exists n,
    n <= Nat.min 3 (List.length (providers cfg))
    /\ snd (fst (api_chat cfg net req st)) = advanced st n
    /\ provider_calls (snd (api_chat cfg net req st))
       = map (selected cfg) (seq (providerIndex st) n).
Proof.
  unfold api_chat.
  destruct (negb _); [exists 0; rewrite advanced_0; repeat split; lia|].
  destruct (checkEmergency _); [exists 0; rewrite advanced_0; repeat split; lia|].
  set (prompt := buildPrompt _ _).
  destruct (generateWithRotation_trace cfg net prompt 3 st) as (n & out & Hrun & Hn & _).
  destruct (providers cfg) as [|p0 ps] eqn:E;
    [exists 0; rewrite advanced_0; repeat split; cbn; lia|].
  rewrite Hrun. exists n.
  destruct out; cbn [fst snd provider_calls flat_map app];
    fold (provider_calls (map (fun p => ProviderCall p prompt)
                            (map (selected cfg) (seq (providerIndex st) n))));
    rewrite provider_calls_map; repeat split; assumption.
Qed.

Lemma advanced_advanced (st : State) (n m : nat) :
  advanced (advanced st n) m = advanced st (n + m).
Proof. unfold advanced. cbn. f_equal; lia. Qed.

Lemma serve_trace (cfg : Config) (net : World) (rs : list Request) :
  forall st, exists n,
    providerIndex (snd (fst (serve cfg net rs st))) = providerIndex st + n
    /\ sent (snd (fst (serve cfg net rs st))) = sent st + n
    /\ provider_calls (snd (serve cfg net rs st))
       = map (selected cfg) (seq (providerIndex st) n)
    /\ n <= Nat.min 3 (List.length (providers cfg)) * List.length rs.
Proof.
  induction rs as [|r rs IH]; intros st.
  - exists 0. cbn. repeat split; lia.
  - cbn [serve].
    assert (H1 : exists n1,
               n1 <= Nat.min 3 (List.length (providers cfg))
               /\ providerIndex (snd (fst (handle cfg net r st))) = providerIndex st + n1
               /\ sent (snd (fst (handle cfg net r st))) = sent st + n1
               /\ provider_calls (snd (handle cfg net r st))
                  = map (selected cfg) (seq (providerIndex st) n1)).
    { destruct r as [message | fs]; cbn [handle].
      - destruct (api_chat_trace cfg net message st) as (n1 & Hn & -> & ->).
        exists n1. repeat split; assumption.
      - exists 0. unfold handle_index. destruct (api_index fs (vectorStore st)).
        cbn. repeat split; lia. }
    destruct H1 as (n1 & Hn1 & Hp1 & Hs1 & Hc1).
    destruct (handle cfg net r st) as [[resp st1] evs1]. cbn [fst snd] in *.
    destruct (IH st1) as (n2 & Hp2 & Hs2 & Hc2 & Hn2).
    destruct (serve cfg net rs st1) as [[resps st2] evs2]. cbn [fst snd] in *.
    exists (n1 + n2). rewrite provider_calls_app, Hc1, Hc2, Hp1, Hp2, Hs2, Hs1.
    split; [lia|]. split; [lia|]. split; [now rewrite seq_app, map_app|].
    cbn [List.length]. rewrite Nat.mul_succ_r. lia.
Qed.

(** X5. Over any series of chat and index requests served one after the
    other from start-up, the cursor equals the number of provider requests
    sent, request number [t] of the process goes to
    [providers[t % providers.length]], and the series costs at most
    [min(3, providers.length)] provider requests per request served. *)
Theorem requests_rotate_evenly (cfg : Config) (net : World) (rs : list Request) :
  let st := snd (fst (serve cfg net rs initialState)) in
  providerIndex st = sent st
  /\ provider_calls (snd (serve cfg net rs initialState))
     = map (selected cfg) (seq 0 (sent st))
  /\ sent st <= Nat.min 3 (List.length (providers cfg)) * List.length rs.
Proof.
  cbv zeta. destruct (serve_trace cfg net rs initialState) as (n & Hp & Hs & Hc & Hn).
  cbn [initialState providerIndex sent] in *. rewrite Hp, Hs, Hc.
  rewrite !Nat.add_0_l. split; [reflexivity|]. split; [reflexivity | exact Hn].
Qed.

Lemma attempts_same_replies (cfg : Config) (net1 net2 : World) (prompt : string) :
  same_replies net1 net2 ->
  forall r tried lastErr1 lastErr2 st calls,
    same_reply (fst (fst (attempts cfg net1 prompt r tried lastErr1 st calls)))
               (fst (fst (attempts cfg net2 prompt r tried lastErr2 st calls)))
    /\ snd (fst (attempts cfg net1 prompt r tried lastErr1 st calls))
       = snd (fst (attempts cfg net2 prompt r tried lastErr2 st calls))
    /\ snd (attempts cfg net1 prompt r tried lastErr1 st calls)
       = snd (attempts cfg net2 prompt r tried lastErr2 st calls).
Proof.
  intros Hsame. induction r as [|r IH]; intros tried e1 e2 st calls; cbn [attempts].
  - cbn. repeat split.
  - destruct (getNextProvider cfg (providerIndex st)) as [[p|] next]; [|apply IH].
    destruct (existsb (Provider_eqb p) tried); [apply IH|].
    pose proof (Hsame (sent st) p prompt) as H.
    destruct (net1 (sent st) p prompt) as [x|x]; destruct (net2 (sent st) p prompt) as [y|y];
      cbn in H; try contradiction.
    + subst y. cbn. repeat split.
    + apply IH.
Qed.

(** X6. The errors of the providers stay inside the server: when two
    worlds give the same replies and fail on the same requests, whatever
    the error messages are, a chat request gets the same response, leaves
    the same state and makes the same provider requests in both. *)
Theorem provider_errors_stay_internal
  (cfg : Config) (net1 net2 : World) (req : option string) (st : State) :
  same_replies net1 net2 ->
  api_chat cfg net1 req st = api_chat cfg net2 req st.
Proof.
  intros Hsame. unfold api_chat.
  destruct (negb _); [reflexivity|]. destruct (checkEmergency _); [reflexivity|].
  set (message := match req with Some m => m | None => "" end).
  set (top := retrieveTopK (vectorStore st) message 3).
  unfold generateWithRotation.
  destruct (providers cfg) as [|p0 ps] eqn:E; [reflexivity|]. rewrite <- E.
  destruct (attempts_same_replies cfg net1 net2 (buildPrompt top message) Hsame
              (Nat.min 3 (List.length (providers cfg))) [] None None st [])
    as (Ho & Hs & Hc).
  destruct (attempts cfg net1 _ _ _ _ _ _) as [[o1 s1] c1].
  destruct (attempts cfg net2 _ _ _ _ _ _) as [[o2 s2] c2].
  cbn [fst snd] in *. subst s2 c2.
  destruct o1 as [x|x]; destruct o2 as [y|y]; cbn in Ho; try contradiction.
  - now subst y.
  - reflexivity.
Qed.

Lemma provider_errors_witness :
  api_chat sample_cfg failing (Some "I need a slot") sample_state
  = api_chat sample_cfg (fun _ p _ => Threw "401: invalid key g-key") (Some "I need a slot")
      sample_state.
Proof.
  apply provider_errors_stay_internal. intros t p prompt. exact I.
Defined.

(* ----------------------------------------------------------------- *)
(** ** The emergency gate and the tokenizer under concatenation *)

Lemma toLowerCase_app (a b : string) :
  JS.toLowerCase (a +++ b) = JS.toLowerCase a +++ JS.toLowerCase b.
Proof. induction a as [|c a IH]; [reflexivity|]. cbn. now rewrite IH. Qed.

Lemma truthy_app (a b c : string) : JS.truthy b = true -> JS.truthy (a +++ b +++ c) = true.
Proof. destruct a; [|reflexivity]. destruct b; [discriminate | reflexivity]. Qed.

(** X7. An emergency phrase cannot be hidden: when a message triggers
    the emergency gate, so does every message that contains it, whatever
    text comes before and after it, and the chat handler answers such a
    message with the safety reply, without retrieval or provider request
    and leaving the state as it was. *)
Theorem emergency_phrase_cannot_be_hidden
  (cfg : Config) (net : World) (st : State) (message before after : string) :
  checkEmergency message = true ->
  checkEmergency (before +++ message +++ after) = true
  /\ api_chat cfg net (Some (before +++ message +++ after)) st
     = (ok (Chat safety true None), st, []).
Proof.
  intros H.
  assert (Hall : checkEmergency (before +++ message +++ after) = true).
  { apply checkEmergency_spec. apply checkEmergency_spec in H as (w & p & q & Hw & E).
    exists w, (JS.toLowerCase before +++ p), (q +++ JS.toLowerCase after).
    split; [exact Hw|].
    now rewrite !toLowerCase_app, E, !append_assoc. }
  split; [exact Hall|]. unfold api_chat.
  rewrite (truthy_app before message after (emergency_message_truthy _ H)).
  cbn [negb]. now rewrite Hall.
Qed.

Lemma emergency_phrase_witness :
  checkEmergency "Honestly, I WANT TO DIE. Sorry." = true.
Proof.
  exact (proj1 (emergency_phrase_cannot_be_hidden sample_cfg answering sample_state
                  "I WANT TO DIE" "Honestly, " ". Sorry." eq_refl)).
Defined.

Lemma toLowerUnit_word (c : ascii) : JS.isWordChar (JS.toLowerUnit c) = JS.isWordChar c.
Proof. destruct c as [[] [] [] [] [] [] [] []]; reflexivity. Qed.

Lemma split_nonword_after_sep (b : string) :
  filter JS.truthy (JS.split_nonword "" true b)
  = filter JS.truthy (JS.split_nonword "" false b).
Proof.
  destruct b as [|x b]; [reflexivity|]. cbn [JS.split_nonword].
  destruct (JS.isWordChar x); reflexivity.
Qed.

Lemma split_nonword_sep (a b : string) (c : ascii) :
  JS.isWordChar c = false ->
  forall cur in_sep,
    (in_sep = true -> cur = "") ->
    filter JS.truthy (JS.split_nonword cur in_sep (a +++ String c b))
    = filter JS.truthy (JS.split_nonword cur in_sep a)
      ++ filter JS.truthy (JS.split_nonword "" true b).
Proof.
  intros Hc. induction a as [|x a IH]; intros cur in_sep Hinv.
  - cbn [String.append JS.split_nonword]. rewrite Hc. destruct in_sep.
    + rewrite (Hinv eq_refl). reflexivity.
    + cbn [filter]. now destruct (JS.truthy cur).
  - cbn [String.append JS.split_nonword]. destruct (JS.isWordChar x).
    + apply IH. discriminate.
    + destruct in_sep.
      * now apply IH.
      * cbn [filter]. rewrite (IH "" true (fun _ => eq_refl)).
        now destruct (JS.truthy cur).
Qed.

(** X8. Within Latin-1, tokens do not cross a non-word unit: for texts
    of code units below 256 joined by such a unit [c] outside
    [[A-Za-z0-9_]], the tokens of the joined text are the tokens of the
    first followed by those of the second, and the term-frequency vector
    of the joined text is the coordinate-wise sum of the vectors of the
    two.  ([toks] splits the lower-cased text, and in that range
    [toLowerCase] moves no unit into or out of the word class:
    [toLowerUnit_word].  The statement does not extend to every UTF-16
    separator: the lower case of the Kelvin sign U+212A is the letter k.) *)
Theorem toks_of_separated_texts (a b : string) (c : ascii) (vocabulary : list string) :
  JS.isWordChar c = false ->
  toks (a +++ String c b) = toks a ++ toks b
  /\ tfvec (a +++ String c b) vocabulary
     = map (fun p => fst p + snd p) (combine (tfvec a vocabulary) (tfvec b vocabulary)).
Proof.
  intros Hc.
  assert (E : toks (a +++ String c b) = toks a ++ toks b).
  { unfold toks, JS.split_W. rewrite toLowerCase_app. cbn [JS.toLowerCase].
    rewrite split_nonword_sep; [| now rewrite toLowerUnit_word | discriminate].
    now rewrite split_nonword_after_sep. }
  split; [exact E|]. unfold tfvec. rewrite E.
  induction vocabulary as [|w V IH]; [reflexivity|].
  cbn [map combine fst snd]. rewrite IH, filter_app, length_app. reflexivity.
Qed.

Lemma toks_of_separated_texts_witness :
  toks ("Sleep well" +++ String "," "stay CALM") = ["sleep"; "well"; "stay"; "calm"].
Proof.
  exact (proj1 (toks_of_separated_texts "Sleep well" "stay CALM" "," [] eq_refl)).
Defined.

(* ----------------------------------------------------------------- *)
(** ** The answers of the indexer and the store it builds *)

Lemma readDocs_spec (fs : FileSystem) (files : list string) (ds : list Document) :
  readDocs fs files = Some ds <->
  map id ds = files /\ Forall (fun d => root fs (id d) = File (text d)) ds.
Proof.
  revert ds. induction files as [|f files IH]; intros ds; cbn [readDocs].
  - split.
    + intros H. injection H as <-. split; [reflexivity | constructor].
    + intros [H _]. destruct ds; [reflexivity | discriminate].
  - split.
    + destruct (root fs f) as [| |c] eqn:E; try discriminate.
      destruct (readDocs fs files) as [ds'|] eqn:R; try discriminate.
      intros H. injection H as <-. destruct (proj1 (IH ds') eq_refl) as [Hm Hall].
      split; [cbn; now rewrite Hm | constructor; [exact E | exact Hall]].
    + intros [Hm Hall]. destruct ds as [|d ds]; [discriminate|].
      cbn [map] in Hm. injection Hm as Hd Hm. inversion Hall as [|? ? Hr Hall']; subst.
      rewrite Hr. rewrite (proj2 (IH ds) (conj eq_refl Hall')). now destruct d.
Qed.

Lemma readDocs_fails (fs : FileSystem) (files : list string) :
  readDocs fs files = None <-> exists fn, In fn files /\ forall c, root fs fn <> File c.
Proof.
  induction files as [|f files IH]; cbn [readDocs].
  - split; [discriminate | intros (fn & [] & _)].
  - destruct (root fs f) as [| |c] eqn:E.
    + split; [intros _; exists f; split; [now left | intros c; congruence] | reflexivity].
    + split; [intros _; exists f; split; [now left | intros c; congruence] | reflexivity].
    + destruct (readDocs fs files) as [ds|].
      * split; [discriminate|]. intros (fn & [<- | Hin] & Hno).
        -- now destruct (Hno c).
        -- assert (Some ds = None) by (apply (proj2 IH); now exists fn). discriminate.
      * split; [|reflexivity]. intros _. destruct (proj1 IH eq_refl) as (fn & Hin & Hno).
        exists fn. split; [now right | exact Hno].
Qed.

Lemma discover_nothing (fs : FileSystem) : discover fs = Some [] <-> nothing_to_index fs.
Proof.
  unfold discover, nothing_to_index. split.
  - destruct (knowledge fs) as [| |names] eqn:K; try discriminate.
    + destruct (root fs "my_data.txt"); try discriminate. intros _. split; [now left | reflexivity].
    + destruct (filter is_knowledge_file names) as [|f l] eqn:F; [|discriminate].
      destruct (root fs "my_data.txt"); try discriminate. intros _. split; [|reflexivity].
      right. exists names. split; [reflexivity|]. intros f Hf.
      destruct (is_knowledge_file f) eqn:E; [|reflexivity].
      assert (In f (filter is_knowledge_file names)) by (apply filter_In; now split).
      rewrite F in H. contradiction.
  - intros [[-> | (names & -> & Hnone)] ->]; [reflexivity|].
    now rewrite (filter_none _ _ Hnone).
Qed.

(** X9. The answers of [/api/index]: 400 exactly when there is nothing
    to index; 200 exactly when discovery finds at least one name and every
    name found is a readable file of the install directory; 500 exactly
    when listing the folder throws or a name found cannot be read there.
    There is no other status. *)
Theorem index_answers (fs : FileSystem) (store : VectorStore) :
  (status (fst (api_index fs store)) = 400 <-> nothing_to_index fs)
  /\ (status (fst (api_index fs store)) = 200 <->
      exists files, discover fs = Some files /\ files <> []
                    /\ forall fn, In fn files -> exists c, root fs fn = File c)
  /\ (status (fst (api_index fs store)) = 500 <->
      discover fs = None
      \/ exists files fn, discover fs = Some files /\ In fn files
                          /\ forall c, root fs fn <> File c)
  /\ (status (fst (api_index fs store)) = 200
      \/ status (fst (api_index fs store)) = 400
      \/ status (fst (api_index fs store)) = 500).
Proof.
  rewrite <- discover_nothing. unfold api_index.
  destruct (discover fs) as [[|f files]|] eqn:D; cbn [fst status].
  - split; [tauto|]. split; [|split; [|tauto]].
    + split; [discriminate | intros (files & E & Hne & _); congruence].
    + split; [discriminate|]. intros [E | (files & fn & E & Hin & _)]; [discriminate|].
      injection E as <-. contradiction.
  - destruct (readDocs fs (f :: files)) as [ds|] eqn:R; cbn [fst status].
    + apply readDocs_spec in R as [Hm Hall].
      split; [split; discriminate|]. split; [|split; [|tauto]].
      * split; [|reflexivity]. intros _. exists (f :: files).
        split; [reflexivity|]. split; [discriminate|]. intros fn Hin.
        rewrite <- Hm in Hin. apply in_map_iff in Hin as (d & <- & Hd).
        rewrite Forall_forall in Hall. exists (text d). now apply Hall.
      * split; [discriminate|]. intros [E | (files' & fn & E & Hin & Hno)]; [discriminate|].
        injection E as <-. rewrite <- Hm in Hin. apply in_map_iff in Hin as (d & <- & Hd).
        rewrite Forall_forall in Hall. destruct (Hno (text d)). now apply Hall.
    + apply readDocs_fails in R as (fn & Hin & Hno).
      split; [split; discriminate|]. split; [|split; [|tauto]].
      * split; [discriminate|]. intros (files' & E & _ & Hall). injection E as <-.
        destruct (Hall fn Hin) as [c Hc]. now destruct (Hno c).
      * split; [|reflexivity]. intros _. right. now exists (f :: files), fn.
  - split; [split; discriminate|]. split; [|split; [|tauto]].
    + split; [discriminate | intros (files & E & _); discriminate].
    + split; [|reflexivity]. intros _. now left.
Qed.

Lemma firstn_incl {A : Type} (n : nat) (l : list A) (x : A) : In x (firstn n l) -> In x l.
Proof.
  intros H. rewrite <- (firstn_skipn n l). apply in_or_app. now left.
Qed.

(** X10. After an indexing request that answered 200, whatever the store
    held before, every document [retrieveTopK] returns is one of the files
    this request discovered, with the text the install directory holds for
    it and the term-frequency vector of that text over the new
    vocabulary. *)
Theorem retrieval_after_reindex
  (fs : FileSystem) (store : VectorStore) (query : string) (k : Z) (d : EmbeddedDocument) :
  status (fst (api_index fs store)) = 200 ->
  In d (retrieveTopK (snd (api_index fs store)) query k) ->
  exists files,
    discover fs = Some files
    /\ In (eid d) files
    /\ root fs (eid d) = File (etext d)
    /\ embedding d = tfvec (etext d) (vocab (snd (api_index fs store))).
Proof.
  unfold api_index.
  destruct (discover fs) as [[|f files]|] eqn:D; cbn [fst snd status]; try discriminate.
  destruct (readDocs fs (f :: files)) as [ds|] eqn:R; cbn [fst snd status]; try discriminate.
  intros _ Hin. apply readDocs_spec in R as [Hm Hall].
  rewrite retrieveTopK_eq in Hin. apply in_map_iff in Hin as ([d' s] & <- & Hin).
  cbn [fst].
  assert (Hs : In (d', s) (scored {| docs := map (embed (buildVocab ds 400)) ds;
                                    vocab := buildVocab ds 400 |} query)).
  { apply (proj1 (sort_In score_after _ _)). unfold JS.slice0 in Hin.
    eapply firstn_incl; exact Hin. }
  unfold scored in Hs. cbn [docs vocab] in Hs.
  apply in_map_iff in Hs as (e & He & Hd). injection He as -> _.
  apply in_map_iff in Hd as (x & <- & Hx). cbn [embed eid etext embedding vocab].
  exists (f :: files). split; [reflexivity|]. split.
  - rewrite <- Hm. now apply in_map.
  - rewrite Forall_forall in Hall. split; [now apply Hall | reflexivity].
Qed.

Lemma retrieval_after_reindex_witness :
  exists files,
    discover sample_disk = Some files
    /\ In "b.md" files
    /\ root sample_disk "b.md" = File "sleep calm sleep"
    /\ [1; 2; 0; 0] = tfvec "sleep calm sleep" (vocab (snd (api_index sample_disk initialStore))).
Proof.
  apply (retrieval_after_reindex sample_disk initialStore "sleep" 3
           {| eid := "b.md"; etext := "sleep calm sleep"; embedding := [1; 2; 0; 0] |}).
  - reflexivity.
  - vm_compute. left. reflexivity.
Defined.

Lemma store_after_ok (disks : list FileSystem) : store_ok (store_after disks).
Proof.
  induction disks as [|fs disks IH] using rev_ind.
  - split; [simpl; lia | constructor].
  - rewrite store_after_app. now apply api_index_ok.
Qed.

Lemma list_sum_cons (x : nat) (l : list nat) : list_sum (x :: l) = x + list_sum l.
Proof. reflexivity. Qed.

Lemma NoDup_firstn {A : Type} (n : nat) (l : list A) : NoDup l -> NoDup (firstn n l).
Proof.
  intros H. rewrite <- (firstn_skipn n l) in H. now apply NoDup_app_remove_r in H.
Qed.

Lemma buildVocab_terms (ds : list Document) (maxV : Z) :
  NoDup (buildVocab ds maxV)
  /\ forall w, In w (buildVocab ds maxV) -> In w (all_toks ds).
Proof.
  unfold buildVocab, JS.slice0.
  set (f := tabulate ds). set (n := Z.to_nat _).
  assert (Hperm : Permutation (JS.sort (count_after f) (Object_keys f))
                    (table_terms (all_toks ds))).
  { rewrite sort_perm. unfold Object_keys, f. rewrite tabulate_fold, table_keys.
    apply own_keys_order_perm. }
  split.
  - apply NoDup_firstn. apply (Permutation_NoDup (Permutation_sym Hperm)), table_terms_NoDup.
  - intros w Hw. apply firstn_incl in Hw. apply (Permutation_in _ Hperm) in Hw.
    now apply table_terms_In in Hw.
Qed.

Lemma indicator_sum (t : string) (V : list string) :
  NoDup V ->
  list_sum (map (fun w => if string_dec t w then 1 else 0) V)
  = if existsb (String.eqb t) V then 1 else 0.
Proof.
  induction V as [|v V IH]; intros Hnd; [reflexivity|].
  inversion Hnd as [|? ? Hnotin Hnd']; subst. cbn [map existsb].
  rewrite list_sum_cons, (IH Hnd'). destruct (string_dec t v) as [<- | Hne].
  - rewrite String.eqb_refl. cbn [orb].
    destruct (existsb (String.eqb t) V) eqn:E; [|reflexivity].
    apply existsb_exists in E as (x & Hx & Heq). apply String.eqb_eq in Heq. now subst x.
  - rewrite (proj2 (String.eqb_neq t v) Hne). reflexivity.
Qed.

Lemma sum_occurrences (T V : list string) :
  NoDup V ->
  list_sum (map (occurrences T) V)
  = List.length (filter (fun t => existsb (String.eqb t) V) T).
Proof.
  intros Hnd. induction T as [|t T IH].
  - cbn [filter List.length]. induction V as [|v V IHV]; [reflexivity|].
    inversion Hnd; subst. cbn. now apply IHV.
  - assert (E : list_sum (map (occurrences (t :: T)) V)
                = list_sum (map (fun w => if string_dec t w then 1 else 0) V)
                  + list_sum (map (occurrences T) V)).
    { clear. induction V as [|v V IHV]; [reflexivity|]. cbn [map].
      rewrite !list_sum_cons, IHV. unfold occurrences. cbn [count_occ].
      destruct (string_dec t v); lia. }
    rewrite E, IH, (indicator_sum t V Hnd). cbn [filter].
    destruct (existsb (String.eqb t) V); cbn [List.length]; lia.
Qed.

Lemma tfvec_occurrences (txt : string) (vocabulary : list string) :
  tfvec txt vocabulary = map (occurrences (toks txt)) vocabulary.
Proof. unfold tfvec. apply map_ext. intros w. apply filter_count. Qed.

Lemma tfvec_sum (txt : string) (vocabulary : list string) :
  NoDup vocabulary ->
  list_sum (tfvec txt vocabulary) = List.length (known_tokens vocabulary txt).
Proof. intros H. rewrite tfvec_occurrences. now apply sum_occurrences. Qed.

Lemma store_after_shape (disks : list FileSystem) :
  store_after disks = initialStore \/ exists ds, store_after disks = indexed_store ds.
Proof.
  induction disks as [|fs disks IH] using rev_ind; [now left|].
  rewrite store_after_app.
  destruct (api_index_cases fs (store_after disks)) as [(code & msg & _ & ->) | (ds & _ & ->)];
    [exact IH | right; now exists ds].
Qed.

(** When the cut at [maxV] drops nothing, the vocabulary holds every
    token but [__proto__]. *)
Lemma buildVocab_complete (ds : list Document) (maxV : Z) (t : string) :
  (0 <= maxV)%Z -> (Z.of_nat (List.length (buildVocab ds maxV)) < maxV)%Z ->
  In t (all_toks ds) -> t <> "__proto__" -> In t (buildVocab ds maxV).
Proof.
  intros Hpos Hlen Hin Hne. unfold buildVocab in *.
  set (f := tabulate ds) in *.
  assert (Hperm : Permutation (JS.sort (count_after f) (Object_keys f))
                    (table_terms (all_toks ds))).
  { rewrite sort_perm. unfold Object_keys, f. rewrite tabulate_fold, table_keys.
    apply own_keys_order_perm. }
  rewrite slice0_firstn in * by assumption.
  set (ranked := JS.sort (count_after f) (Object_keys f)) in *.
  assert (Hall : firstn (Z.to_nat maxV) ranked = ranked).
  { apply firstn_all2. rewrite length_firstn in Hlen. lia. }
  rewrite Hall. apply (Permutation_in _ (Permutation_sym Hperm)).
  apply table_terms_In. now split.
Qed.

(** X11. In the store after any series of indexing requests the
    vocabulary has no repeated term and each of its terms occurs in a
    stored document; the coordinates of a stored embedding add up to the
    number of tokens of the document that are vocabulary terms, and those
    of a query's vector to the number of such tokens of the query, at most
    the number of its tokens.  When the vocabulary has fewer than 400
    terms, nothing was cut from it: every token of a stored document
    other than [__proto__] is a vocabulary term and is counted. *)
Theorem embeddings_count_known_tokens (disks : list FileSystem) (query : string) :
  let store := store_after disks in
  NoDup (vocab store)
  /\ (forall w, In w (vocab store) ->
        exists d, In d (docs store) /\ In w (toks (etext d)))
  /\ Forall (fun d => list_sum (embedding d)
                      = List.length (known_tokens (vocab store) (etext d)))
       (docs store)
  /\ list_sum (tfvec query (vocab store))
     = List.length (known_tokens (vocab store) query)
  /\ List.length (known_tokens (vocab store) query) <= List.length (toks query)
  /\ (List.length (vocab store) < 400 ->
      Forall (fun d => known_tokens (vocab store) (etext d)
                       = filter (fun t => negb (String.eqb t "__proto__")) (toks (etext d)))
        (docs store)).
Proof.
  cbv zeta.
  assert (Hnd : NoDup (vocab (store_after disks))).
  { destruct (store_after_shape disks) as [-> | (ds & ->)]; [constructor|].
    apply buildVocab_terms. }
  split; [exact Hnd|]. split; [|split; [|split; [|split]]].
  - destruct (store_after_shape disks) as [-> | (ds & ->)]; [intros w []|].
    cbn [indexed_store vocab docs]. intros w Hw.
    apply buildVocab_terms in Hw. unfold all_toks in Hw.
    apply in_flat_map in Hw as (d & Hd & Hw).
    exists (embed (buildVocab ds 400) d). split; [now apply in_map | exact Hw].
  - destruct (store_after_ok disks) as [_ Hall]. revert Hall. apply Forall_impl.
    intros d [-> _]. now apply tfvec_sum.
  - now apply tfvec_sum.
  - unfold known_tokens. apply filter_length_le.
  - destruct (store_after_shape disks) as [-> | (ds & ->)]; [constructor|].
    cbn [indexed_store vocab docs]. intros Hlen. apply Forall_forall.
    intros d Hd. apply in_map_iff in Hd as (x & <- & Hx). cbn [embed etext].
    unfold known_tokens. apply filter_ext_in. intros t Ht.
    assert (HT : In t (all_toks ds)) by (unfold all_toks; apply in_flat_map; now exists x).
    destruct (String.eqb_spec t "__proto__") as [-> | Hne]; cbn [negb].
    + apply not_true_is_false. intros H. apply existsb_exists in H as (w & Hw & Heq).
      apply String.eqb_eq in Heq. subst w.
      unfold buildVocab, JS.slice0 in Hw. apply firstn_incl in Hw.
      apply (proj1 (sort_In _ _ _)) in Hw. unfold Object_keys in Hw.
      rewrite tabulate_fold, table_keys in Hw.
      apply (Permutation_in _ (own_keys_order_perm _)) in Hw.
      apply table_terms_In in Hw. now destruct Hw.
    + apply existsb_exists. exists t. split; [|apply String.eqb_refl].
      apply buildVocab_complete; try lia; assumption.
Qed.

Lemma embeddings_count_witness :
  List.length (vocab (store_after [sample_disk])) < 400
  /\ Forall (fun d => known_tokens (vocab (store_after [sample_disk])) (etext d)
                      = filter (fun t => negb (String.eqb t "__proto__")) (toks (etext d)))
       (docs (store_after [sample_disk])).
Proof.
  assert (H : List.length (vocab (store_after [sample_disk])) < 400) by (vm_compute; lia).
  split; [exact H|].
  exact (proj2 (proj2 (proj2 (proj2 (proj2
           (embeddings_count_known_tokens [sample_disk] "sleep"))))) H).
Defined.

(* ----------------------------------------------------------------- *)
(** ** Doubles: the scores are numbers

    The counts are below [2 ^ 63], the vectors have at most 400
    coordinates, and each operation of [cosine] adds at most two binary
    digits in front of the point, or halves their number: no intermediate
    result comes near the overflow threshold [2 ^ 1024], and the
    denominator is at least the constant [1e-12].  The bounds are proved
    in the specification format and carried over to the primitive
    doubles. *)

Local Open Scope Z_scope.

Lemma Zdigits2_nonneg (m : Z) : 0 <= Zdigits2 m.
Proof. destruct m; simpl; lia. Qed.

(** [Zdigits2 m] is the least [k] with [m < 2 ^ k]. *)
Lemma Zdigits2_le_iff (m k : Z) :
  0 <= m -> 0 <= k -> (Zdigits2 m <= k <-> m < 2 ^ k).
Proof.
  intros Hm Hk. destruct m as [|p|p]; try lia; cbn [Zdigits2].
  - split; [intros _; now apply pow2_pos | lia].
  - pose proof (digits2_bounds p) as [Hlo Hhi]. split.
    + intros H. eapply Z.lt_le_trans; [exact Hhi|]. apply Z.pow_le_mono_r; lia.
    + intros H. destruct (Z.le_gt_cases (Zpos (digits2_pos p)) k) as [|Hgt]; [assumption|].
      assert (2 ^ k <= 2 ^ (Zpos (digits2_pos p) - 1)) by (apply Z.pow_le_mono_r; lia).
      lia.
Qed.

Lemma Zdigits2_ge_iff (m k : Z) :
  0 <= m -> 1 <= k -> (k <= Zdigits2 m <-> 2 ^ (k - 1) <= m).
Proof.
  intros Hm Hk. pose proof (Zdigits2_le_iff m (k - 1) Hm ltac:(lia)). lia.
Qed.

Lemma Zdigits2_mono (m n : Z) : 0 <= m <= n -> Zdigits2 m <= Zdigits2 n.
Proof.
  intros H. apply Zdigits2_le_iff; [lia | apply Zdigits2_nonneg|].
  pose proof (proj1 (Zdigits2_le_iff n (Zdigits2 n) ltac:(lia) (Zdigits2_nonneg n)) (Z.le_refl _)).
  lia.
Qed.

Lemma Zdigits2_lt_pow (m : Z) : 0 <= m -> m < 2 ^ Zdigits2 m.
Proof. intros H. apply Zdigits2_le_iff; [assumption | apply Zdigits2_nonneg | lia]. Qed.

Lemma Zdigits2_ge_pow (m : Z) : 0 < m -> 2 ^ (Zdigits2 m - 1) <= m.
Proof.
  intros H. assert (1 <= Zdigits2 m) by (destruct m; simpl; lia).
  apply Zdigits2_ge_iff; lia.
Qed.

Lemma Zdigits2_pos (m : Z) : 0 < m -> 1 <= Zdigits2 m.
Proof. destruct m; simpl; lia. Qed.

(** Digits of a quotient by a power of two. *)
Lemma Zdigits2_shr_le (m n : Z) :
  0 <= m -> 0 <= n -> Zdigits2 (m / 2 ^ n) <= Z.max (Zdigits2 m - n) 0.
Proof.
  intros Hm Hn. pose proof (pow2_pos n Hn) as Hp.
  apply Zdigits2_le_iff; [apply Z.div_pos; lia | lia|].
  apply Z.div_lt_upper_bound; [lia|]. rewrite <- Z.pow_add_r by lia.
  eapply Z.lt_le_trans; [apply (Zdigits2_lt_pow m Hm)|].
  apply Z.pow_le_mono_r; lia.
Qed.

Lemma Zdigits2_shr_ge (m n : Z) :
  0 < m -> 0 <= n -> n < Zdigits2 m -> Zdigits2 m - n <= Zdigits2 (m / 2 ^ n).
Proof.
  intros Hm Hn Hlt. pose proof (pow2_pos n Hn) as Hp.
  apply Zdigits2_ge_iff; [apply Z.div_pos; lia | lia|].
  apply Z.div_le_lower_bound; [lia|]. rewrite <- Z.pow_add_r by lia.
  replace (n + (Zdigits2 m - n - 1)) with (Zdigits2 m - 1) by lia.
  now apply Zdigits2_ge_pow.
Qed.

Lemma Zdigits2_succ (m : Z) : 0 <= m -> Zdigits2 (m + 1) <= Zdigits2 m + 1.
Proof.
  intros Hm. pose proof (Zdigits2_nonneg m).
  apply Zdigits2_le_iff; [lia | lia|].
  pose proof (Zdigits2_lt_pow m Hm). rewrite Z.pow_add_r, Z.pow_1_r by lia. lia.
Qed.

Lemma Zdigits2_mul (a b : Z) :
  0 <= a -> 0 <= b -> Zdigits2 (a * b) <= Zdigits2 a + Zdigits2 b.
Proof.
  intros Ha Hb. pose proof (Zdigits2_nonneg a). pose proof (Zdigits2_nonneg b).
  apply Zdigits2_le_iff; [nia | lia|].
  pose proof (Zdigits2_lt_pow a Ha). pose proof (Zdigits2_lt_pow b Hb).
  rewrite Z.pow_add_r by lia. nia.
Qed.

Lemma Zdigits2_shl (m s : Z) : 0 < m -> 0 <= s -> Zdigits2 (m * 2 ^ s) = Zdigits2 m + s.
Proof.
  intros Hm Hs. pose proof (pow2_pos s Hs) as Hp. pose proof (Zdigits2_pos m Hm) as Hd.
  apply Z.le_antisymm.
  - apply Zdigits2_le_iff; [nia | lia|].
    pose proof (Zdigits2_lt_pow m ltac:(lia)). rewrite Z.pow_add_r by lia. nia.
  - apply Zdigits2_ge_iff; [nia | lia|].
    pose proof (Zdigits2_ge_pow m Hm).
    replace (Zdigits2 m + s - 1) with ((Zdigits2 m - 1) + s) by lia.
    rewrite Z.pow_add_r by lia. nia.
Qed.

Lemma Zdigits2_add (a b k : Z) :
  0 <= a -> 0 <= b -> 0 <= k -> Zdigits2 a <= k -> Zdigits2 b <= k ->
  Zdigits2 (a + b) <= k + 1.
Proof.
  intros Ha Hb Hk Hda Hdb.
  apply Zdigits2_le_iff; [lia | lia|].
  apply Zdigits2_le_iff in Hda, Hdb; try lia.
  rewrite Z.pow_add_r, Z.pow_1_r by lia. lia.
Qed.

Lemma round_nearest_even_le (m : Z) (l : location) : round_nearest_even m l <= m + 1.
Proof. destruct l as [|[| |]]; cbn [round_nearest_even]; try lia. destruct (Z.even m); lia. Qed.

Lemma Zdigits2_sqrt (m : Z) : 0 <= m -> Zdigits2 (Z.sqrt m) <= (Zdigits2 m + 1) / 2.
Proof.
  intros Hm. pose proof (Zdigits2_nonneg m) as Hd.
  pose proof (Z.sqrt_nonneg m) as Hq. pose proof (Z.sqrt_spec m Hm) as [Hlo _].
  set (k := (Zdigits2 m + 1) / 2). assert (Hk : Zdigits2 m <= 2 * k /\ 0 <= k)
    by (unfold k; split; [|apply Z.div_pos; lia];
        pose proof (Z.div_mod (Zdigits2 m + 1) 2 ltac:(lia));
        pose proof (Z.mod_pos_bound (Zdigits2 m + 1) 2 ltac:(lia)); lia).
  apply Zdigits2_le_iff; [assumption | lia |].
  destruct (Z.lt_ge_cases (Z.sqrt m) (2 ^ k)) as [|Hge]; [assumption | exfalso].
  pose proof (Zdigits2_lt_pow m Hm) as Hlt.
  assert (2 ^ Zdigits2 m <= 2 ^ (2 * k)) by (apply Z.pow_le_mono_r; lia).
  assert (2 ^ (2 * k) = 2 ^ k * 2 ^ k) by (rewrite <- Z.pow_add_r by lia; f_equal; lia).
  pose proof (pow2_pos k ltac:(lia)).
  assert (2 ^ k * 2 ^ k <= Z.sqrt m * Z.sqrt m) by (apply Z.mul_le_mono_nonneg; lia).
  lia.
Qed.

Lemma Zdigits2_div (a b : Z) :
  0 <= a -> 0 < b -> Zdigits2 (a / b) <= Z.max (Zdigits2 a - Zdigits2 b + 1) 0.
Proof.
  intros Ha Hb. pose proof (Zdigits2_pos b Hb) as Hdb. pose proof (Zdigits2_nonneg a) as Hda.
  pose proof (Zdigits2_lt_pow a Ha) as Hlt. pose proof (Zdigits2_ge_pow b Hb) as Hge.
  assert (Hq : 0 <= a / b) by (apply Z.div_pos; lia).
  assert (Hm : b * (a / b) <= a) by (apply Z.mul_div_le; lia).
  pose proof (pow2_pos (Zdigits2 b - 1) ltac:(lia)) as Hp.
  assert (Hm' : 2 ^ (Zdigits2 b - 1) * (a / b) <= a).
  { eapply Z.le_trans; [|exact Hm]. apply Z.mul_le_mono_nonneg_r; lia. }
  apply Zdigits2_le_iff; [assumption | lia |].
  destruct (Z.le_gt_cases 0 (Zdigits2 a - Zdigits2 b + 1)) as [Hs|Hs].
  - rewrite Z.max_l by lia.
    destruct (Z.lt_ge_cases (a / b) (2 ^ (Zdigits2 a - Zdigits2 b + 1))) as [|Hc];
      [assumption | exfalso].
    assert (2 ^ (Zdigits2 b - 1) * 2 ^ (Zdigits2 a - Zdigits2 b + 1)
            <= 2 ^ (Zdigits2 b - 1) * (a / b)) by (apply Z.mul_le_mono_nonneg_l; lia).
    rewrite <- Z.pow_add_r in H by lia.
    replace (Zdigits2 b - 1 + (Zdigits2 a - Zdigits2 b + 1)) with (Zdigits2 a) in H by lia. lia.
  - rewrite Z.max_r by lia. rewrite Z.pow_0_r.
    assert (2 ^ Zdigits2 a <= 2 ^ (Zdigits2 b - 1)) by (apply Z.pow_le_mono_r; lia).
    assert (a / b = 0) by (apply Z.div_small; lia). lia.
Qed.

Section RoundingBounds.
Variables prec emax : Z.
Hypothesis prec_pos : 0 < prec.
Hypothesis prec_lt_emax : prec < emax.

Abbreviation emin := (SpecFloat.emin prec emax).
Abbreviation fexp := (SpecFloat.fexp prec emax).

(** What [shr_fexp] does to a mantissa that is not negative. *)
Lemma shr_fexp_eq (m e : Z) (l : location) :
  0 <= m ->
  shr_m (fst (shr_fexp prec emax m e l)) = m / 2 ^ (Z.max e (fexp (Zdigits2 m + e)) - e)
  /\ snd (shr_fexp prec emax m e l) = Z.max e (fexp (Zdigits2 m + e)).
Proof.
  intros Hm. unfold shr_fexp, shr.
  destruct (fexp (Zdigits2 m + e) - e) as [|n|n] eqn:En; cbn [fst snd].
  - rewrite shr_record_of_loc_m. replace (Z.max e (fexp (Zdigits2 m + e)) - e) with 0 by lia.
    rewrite Z.pow_0_r, Z.div_1_r. split; [reflexivity | lia].
  - rewrite iter_shr_1_m by (rewrite shr_record_of_loc_m; lia).
    rewrite shr_record_of_loc_m.
    replace (Z.max e (fexp (Zdigits2 m + e)) - e) with (Zpos n) by lia.
    split; [reflexivity | lia].
  - rewrite shr_record_of_loc_m. replace (Z.max e (fexp (Zdigits2 m + e)) - e) with 0 by lia.
    rewrite Z.pow_0_r, Z.div_1_r. split; [reflexivity | lia].
Qed.

(** Rounding a mantissa that is not negative, far enough below the
    overflow threshold: the result is zero or a positive number, and it has
    at most one binary digit more in front of the point than the value
    rounded. *)
Lemma binary_round_aux_below (m e : Z) (l : location) :
  0 <= m -> e <= emax - prec ->
  Z.max (Zdigits2 m + e) emin + 1 <= emax ->
  binary_round_aux prec emax false m e l = S754_zero false
  \/ exists m' e',
       binary_round_aux prec emax false m e l = S754_finite false m' e'
       /\ Zpos (digits2_pos m') + e' <= Z.max (Zdigits2 m + e) emin + 1.
Proof.
  intros Hm He HM. unfold binary_round_aux.
  pose proof (shr_fexp_eq m e l Hm) as [H1 H1e].
  destruct (shr_fexp prec emax m e l) as [mrs' e1] eqn:E1. cbn [fst snd] in *.
  set (m1 := shr_m mrs') in *.
  assert (Hn1 : 0 <= e1 - e) by lia.
  assert (Hm1 : 0 <= m1) by (rewrite H1; apply Z.div_pos; [lia | apply pow2_pos; lia]).
  assert (Hd1 : Zdigits2 m1 <= Z.max (Zdigits2 m - (e1 - e)) 0)
    by (rewrite H1, <- H1e; apply Zdigits2_shr_le; lia).
  set (m2 := round_nearest_even m1 (loc_of_shr_record mrs')).
  pose proof (round_nearest_even_ge m1 (loc_of_shr_record mrs')) as Hge.
  pose proof (round_nearest_even_le m1 (loc_of_shr_record mrs')) as Hle.
  fold m2 in Hge, Hle.
  assert (Hd2 : Zdigits2 m2 <= Zdigits2 m1 + 1).
  { eapply Z.le_trans; [apply (Zdigits2_mono m2 (m1 + 1)); lia | now apply Zdigits2_succ]. }
  pose proof (shr_fexp_eq m2 e1 loc_Exact ltac:(lia)) as [H2 H2e].
  destruct (shr_fexp prec emax m2 e1 loc_Exact) as [mrs'' e2] eqn:E2. cbn [fst snd] in *.
  pose proof (Zdigits2_nonneg m) as Hd. pose proof (Zdigits2_nonneg m1) as Hd1'.
  assert (Hd3 : Zdigits2 (shr_m mrs'') <= Z.max (Zdigits2 m2 - (e2 - e1)) 0)
    by (rewrite H2, <- H2e; apply Zdigits2_shr_le; lia).
  unfold SpecFloat.fexp, SpecFloat.emin in *.
  destruct (shr_m mrs'') as [|q|q] eqn:Eq.
  - now left.
  - right. cbn [Zdigits2] in Hd3.
    replace (e2 <=? emax - prec) with true by (symmetry; apply Z.leb_le; lia).
    exists q, e2. split; [reflexivity | lia].
  - exfalso. assert (0 <= Zneg q); [|lia].
    rewrite H2. apply Z.div_pos; [lia | apply pow2_pos; lia].
Qed.

(** The same in the absence of underflow: a positive mantissa with an
    exponent not below [emin] rounds to a positive number that has at
    least as many digits in front of the point. *)
Lemma binary_round_aux_between (m e : Z) (l : location) :
  0 < m -> emin <= e -> e <= emax - prec ->
  Zdigits2 m + e + 1 <= emax ->
  exists m' e',
    binary_round_aux prec emax false m e l = S754_finite false m' e'
    /\ Zdigits2 m + e <= Zpos (digits2_pos m') + e' <= Zdigits2 m + e + 1.
Proof.
  intros Hm Hemin He HM. unfold binary_round_aux.
  pose proof (shr_fexp_eq m e l ltac:(lia)) as [H1 H1e].
  destruct (shr_fexp prec emax m e l) as [mrs' e1] eqn:E1. cbn [fst snd] in *.
  set (m1 := shr_m mrs') in *.
  pose proof (Zdigits2_pos m Hm) as Hd.
  assert (Hn1 : 0 <= e1 - e /\ e1 - e < Zdigits2 m)
    by (unfold SpecFloat.fexp, SpecFloat.emin in *; lia).
  assert (Hd1 : Zdigits2 m - (e1 - e) <= Zdigits2 m1 <= Zdigits2 m - (e1 - e)).
  { split.
    - rewrite H1, <- H1e. apply Zdigits2_shr_ge; lia.
    - pose proof (Zdigits2_shr_le m (e1 - e) ltac:(lia) ltac:(lia)) as H.
      rewrite H1e, <- H1 in H. fold m1 in H. lia. }
  assert (Hm1 : 0 < m1).
  { assert (0 <= m1) by (rewrite H1; apply Z.div_pos; [lia | apply pow2_pos; lia]).
    assert (m1 <> 0) by (intros E; rewrite E in Hd1; simpl in Hd1; lia). lia. }
  set (m2 := round_nearest_even m1 (loc_of_shr_record mrs')).
  pose proof (round_nearest_even_ge m1 (loc_of_shr_record mrs')) as Hge.
  pose proof (round_nearest_even_le m1 (loc_of_shr_record mrs')) as Hle.
  fold m2 in Hge, Hle.
  assert (Hd2 : Zdigits2 m1 <= Zdigits2 m2 <= Zdigits2 m1 + 1).
  { split; [apply Zdigits2_mono; lia|].
    eapply Z.le_trans; [apply (Zdigits2_mono m2 (m1 + 1)); lia | apply Zdigits2_succ; lia]. }
  pose proof (shr_fexp_eq m2 e1 loc_Exact ltac:(lia)) as [H2 H2e].
  destruct (shr_fexp prec emax m2 e1 loc_Exact) as [mrs'' e2] eqn:E2. cbn [fst snd] in *.
  assert (Hn2 : 0 <= e2 - e1 /\ e2 - e1 < Zdigits2 m2)
    by (unfold SpecFloat.fexp, SpecFloat.emin in *; lia).
  assert (Hd3 : Zdigits2 m2 - (e2 - e1) <= Zdigits2 (shr_m mrs'') <= Zdigits2 m2 - (e2 - e1)).
  { split.
    - rewrite H2, <- H2e. apply Zdigits2_shr_ge; lia.
    - pose proof (Zdigits2_shr_le m2 (e2 - e1) ltac:(lia) ltac:(lia)) as H.
      rewrite H2e, <- H2 in H. lia. }
  unfold SpecFloat.fexp, SpecFloat.emin in *.
  destruct (shr_m mrs'') as [|q|q] eqn:Eq; cbn [Zdigits2] in Hd3; try lia.
  - replace (e2 <=? emax - prec) with true by (symmetry; apply Z.leb_le; lia).
    exists q, e2. split; [reflexivity | lia].
  - exfalso. assert (0 <= Zneg q); [|lia].
    rewrite H2. apply Z.div_pos; [lia | apply pow2_pos; lia].
Qed.

Lemma SFbelow_weaken (B B' : Z) (x : spec_float) :
  B <= B' -> SFbelow B x = true -> SFbelow B' x = true.
Proof.
  intros HB. destruct x as [[|]| | |[|] m e]; cbn [SFbelow]; try easy.
  rewrite !Z.leb_le. lia.
Qed.

Lemma round_below (m e B : Z) (l : location) :
  0 <= m -> e <= emax - prec -> Zdigits2 m + e <= B -> emin <= B -> B + 1 <= emax ->
  SFbelow (B + 1) (binary_round_aux prec emax false m e l) = true.
Proof.
  intros Hm He HB Hmin Hmax.
  destruct (binary_round_aux_below m e l Hm He ltac:(lia)) as [-> | (m' & e' & -> & H)];
    [reflexivity|].
  cbn [SFbelow]. apply Z.leb_le. lia.
Qed.

Lemma round_above (m e L : Z) (l : location) :
  0 < m -> emin <= e -> e <= emax - prec -> Zdigits2 m + e + 1 <= emax ->
  L <= Zdigits2 m + e ->
  SFabove L (binary_round_aux prec emax false m e l) = true.
Proof.
  intros Hm Hemin He HM HL.
  destruct (binary_round_aux_between m e l Hm Hemin He HM) as (m' & e' & -> & H).
  cbn [SFabove]. apply Z.leb_le. lia.
Qed.

(** Aligning a mantissa keeps the number of digits in front of the
    point. *)
Lemma shl_align_digits (mx : positive) (ex ez : Z) :
  Zpos (digits2_pos (fst (shl_align mx ex ez))) + snd (shl_align mx ex ez)
  = Zpos (digits2_pos mx) + ex
  /\ snd (shl_align mx ex ez) = Z.min ex ez.
Proof.
  unfold shl_align. destruct (ez - ex) as [|d|d] eqn:E; cbn [fst snd]; try lia.
  fold (shift_pos d mx).
  change (Zpos (digits2_pos (shift_pos d mx))) with (Zdigits2 (Zpos (shift_pos d mx))).
  rewrite shift_pos_correct, Zpower_pos_nat, Zpower_nat_Z, positive_nat_Z.
  rewrite Z.mul_comm, Zdigits2_shl by lia. cbn [Zdigits2]. lia.
Qed.

Lemma binary_normalize_below (m e B : Z) :
  0 <= m -> e <= emax - prec -> Zdigits2 m + e <= B -> emin <= B -> B + 1 <= emax ->
  SFbelow (B + 1) (binary_normalize prec emax m e false) = true.
Proof.
  intros Hm He HB Hmin Hmax. destruct m as [|p|p]; try lia; [reflexivity|].
  cbn [binary_normalize]. unfold binary_round.
  pose proof (shl_align_digits p e (fexp (Zpos (digits2_pos p) + e))) as [Hd Hs].
  destruct (shl_align p e (fexp (Zpos (digits2_pos p) + e))) as [mz ez]. cbn [fst snd] in *.
  apply round_below; cbn [Zdigits2] in *; lia.
Qed.

Lemma binary_normalize_above (m e L : Z) :
  0 < m -> emin <= e -> e <= emax - prec -> Zdigits2 m + e + 1 <= emax ->
  L <= Zdigits2 m + e ->
  SFabove L (binary_normalize prec emax m e false) = true.
Proof.
  intros Hm Hemin He HM HL. destruct m as [|p|p]; try lia.
  cbn [binary_normalize]. unfold binary_round.
  pose proof (shl_align_digits p e (fexp (Zpos (digits2_pos p) + e))) as [Hd Hs].
  destruct (shl_align p e (fexp (Zpos (digits2_pos p) + e))) as [mz ez]. cbn [fst snd] in *.
  apply round_above; cbn [Zdigits2] in *; unfold SpecFloat.fexp in *; lia.
Qed.

Lemma SFmul_below (x y : spec_float) (Bx By B : Z) :
  SFbelow Bx x = true -> SFbelow By y = true ->
  Bx + By <= B -> emin <= B -> B + 1 <= emax -> B <= emax - prec ->
  SFbelow (B + 1) (SFmul prec emax x y) = true.
Proof.
  intros Hx Hy HB Hmin Hmax He.
  destruct x as [[|]| | |[|] mx ex]; try discriminate;
    destruct y as [[|]| | |[|] my ey]; try discriminate; cbn [SFmul xorb]; try reflexivity.
  cbn [SFbelow] in Hx, Hy. apply Z.leb_le in Hx, Hy.
  pose proof (Zdigits2_mul (Zpos mx) (Zpos my) ltac:(lia) ltac:(lia)) as Hd.
  rewrite <- Pos2Z.inj_mul in Hd. cbn [Zdigits2] in Hd.
  apply round_below; cbn [Zdigits2]; lia.
Qed.

Lemma SFadd_below (x y : spec_float) (B : Z) :
  SFbelow B x = true -> SFbelow B y = true ->
  emin <= B + 1 -> B + 2 <= emax -> B <= emax - prec ->
  SFbelow (B + 2) (SFadd prec emax x y) = true.
Proof.
  intros Hx Hy Hmin Hmax He.
  destruct x as [[|]| | |[|] mx ex]; try discriminate;
    destruct y as [[|]| | |[|] my ey]; try discriminate; cbn [SFadd cond_Zopp];
    try (eapply SFbelow_weaken; [|eassumption]; lia); try reflexivity.
  cbn [SFbelow] in Hx, Hy. apply Z.leb_le in Hx, Hy.
  set (ez := Z.min ex ey).
  rewrite !shl_align_fst by (unfold ez; lia).
  replace (B + 2) with (B + 1 + 1) by lia.
  assert (Hdx : Zdigits2 (Zpos mx * 2 ^ (ex - ez)) = Zpos (digits2_pos mx) + (ex - ez))
    by (apply Zdigits2_shl; unfold ez; lia).
  assert (Hdy : Zdigits2 (Zpos my * 2 ^ (ey - ez)) = Zpos (digits2_pos my) + (ey - ez))
    by (apply Zdigits2_shl; unfold ez; lia).
  assert (Hpx : 0 < Zpos mx * 2 ^ (ex - ez))
    by (apply Z.mul_pos_pos; [lia | apply pow2_pos; unfold ez; lia]).
  assert (Hpy : 0 < Zpos my * 2 ^ (ey - ez))
    by (apply Z.mul_pos_pos; [lia | apply pow2_pos; unfold ez; lia]).
  pose proof (Zdigits2_add (Zpos mx * 2 ^ (ex - ez)) (Zpos my * 2 ^ (ey - ez)) (B - ez)
                ltac:(lia) ltac:(lia) ltac:(unfold ez; lia) ltac:(lia) ltac:(lia)) as Hs.
  apply binary_normalize_below; unfold ez in *; lia.
Qed.

Lemma SFadd_above (x y : spec_float) (B L : Z) :
  SpecFloat.valid_binary prec emax x = true -> SpecFloat.valid_binary prec emax y = true ->
  SFbelow B x = true -> SFbelow B y = true -> SFabove L y = true ->
  B + 2 <= emax -> B <= emax - prec ->
  SFabove L (SFadd prec emax x y) = true.
Proof.
  intros Vx Vy Hx Hy Ha Hmax He.
  destruct x as [[|]| | |[|] mx ex]; try discriminate;
    destruct y as [[|]| | |[|] my ey]; try discriminate; cbn [SFadd cond_Zopp];
    try assumption.
  cbn [SFbelow SFabove] in Hx, Hy, Ha. apply Z.leb_le in Hx, Hy, Ha.
  cbn [SpecFloat.valid_binary] in Vx, Vy.
  apply bounded_canonical in Vx as (Vx & _). apply bounded_canonical in Vy as (Vy & _).
  set (ez := Z.min ex ey).
  rewrite !shl_align_fst by (unfold ez; lia).
  assert (Hdx : Zdigits2 (Zpos mx * 2 ^ (ex - ez)) = Zpos (digits2_pos mx) + (ex - ez))
    by (apply Zdigits2_shl; unfold ez; lia).
  assert (Hdy : Zdigits2 (Zpos my * 2 ^ (ey - ez)) = Zpos (digits2_pos my) + (ey - ez))
    by (apply Zdigits2_shl; unfold ez; lia).
  assert (Hpx : 0 < Zpos mx * 2 ^ (ex - ez))
    by (apply Z.mul_pos_pos; [lia | apply pow2_pos; unfold ez; lia]).
  assert (Hpy : 0 < Zpos my * 2 ^ (ey - ez))
    by (apply Z.mul_pos_pos; [lia | apply pow2_pos; unfold ez; lia]).
  pose proof (Zdigits2_add (Zpos mx * 2 ^ (ex - ez)) (Zpos my * 2 ^ (ey - ez)) (B - ez)
                ltac:(lia) ltac:(lia) ltac:(unfold ez; lia) ltac:(lia) ltac:(lia)) as Hs.
  pose proof (Zdigits2_mono (Zpos my * 2 ^ (ey - ez))
                (Zpos mx * 2 ^ (ex - ez) + Zpos my * 2 ^ (ey - ez)) ltac:(lia)) as Hm.
  apply binary_normalize_above; unfold ez in *; lia.
Qed.

Lemma SFsqrt_below (x : spec_float) (B : Z) :
  SFbelow B x = true ->
  emin <= (B + 1) / 2 -> (B + 1) / 2 + 1 <= emax -> B <= emax - prec ->
  SFbelow ((B + 1) / 2 + 1) (SFsqrt prec emax x) = true.
Proof.
  intros Hx Hmin Hmax He.
  destruct x as [[|]| | |[|] mx ex]; try discriminate; cbn [SFsqrt]; [reflexivity|].
  cbn [SFbelow] in Hx. apply Z.leb_le in Hx.
  unfold SFsqrt_core_binary. rewrite !Z.div2_div. cbn [Zdigits2].
  set (d := Zpos (digits2_pos mx)) in *.
  set (e' := Z.min (fexp ((d + ex + 1) / 2)) (ex / 2)).
  assert (He' : 2 * e' <= ex).
  { pose proof (Z.div_mod ex 2 ltac:(lia)). pose proof (Z.mod_pos_bound ex 2 ltac:(lia)).
    unfold e'. lia. }
  set (s := ex - 2 * e').
  set (m' := match s with Zpos _ => Z.shiftl (Zpos mx) s | 0 => Zpos mx | Zneg _ => 0 end).
  assert (Hm' : m' = Zpos mx * 2 ^ s).
  { unfold m'. destruct s as [|p|p] eqn:Es; try lia.
    - now rewrite Z.shiftl_mul_pow2 by lia. }
  assert (Hdm : Zdigits2 m' = d + s)
    by (rewrite Hm'; rewrite Zdigits2_shl; unfold s; cbn [Zdigits2]; lia).
  assert (Hpos : 0 < m') by (rewrite Hm'; apply Z.mul_pos_pos; [lia | apply pow2_pos; unfold s; lia]).
  pose proof (Z.sqrtrem_sqrt m') as Hq.
  destruct (Z.sqrtrem m') as [q r]. cbn [fst] in Hq. subst q.
  pose proof (Zdigits2_sqrt m' ltac:(lia)) as Hds. rewrite Hdm in Hds.
  assert (Hhalf : (d + s + 1) / 2 + e' = (d + ex + 1) / 2).
  { unfold s. replace (d + (ex - 2 * e') + 1) with (d + ex + 1 + (- e') * 2) by lia.
    rewrite Z.div_add by lia. lia. }
  assert (Hmono : (d + ex + 1) / 2 <= (B + 1) / 2) by (apply Z.div_le_mono; lia).
  assert (Hexp : ex / 2 <= emax - prec).
  { assert (ex / 2 <= (emax - prec) / 1) by
      (rewrite Z.div_1_r; apply Z.div_le_upper_bound; unfold d in *; lia). now rewrite Z.div_1_r in H. }
  apply round_below; first [lia | apply Z.sqrt_nonneg | unfold e'; lia].
Qed.

Lemma SFdiv_below (x y : spec_float) (Bx L B : Z) :
  SFbelow Bx x = true -> SFabove L y = true ->
  Bx - L + 1 <= B -> emin <= B -> B + 1 <= emax ->
  SFbelow (B + 1) (SFdiv prec emax x y) = true.
Proof.
  intros Hx Hy HB Hmin Hmax.
  destruct x as [[|]| | |[|] mx ex]; try discriminate;
    destruct y as [[|]| | |[|] my ey]; try discriminate; cbn [SFdiv xorb]; [reflexivity|].
  cbn [SFbelow SFabove] in Hx, Hy. apply Z.leb_le in Hx, Hy.
  unfold SFdiv_core_binary. cbn [Zdigits2].
  set (d1 := Zpos (digits2_pos mx)) in *. set (d2 := Zpos (digits2_pos my)) in *.
  set (e' := Z.min (fexp (d1 + ex - (d2 + ey))) (ex - ey)).
  set (s := ex - ey - e').
  assert (Hs : 0 <= s) by (unfold s, e'; lia).
  set (m' := match s with Zpos _ => Z.shiftl (Zpos mx) s | 0 => Zpos mx | Zneg _ => 0 end).
  assert (Hm' : m' = Zpos mx * 2 ^ s).
  { unfold m'. destruct s as [|p|p] eqn:Es; try lia.
    - now rewrite Z.shiftl_mul_pow2 by lia. }
  assert (Hdm : Zdigits2 m' = d1 + s)
    by (rewrite Hm'; rewrite Zdigits2_shl; cbn [Zdigits2]; lia).
  assert (Hpos : 0 < m') by (rewrite Hm'; apply Z.mul_pos_pos; [lia | apply pow2_pos; lia]).
  pose proof (Zdigits2_div m' (Zpos my) ltac:(lia) ltac:(lia)) as Hdq.
  assert (Hq0 : 0 <= m' / Zpos my) by (apply Z.div_pos; lia).
  unfold Z.div in Hdq, Hq0.
  destruct (Z.div_eucl m' (Zpos my)) as [q r].
  rewrite Hdm in Hdq. cbn [Zdigits2] in Hdq. fold d2 in Hdq.
  apply round_below; try lia; unfold e', s, SpecFloat.fexp, SpecFloat.emin in *; lia.
Qed.

End RoundingBounds.

Lemma below_weaken (B B' : Z) (x : float) : B <= B' -> below B x = true -> below B' x = true.
Proof. apply SFbelow_weaken. Qed.

Lemma below_finite (B : Z) (x : float) :
  below B x = true -> is_finite x = true /\ (0 <=? x)%float = true.
Proof.
  unfold below, is_finite, is_nan, is_infinity. intros H.
  rewrite leb_spec, !eqb_spec, abs_spec. change (Prim2SF 0) with (S754_zero false).
  change (Prim2SF infinity) with (S754_infinity false).
  destruct (Prim2SF x) as [[|]| | |[|] m e]; try discriminate; [split; reflexivity|].
  unfold SFeqb, SFleb. cbn [SFabs SFcompare]. rewrite Z.compare_refl, Pos.compare_refl.
  split; reflexivity.
Qed.

Lemma num_below (n : nat) : below 64 (num n) = true.
Proof.
  unfold below, num. rewrite of_uint63_spec.
  pose proof (Uint63.to_Z_bounded (Uint63.of_Z (Z.of_nat n))) as [Hlo Hhi].
  change Uint63Axioms.wB with (2 ^ 63) in Hhi.
  apply (binary_normalize_below prec emax ltac:(reflexivity) ltac:(reflexivity) _ 0 63);
    try assumption; try (unfold SpecFloat.emin, prec, emax; lia).
  rewrite Z.add_0_r. apply Zdigits2_le_iff; [assumption | lia | assumption].
Qed.

Lemma mul_below (x y : float) (Bx By B : Z) :
  below Bx x = true -> below By y = true ->
  Bx + By <= B -> -1074 <= B -> B <= 971 ->
  below (B + 1) (x * y) = true.
Proof.
  intros Hx Hy HB Hmin Hmax. unfold below. rewrite mul_spec.
  apply (SFmul_below prec emax ltac:(reflexivity) ltac:(reflexivity) _ _ Bx By B);
    try assumption; unfold SpecFloat.emin, prec, emax; lia.
Qed.

Lemma add_below (x y : float) (B : Z) :
  below B x = true -> below B y = true -> -1075 <= B -> B <= 971 ->
  below (B + 2) (x + y) = true.
Proof.
  intros Hx Hy Hmin Hmax. unfold below. rewrite add_spec.
  apply (SFadd_below prec emax ltac:(reflexivity) ltac:(reflexivity));
    try assumption; unfold SpecFloat.emin, prec, emax; lia.
Qed.

Lemma add_above (x y : float) (B L : Z) :
  below B x = true -> below B y = true -> above L y = true -> B <= 971 ->
  above L (x + y) = true.
Proof.
  intros Hx Hy Ha Hmax. unfold above. rewrite add_spec.
  apply (SFadd_above prec emax ltac:(reflexivity) ltac:(reflexivity) _ _ B);
    try assumption; try apply Prim2SF_valid; unfold SpecFloat.emin, prec, emax; lia.
Qed.

Lemma sqrt_below (x : float) (B : Z) :
  below B x = true -> -2148 <= B -> B <= 971 ->
  below ((B + 1) / 2 + 1) (sqrt x) = true.
Proof.
  intros Hx Hmin Hmax. unfold below. rewrite sqrt_spec.
  assert (-1074 <= (B + 1) / 2) by (apply Z.div_le_lower_bound; lia).
  assert ((B + 1) / 2 <= 486) by (apply Z.div_le_upper_bound; lia).
  apply (SFsqrt_below prec emax ltac:(reflexivity) ltac:(reflexivity));
    try assumption; unfold SpecFloat.emin, prec, emax; lia.
Qed.

Lemma div_below (x y : float) (Bx L B : Z) :
  below Bx x = true -> above L y = true ->
  Bx - L + 1 <= B -> -1074 <= B -> B <= 1023 ->
  below (B + 1) (x / y) = true.
Proof.
  intros Hx Hy HB Hmin Hmax. unfold below. rewrite div_spec.
  apply (SFdiv_below prec emax ltac:(reflexivity) ltac:(reflexivity) _ _ Bx L);
    try assumption; unfold SpecFloat.emin, prec, emax; lia.
Qed.

(** The sum the loop of [dot] builds gains at most two binary digits per
    coordinate. *)
Lemma dot_from_below (a : list nat) :
  forall (b : list nat) (s : float) (B : Z),
    (List.length a <= List.length b)%nat ->
    below B s = true -> 129 <= B -> B + 2 * Z.of_nat (List.length a) <= 973 ->
    below (B + 2 * Z.of_nat (List.length a)) (dot_from s a b) = true.
Proof.
  induction a as [|x a IH]; intros b s B Hlen Hs HB Hmax.
  - cbn [dot_from List.length]. now rewrite Z.mul_0_r, Z.add_0_r.
  - destruct b as [|y b]; [simpl in Hlen; lia|].
    cbn [dot_from]. cbn [List.length] in *.
    replace (B + 2 * Z.of_nat (S (List.length a)))
      with (B + 2 + 2 * Z.of_nat (List.length a)) by lia.
    apply IH; try lia.
    apply add_below; try lia; [assumption|].
    apply below_weaken with (B := 128 + 1); [lia|].
    apply (mul_below _ _ 64 64); try lia; apply num_below.
Qed.

Lemma dot_below (a b : list nat) :
  (List.length a <= List.length b)%nat -> (List.length a <= 400)%nat ->
  below 929 (dot a b) = true.
Proof.
  intros Hlen Hcap. unfold dot.
  apply below_weaken with (B := 129 + 2 * Z.of_nat (List.length a)); [lia|].
  apply dot_from_below; try lia. reflexivity.
Qed.

Lemma norm_below (a : list nat) : (List.length a <= 400)%nat -> below 466 (norm a) = true.
Proof.
  intros Hcap. unfold norm.
  change 466 with ((929 + 1) / 2 + 1).
  apply sqrt_below; try lia. now apply dot_below.
Qed.

Lemma cosine_below (a b : list nat) :
  (List.length a <= List.length b)%nat -> (List.length b <= 400)%nat ->
  below 970 (cosine a b) = true.
Proof.
  intros Hlen Hcap. unfold cosine.
  assert (Hn : below 933 (norm a * norm b) = true).
  { apply (mul_below _ _ 466 466 932); try lia; apply norm_below; lia. }
  apply (div_below _ _ 929 (-39) 969); try lia.
  - apply dot_below; lia.
  - apply (add_above _ _ 933); try lia; try assumption; reflexivity.
Qed.

Lemma SFfinite_is_finite (x : float) : SFfinite (Prim2SF x) = true -> is_finite x = true.
Proof.
  unfold is_finite, is_nan, is_infinity. rewrite !eqb_spec, abs_spec.
  change (Prim2SF infinity) with (S754_infinity false).
  destruct (Prim2SF x) as [s| s| |s m e]; try discriminate; intros _.
  - now destruct s.
  - unfold SFeqb. cbn [SFabs SFcompare]. rewrite Z.compare_refl, Pos.compare_refl.
    now destruct s.
Qed.

(** A number equals neither NaN nor an infinity. *)
Lemma eqb_not_finite (x s : float) :
  is_finite x = true -> is_finite s = false -> (x =? s)%float = false.
Proof.
  intros Hx Hs. apply is_finite_SF in Hx.
  apply not_true_is_false. intros E. rewrite eqb_spec in E.
  assert (SFfinite (Prim2SF s) = true); [|apply SFfinite_is_finite in H; congruence].
  destruct (Prim2SF x) as [sx|sx| |sx mx ex]; try discriminate;
    destruct (Prim2SF s) as [ss|ss| |ss ms es]; try reflexivity;
    unfold SFeqb in E; cbn [SFcompare] in E; try discriminate;
    try (destruct sx; discriminate); destruct ss; discriminate.
Qed.

Lemma nan_add (x : float) : (nan + x)%float = nan /\ (x + nan)%float = nan.
Proof.
  split; apply Prim2SF_inj; rewrite add_spec; change (Prim2SF nan) with S754_nan;
    unfold SF64add; cbn [SFadd]; [reflexivity|].
  now destruct (Prim2SF x).
Qed.

Lemma nan_mul (x : float) : (x * nan)%float = nan.
Proof.
  apply Prim2SF_inj. rewrite mul_spec. change (Prim2SF nan) with S754_nan.
  unfold SF64mul. cbn [SFmul]. now destruct (Prim2SF x).
Qed.

Lemma nan_div (x : float) : (nan / x)%float = nan.
Proof.
  apply Prim2SF_inj. rewrite div_spec. change (Prim2SF nan) with S754_nan. reflexivity.
Qed.

Lemma dot_from_nan (a b : list nat) : dot_from nan a b = nan.
Proof.
  revert b. induction a as [|x a IH]; intros b; [reflexivity|].
  destruct b as [|y b]; cbn [dot_from]; rewrite (proj1 (nan_add _)); apply IH.
Qed.

Lemma dot_from_short (a : list nat) :
  forall (b : list nat) (s : float),
    (List.length b < List.length a)%nat -> dot_from s a b = nan.
Proof.
  induction a as [|x a IH]; intros b s Hlen; [simpl in Hlen; lia|].
  destruct b as [|y b]; cbn [dot_from].
  - rewrite nan_mul, (proj2 (nan_add _)). apply dot_from_nan.
  - apply IH. simpl in Hlen. lia.
Qed.

Lemma scored_below (store : VectorStore) (query : string) :
  store_ok store -> Forall (fun p => below 970 (snd p) = true) (scored store query).
Proof.
  intros [Hcap Hall]. unfold scored. apply Forall_forall. intros p Hp.
  apply in_map_iff in Hp as (d & <- & Hd). cbn [snd].
  rewrite Forall_forall in Hall. destruct (Hall d Hd) as [_ Hlen].
  apply cosine_below; rewrite ?tfvec_length; lia.
Qed.

(** The ranking of scored documents whose scores are numbers. *)
Lemma sort_by_score (l : list (EmbeddedDocument * float)) :
  Forall (fun p => is_finite (snd p) = true) l ->
  StronglySorted (fun a b => (snd b <=? snd a)%float = true) (JS.sort score_after l)
  /\ forall s, filter (with_score s) (JS.sort score_after l) = filter (with_score s) l.
Proof.
  intros Hfin.
  assert (Hin : forall p, In p (JS.sort score_after l) -> is_finite (snd p) = true).
  { intros p Hp. rewrite Forall_forall in Hfin. apply Hfin.
    now apply (proj1 (sort_In score_after _ _)). }
  split.
  - apply StronglySorted_weaken with (R := fun a b => score_after a b = false).
    + intros a b Ha Hb. rewrite (score_after_fkey a b (Hin a Ha) (Hin b Hb)).
      rewrite (leb_fkey _ _ (Hin b Hb) (Hin a Ha)), Z.ltb_ge, Z.leb_le. tauto.
    + apply (sort_sorted score_after (fun p => is_finite (snd p) = true)).
      * intros x y Hx Hy.
        rewrite (score_after_fkey x y Hx Hy), (score_after_fkey y x Hy Hx).
        rewrite Z.ltb_lt, Z.ltb_ge. lia.
      * intros x y z Hx Hy Hz.
        rewrite (score_after_fkey x y Hx Hy), (score_after_fkey y z Hy Hz),
          (score_after_fkey x z Hx Hz).
        rewrite !Z.ltb_ge. lia.
      * exact Hfin.
  - intros s. apply sort_tied. intros a b Ha Hb. unfold with_score.
    rewrite Forall_forall in Hfin.
    pose proof (Hfin a Ha) as Fa. pose proof (Hfin b Hb) as Fb.
    destruct (is_finite s) eqn:Hs.
    + rewrite (eqb_fkey _ _ Fa Hs), (eqb_fkey _ _ Fb Hs), (score_after_fkey a b Fa Fb).
      rewrite !Z.eqb_eq, Z.ltb_ge. lia.
    + rewrite (eqb_not_finite _ _ Fa Hs). discriminate.
Qed.

(** X12. For count vectors of at most 400 coordinates, the first no
    longer than the second, [cosine] is a number, neither NaN nor an
    infinity, and it is not negative. *)
Theorem cosine_is_a_number (a b : list nat) :
  (List.length a <= List.length b)%nat -> (List.length b <= 400)%nat ->
  is_finite (cosine a b) = true /\ (0 <=? cosine a b)%float = true.
Proof. intros Hlen Hcap. apply (below_finite 970). now apply cosine_below. Qed.

Lemma cosine_is_a_number_witness :
  is_finite (cosine [1; 0; 2]%nat [0; 3; 1]%nat) = true
  /\ (0 <=? cosine [1; 0; 2]%nat [0; 3; 1]%nat)%float = true.
Proof. apply cosine_is_a_number; simpl; lia. Defined.

(** X13. When the second vector is shorter than the first, [dot] reads
    past its end and [cosine] is NaN; the comparator of [retrieveTopK], a
    difference with that score, is then positive in neither direction. *)
Theorem cosine_short_embedding (a b : list nat) :
  (List.length b < List.length a)%nat ->
  cosine a b = nan /\ is_nan (cosine a b) = true
  /\ forall s : float, (0 <? s - cosine a b)%float = false /\ (0 <? cosine a b - s)%float = false.
Proof.
  intros Hlen. assert (E : cosine a b = nan).
  { unfold cosine, dot. rewrite dot_from_short by assumption. apply nan_div. }
  rewrite E. split; [reflexivity|]. split; [reflexivity|].
  intros s. rewrite !ltb_spec, !sub_spec. change (Prim2SF nan) with S754_nan.
  change (Prim2SF 0) with (S754_zero false). unfold SF64sub. cbn [SFsub].
  split; [now destruct (Prim2SF s) | reflexivity].
Qed.

Lemma cosine_short_embedding_witness : cosine [1; 2]%nat [3]%nat = nan.
Proof. apply cosine_short_embedding. simpl. lia. Defined.

(** X14. On the store after any series of indexing requests every
    similarity score is a number that is not negative, and for [k >= 0]
    [retrieveTopK] returns the first [k] documents, [min(k, docs.length)]
    of them, of the ranking by non-increasing score in which documents of
    equal score keep their storage order. *)
Theorem retrieval_ranks_indexed_documents
  (disks : list FileSystem) (query : string) (k : nat) :
  let store := store_after disks in
  Forall (fun p => is_finite (snd p) = true /\ (0 <=? snd p)%float = true)
    (scored store query)
  /\ exists ranked,
       Permutation ranked (scored store query)
       /\ StronglySorted (fun a b => (snd b <=? snd a)%float = true) ranked
       /\ (forall s, filter (with_score s) ranked = filter (with_score s) (scored store query))
       /\ retrieveTopK store query (Z.of_nat k) = firstn k (map fst ranked)
       /\ List.length (retrieveTopK store query (Z.of_nat k))
          = Nat.min k (List.length (docs store)).
Proof.
  cbv zeta. pose proof (scored_below _ query (store_after_ok disks)) as Hb.
  assert (Hfin : Forall (fun p => is_finite (snd p) = true)
                   (scored (store_after disks) query)).
  { revert Hb. apply Forall_impl. intros p Hp. now apply (below_finite 970). }
  split.
  - revert Hb. apply Forall_impl. intros p Hp. now apply (below_finite 970).
  - exists (JS.sort score_after (scored (store_after disks) query)).
    destruct (sort_by_score _ Hfin) as [Hsorted Hties].
    split; [apply sort_perm|]. split; [exact Hsorted|]. split; [exact Hties|].
    assert (E : retrieveTopK (store_after disks) query (Z.of_nat k)
                = firstn k (map fst (JS.sort score_after (scored (store_after disks) query)))).
    { rewrite retrieveTopK_eq, slice0_firstn by lia. rewrite Nat2Z.id. symmetry. apply firstn_map. }
    split; [exact E|].
    rewrite E, length_firstn, length_map, sort_length, scored_length. reflexivity.
Qed.

(* ----------------------------------------------------------------- *)
(** ** Doubles: the sign of a score

    Lower bounds for the product, the sum and the quotient, away from
    underflow: a score is positive as soon as one coordinate is positive
    in both vectors, and it is zero otherwise. *)

Lemma Zdigits2_mul_ge (a b : Z) :
  0 < a -> 0 < b -> Zdigits2 a + Zdigits2 b - 1 <= Zdigits2 (a * b).
Proof.
  intros Ha Hb. pose proof (Zdigits2_pos a Ha) as Hda. pose proof (Zdigits2_pos b Hb) as Hdb.
  pose proof (Zdigits2_ge_pow a Ha) as Hla. pose proof (Zdigits2_ge_pow b Hb) as Hlb.
  apply Zdigits2_ge_iff; [ | lia | ].
  - apply Z.mul_nonneg_nonneg; lia.
  - replace (Zdigits2 a + Zdigits2 b - 1 - 1) with ((Zdigits2 a - 1) + (Zdigits2 b - 1)) by lia.
    rewrite Z.pow_add_r by lia.
    apply Z.mul_le_mono_nonneg; try assumption; apply Z.lt_le_incl, pow2_pos; lia.
Qed.

Lemma Zdigits2_div_ge (a b : Z) :
  0 <= a -> 0 < b -> Zdigits2 b <= Zdigits2 a - 1 ->
  Zdigits2 a - Zdigits2 b <= Zdigits2 (a / b).
Proof.
  intros Ha0 Hb Hd. pose proof (Zdigits2_pos b Hb) as Hdb.
  assert (Ha : 0 < a) by (destruct a; simpl in Hd; lia).
  pose proof (Zdigits2_ge_pow a Ha) as Hla. pose proof (Zdigits2_lt_pow b ltac:(lia)) as Hub.
  apply Zdigits2_ge_iff; [apply Z.div_pos; lia | lia |].
  apply Z.div_le_lower_bound; [lia|].
  set (k := Zdigits2 a - Zdigits2 b - 1). assert (Hk : 0 <= k) by (unfold k; lia).
  pose proof (pow2_pos k Hk) as Hp.
  assert (E : 2 ^ (Zdigits2 a - 1) = 2 ^ Zdigits2 b * 2 ^ k)
    by (rewrite <- Z.pow_add_r by lia; f_equal; unfold k; lia).
  assert (b * 2 ^ k <= 2 ^ Zdigits2 b * 2 ^ k) by (apply Z.mul_le_mono_nonneg_r; lia).
  lia.
Qed.

Section LowerBounds.
Variables prec emax : Z.
Hypothesis prec_pos : 0 < prec.
Hypothesis prec_lt_emax : prec < emax.

Abbreviation emin := (SpecFloat.emin prec emax).
Abbreviation fexp := (SpecFloat.fexp prec emax).

(** The product of two positive doubles, away from underflow and
    overflow, is positive. *)
Lemma SFmul_above (x y : spec_float) (Lx Ly Bx By : Z) :
  SpecFloat.valid_binary prec emax x = true -> SpecFloat.valid_binary prec emax y = true ->
  SFabove Lx x = true -> SFabove Ly y = true ->
  SFbelow Bx x = true -> SFbelow By y = true ->
  emin <= Lx + Ly - 2 * prec -> Bx + By + 1 <= emax -> Bx + By <= emax - prec ->
  SFabove (Lx + Ly - 1) (SFmul prec emax x y) = true.
Proof.
  intros Vx Vy Ax Ay Hx Hy Hmin Hmax He.
  destruct x as [[|]| | |[|] mx ex]; try discriminate;
    destruct y as [[|]| | |[|] my ey]; try discriminate. cbn [SFmul xorb].
  cbn [SFbelow SFabove] in *. apply Z.leb_le in Ax, Ay, Hx, Hy.
  cbn [SpecFloat.valid_binary] in Vx, Vy.
  apply bounded_canonical in Vx as (_ & Vx & _). apply bounded_canonical in Vy as (_ & Vy & _).
  pose proof (Zdigits2_mul (Zpos mx) (Zpos my) ltac:(lia) ltac:(lia)) as Hd.
  pose proof (Zdigits2_mul_ge (Zpos mx) (Zpos my) ltac:(lia) ltac:(lia)) as Hd'.
  rewrite <- Pos2Z.inj_mul in Hd, Hd'. cbn [Zdigits2] in Hd, Hd'.
  apply (round_above prec emax prec_pos prec_lt_emax); cbn [Zdigits2]; lia.
Qed.

(** Adding a number that is not negative to a positive one. *)
Lemma SFadd_above_l (x y : spec_float) (B L : Z) :
  SpecFloat.valid_binary prec emax x = true -> SpecFloat.valid_binary prec emax y = true ->
  SFbelow B x = true -> SFbelow B y = true -> SFabove L x = true ->
  B + 2 <= emax -> B <= emax - prec ->
  SFabove L (SFadd prec emax x y) = true.
Proof.
  intros Vx Vy Hx Hy Ha Hmax He.
  destruct x as [[|]| | |[|] mx ex]; try discriminate;
    destruct y as [[|]| | |[|] my ey]; try discriminate; cbn [SFadd cond_Zopp];
    try assumption.
  cbn [SFbelow SFabove] in Hx, Hy, Ha. apply Z.leb_le in Hx, Hy, Ha.
  cbn [SpecFloat.valid_binary] in Vx, Vy.
  apply bounded_canonical in Vx as (Vx & _). apply bounded_canonical in Vy as (Vy & _).
  set (ez := Z.min ex ey).
  rewrite !shl_align_fst by (unfold ez; lia).
  assert (Hdx : Zdigits2 (Zpos mx * 2 ^ (ex - ez)) = Zpos (digits2_pos mx) + (ex - ez))
    by (apply Zdigits2_shl; unfold ez; lia).
  assert (Hdy : Zdigits2 (Zpos my * 2 ^ (ey - ez)) = Zpos (digits2_pos my) + (ey - ez))
    by (apply Zdigits2_shl; unfold ez; lia).
  assert (Hpx : 0 < Zpos mx * 2 ^ (ex - ez))
    by (apply Z.mul_pos_pos; [lia | apply pow2_pos; unfold ez; lia]).
  assert (Hpy : 0 < Zpos my * 2 ^ (ey - ez))
    by (apply Z.mul_pos_pos; [lia | apply pow2_pos; unfold ez; lia]).
  pose proof (Zdigits2_add (Zpos mx * 2 ^ (ex - ez)) (Zpos my * 2 ^ (ey - ez)) (B - ez)
                ltac:(lia) ltac:(lia) ltac:(unfold ez; lia) ltac:(lia) ltac:(lia)) as Hs.
  pose proof (Zdigits2_mono (Zpos mx * 2 ^ (ex - ez))
                (Zpos mx * 2 ^ (ex - ez) + Zpos my * 2 ^ (ey - ez)) ltac:(lia)) as Hm.
  apply (binary_normalize_above prec emax prec_pos prec_lt_emax); unfold ez in *; lia.
Qed.

(** The quotient of two positive doubles, away from underflow and
    overflow, is positive. *)
Lemma SFdiv_above (x y : spec_float) (Lx Bx Ly By : Z) :
  SpecFloat.valid_binary prec emax x = true -> SpecFloat.valid_binary prec emax y = true ->
  SFabove Lx x = true -> SFbelow Bx x = true ->
  SFabove Ly y = true -> SFbelow By y = true ->
  emin <= Lx - By - prec -> Bx - Ly + 2 <= emax ->
  SFabove (Lx - By) (SFdiv prec emax x y) = true.
Proof.
  intros Vx Vy Ax Hx Ay Hy Hmin Hmax.
  destruct x as [[|]| | |[|] mx ex]; try discriminate;
    destruct y as [[|]| | |[|] my ey]; try discriminate. cbn [SFdiv xorb].
  cbn [SFbelow SFabove] in *. apply Z.leb_le in Ax, Ay, Hx, Hy.
  cbn [SpecFloat.valid_binary] in Vx, Vy.
  apply bounded_canonical in Vx as (_ & Vx & _). apply bounded_canonical in Vy as (_ & Vy & _).
  unfold SFdiv_core_binary. cbn [Zdigits2].
  set (d1 := Zpos (digits2_pos mx)) in *. set (d2 := Zpos (digits2_pos my)) in *.
  assert (Hd1 : 1 <= d1) by (unfold d1; lia). assert (Hd2 : 1 <= d2) by (unfold d2; lia).
  set (e' := Z.min (fexp (d1 + ex - (d2 + ey))) (ex - ey)).
  assert (He' : e' = d1 + ex - (d2 + ey) - prec)
    by (unfold e', SpecFloat.fexp, SpecFloat.emin in *; lia).
  clearbody e'.
  set (s := ex - ey - e').
  assert (Hs : s = prec + d2 - d1) by (unfold s; lia).
  clearbody s.
  set (m' := match s with Zpos _ => Z.shiftl (Zpos mx) s | 0 => Zpos mx | Zneg _ => 0 end).
  assert (Hm' : m' = Zpos mx * 2 ^ s).
  { unfold m'. destruct s as [|p|p] eqn:Es; try lia.
    now rewrite Z.shiftl_mul_pow2 by lia. }
  clearbody m'.
  assert (Hdm : Zdigits2 m' = d1 + s)
    by (rewrite Hm'; rewrite Zdigits2_shl; cbn [Zdigits2]; lia).
  assert (Hpos : 0 < m') by (rewrite Hm'; apply Z.mul_pos_pos; [lia | apply pow2_pos; lia]).
  pose proof (Zdigits2_div m' (Zpos my) ltac:(lia) ltac:(lia)) as Hdq.
  pose proof (Zdigits2_div_ge m' (Zpos my) ltac:(lia) ltac:(lia)) as Hdq'.
  cbn [Zdigits2] in Hdq, Hdq'. fold d2 in Hdq, Hdq'. rewrite Hdm in Hdq, Hdq'.
  specialize (Hdq' ltac:(lia)).
  assert (Hq0 : 0 <= m' / Zpos my) by (apply Z.div_pos; lia).
  assert (Hq1 : m' / Zpos my <> 0)
    by (intros E; rewrite E in Hdq'; cbn [Zdigits2] in Hdq'; lia).
  unfold Z.div in Hdq, Hdq', Hq0, Hq1.
  destruct (Z.div_eucl m' (Zpos my)) as [q r].
  apply (round_above prec emax prec_pos prec_lt_emax); try lia;
    unfold SpecFloat.emin in *; lia.
Qed.

End LowerBounds.

Lemma above_positive (L : Z) (x : float) : above L x = true -> (0 <? x)%float = true.
Proof.
  unfold above. rewrite ltb_spec. change (Prim2SF 0) with (S754_zero false).
  destruct (Prim2SF x) as [s|s| |[|] m e]; try discriminate. reflexivity.
Qed.

Lemma num_above (n : nat) : (1 <= n)%nat -> Z.of_nat n < 2 ^ 63 -> above 1 (num n) = true.
Proof.
  intros Hn Hlt. unfold above, num. rewrite of_uint63_spec, Uint63.of_Z_spec.
  change Uint63Axioms.wB with (2 ^ 63). rewrite Z.mod_small by lia.
  apply (binary_normalize_above prec emax ltac:(reflexivity) ltac:(reflexivity));
    try (unfold SpecFloat.emin, prec, emax; lia).
  - rewrite Z.add_0_r.
    assert (Zdigits2 (Z.of_nat n) <= 63) by (apply Zdigits2_le_iff; lia).
    unfold emax. lia.
  - rewrite Z.add_0_r. apply Zdigits2_pos. lia.
Qed.

Lemma mul_above (x y : float) (Lx Ly Bx By : Z) :
  above Lx x = true -> above Ly y = true -> below Bx x = true -> below By y = true ->
  -968 <= Lx + Ly -> Bx + By <= 971 ->
  above (Lx + Ly - 1) (x * y) = true.
Proof.
  intros Ax Ay Hx Hy Hmin Hmax. unfold above. rewrite mul_spec.
  apply (SFmul_above prec emax ltac:(reflexivity) ltac:(reflexivity) _ _ Lx Ly Bx By);
    try assumption; try apply Prim2SF_valid; unfold SpecFloat.emin, prec, emax; lia.
Qed.

Lemma add_above_l (x y : float) (B L : Z) :
  below B x = true -> below B y = true -> above L x = true -> B <= 971 ->
  above L (x + y) = true.
Proof.
  intros Hx Hy Ha Hmax. unfold above. rewrite add_spec.
  apply (SFadd_above_l prec emax ltac:(reflexivity) ltac:(reflexivity) _ _ B);
    try assumption; try apply Prim2SF_valid; unfold SpecFloat.emin, prec, emax; lia.
Qed.

Lemma div_above (x y : float) (Lx Bx Ly By : Z) :
  above Lx x = true -> below Bx x = true -> above Ly y = true -> below By y = true ->
  -1021 <= Lx - By -> Bx - Ly <= 1022 ->
  above (Lx - By) (x / y) = true.
Proof.
  intros Ax Hx Ay Hy Hmin Hmax. unfold above. rewrite div_spec.
  apply (SFdiv_above prec emax ltac:(reflexivity) ltac:(reflexivity) _ _ Lx Bx Ly By);
    try assumption; try apply Prim2SF_valid; unfold SpecFloat.emin, prec, emax; lia.
Qed.

Lemma mul_zero (x y : float) (B : Z) :
  below B x = true -> below B y = true -> x = 0%float \/ y = 0%float -> (x * y)%float = 0%float.
Proof.
  unfold below. intros Hx Hy H. apply Prim2SF_inj. rewrite mul_spec.
  change (Prim2SF 0) with (S754_zero false). unfold SF64mul.
  destruct H as [-> | ->]; change (Prim2SF 0) with (S754_zero false).
  - destruct (Prim2SF y) as [[|]| | |[|] m e]; try discriminate; reflexivity.
  - destruct (Prim2SF x) as [[|]| | |[|] m e]; try discriminate; reflexivity.
Qed.

Lemma add_zero_r (s : float) (B : Z) : below B s = true -> (s + 0)%float = s.
Proof.
  unfold below. intros Hs. apply Prim2SF_inj. rewrite add_spec.
  change (Prim2SF 0) with (S754_zero false). unfold SF64add.
  destruct (Prim2SF s) as [[|]| | |[|] m e]; try discriminate; reflexivity.
Qed.

Lemma div_zero (y : float) (L : Z) : above L y = true -> (0 / y)%float = 0%float.
Proof.
  unfold above. intros Hy. apply Prim2SF_inj. rewrite div_spec.
  change (Prim2SF 0) with (S754_zero false). unfold SF64div.
  destruct (Prim2SF y) as [[|]| | |[|] m e]; try discriminate; reflexivity.
Qed.

(** Coordinates in which one of the counts is zero add nothing. *)
Lemma dot_from_disjoint (a : list nat) :
  forall (b : list nat) (s : float) (B : Z),
    (List.length a <= List.length b)%nat ->
    below B s = true ->
    ~ Exists both_positive (combine a b) ->
    dot_from s a b = s.
Proof.
  induction a as [|x a IH]; intros b s B Hlen Hs Hno; [reflexivity|].
  destruct b as [|y b]; [simpl in Hlen; lia|]. cbn [dot_from combine] in *.
  assert (Hz : (num x * num y)%float = 0%float).
  { apply (mul_zero _ _ 64); try apply num_below.
    destruct x as [|x]; [left; reflexivity|]. destruct y as [|y]; [right; reflexivity|].
    exfalso. apply Hno. left. split; cbn; lia. }
  rewrite Hz, (add_zero_r s B Hs).
  apply (IH b s B); [simpl in Hlen; lia | assumption |].
  intros H. apply Hno. now right.
Qed.

(** A positive sum stays positive. *)
Lemma dot_from_above (a : list nat) :
  forall (b : list nat) (s : float) (B L : Z),
    (List.length a <= List.length b)%nat ->
    below B s = true -> above L s = true ->
    129 <= B -> B + 2 * Z.of_nat (List.length a) <= 973 ->
    above L (dot_from s a b) = true.
Proof.
  induction a as [|x a IH]; intros b s B L Hlen Hs Ha HB Hmax; [exact Ha|].
  destruct b as [|y b]; [simpl in Hlen; lia|]. cbn [dot_from]. cbn [List.length] in *.
  assert (Hp : below B (num x * num y) = true).
  { apply below_weaken with (B := 128 + 1); [lia|].
    apply (mul_below _ _ 64 64); try lia; apply num_below. }
  apply (IH b _ (B + 2)); try lia.
  - apply add_below; try lia; assumption.
  - apply (add_above_l _ _ B); try lia; assumption.
Qed.

Lemma dot_from_hit (a : list nat) :
  forall (b : list nat) (s : float) (B : Z),
    (List.length a <= List.length b)%nat ->
    small_counts a -> small_counts b ->
    below B s = true ->
    129 <= B -> B + 2 * Z.of_nat (List.length a) <= 973 ->
    Exists both_positive (combine a b) ->
    above 1 (dot_from s a b) = true.
Proof.
  induction a as [|x a IH]; intros b s B Hlen Sa Sb Hs HB Hmax Hex;
    [inversion Hex|].
  destruct b as [|y b]; [simpl in Hlen; lia|]. cbn [dot_from combine] in *.
  cbn [List.length] in *.
  inversion Sa as [|? ? Sx Sa']; subst. inversion Sb as [|? ? Sy Sb']; subst.
  assert (Hp : below B (num x * num y) = true).
  { apply below_weaken with (B := 128 + 1); [lia|].
    apply (mul_below _ _ 64 64); try lia; apply num_below. }
  assert (Hs' : below (B + 2) (s + num x * num y) = true)
    by (apply add_below; try lia; assumption).
  inversion Hex as [? ? [Hx Hy] | ? ? Hex']; subst.
  - cbn [fst snd] in Hx, Hy.
    apply (dot_from_above a b _ (B + 2) 1); try lia; try assumption.
    apply (add_above _ _ B); try lia; try assumption.
    change 1 with (1 + 1 - 1).
    apply (mul_above _ _ 1 1 64 64); try lia;
      try apply num_below; now apply num_above.
  - apply (IH b _ (B + 2)); try lia; assumption.
Qed.

(** The sign of the score: positive when some coordinate is positive in
    both vectors, zero otherwise. *)
Lemma cosine_sign (a b : list nat) :
  (List.length a <= List.length b)%nat -> (List.length b <= 400)%nat ->
  small_counts a -> small_counts b ->
  (Exists both_positive (combine a b) -> (0 <? cosine a b)%float = true)
  /\ (~ Exists both_positive (combine a b) -> cosine a b = 0%float).
Proof.
  intros Hlen Hcap Sa Sb.
  assert (Hn : below 933 (norm a * norm b) = true).
  { apply (mul_below _ _ 466 466 932); try lia; apply norm_below; lia. }
  assert (Hden : above (-39) (norm a * norm b + 0x1.19799812dea11p-40) = true
                 /\ below 935 (norm a * norm b + 0x1.19799812dea11p-40) = true).
  { split.
    - apply (add_above _ _ 933); try lia; try assumption; reflexivity.
    - apply (add_below _ _ 933); try lia; try assumption; reflexivity. }
  destruct Hden as [Hlo Hhi]. split.
  - intros Hex. unfold cosine.
    apply (above_positive (1 - 935)).
    apply (div_above _ _ 1 929 (-39) 935); try lia; try assumption.
    + unfold dot. apply (dot_from_hit a b 0 129); try lia; try assumption. reflexivity.
    + apply dot_below; lia.
  - intros Hno. unfold cosine, dot.
    rewrite (dot_from_disjoint a b 0 129); try lia; try assumption; [|reflexivity].
    now apply (div_zero _ (-39)).
Qed.

Local Close Scope Z_scope.

Lemma StronglySorted_app_inv {A : Type} (R : A -> A -> Prop) (l1 l2 : list A) :
  StronglySorted R (l1 ++ l2) ->
  StronglySorted R l1 /\ forall x y, In x l1 -> In y l2 -> R x y.
Proof.
  induction l1 as [|a l1 IH]; cbn [app]; intros H.
  - split; [constructor | intros x y []].
  - inversion H as [|? ? Hs Hall]; subst. destruct (IH Hs) as [H1 H2]. split.
    + constructor; [exact H1|]. rewrite Forall_forall in *. intros x Hx.
      apply Hall, in_or_app. now left.
    + intros x y [<- | Hx] Hy; [|now apply H2].
      rewrite Forall_forall in Hall. apply Hall, in_or_app. now right.
Qed.

Lemma tfvec_small (txt : string) (vocabulary : list string) :
  (Z.of_nat (List.length (toks txt)) < 2 ^ 63)%Z -> small_counts (tfvec txt vocabulary).
Proof.
  intros H. unfold small_counts. rewrite tfvec_occurrences. apply Forall_forall.
  intros n Hn. apply in_map_iff in Hn as (w & <- & _).
  pose proof (count_occ_bound string_dec w (toks txt)). unfold occurrences. lia.
Qed.

Lemma both_positive_shares (vocabulary : list string) (query txt : string) :
  Exists both_positive (combine (tfvec query vocabulary) (tfvec txt vocabulary))
  <-> shares_term vocabulary query txt.
Proof.
  rewrite !tfvec_occurrences. unfold shares_term. induction vocabulary as [|w V IH].
  - split; [intros H; inversion H | intros (w & [] & _)].
  - cbn [map combine]. rewrite Exists_cons, IH. unfold both_positive at 1. cbn [fst snd].
    unfold occurrences. split.
    + intros [[Hq Ht] | (x & Hx & Hq & Ht)].
      * exists w. split; [now left|]. split; apply (count_occ_In string_dec); lia.
      * exists x. split; [now right | now split].
    + intros (x & [<- | Hx] & Hq & Ht).
      * left. apply (count_occ_In string_dec) in Hq, Ht. lia.
      * right. now exists x.
Qed.

Lemma both_positive_dec (l : list (nat * nat)) :
  {Exists both_positive l} + {~ Exists both_positive l}.
Proof.
  apply Exists_dec. intros [x y]. unfold both_positive. cbn [fst snd].
  destruct (le_dec 1 x); destruct (le_dec 1 y); try (left; now split); right; tauto.
Qed.

(** The score of a stored document against a query is positive when they
    share a term of the vocabulary and zero when they do not. *)
Lemma scored_sign (store : VectorStore) (query : string) :
  store_ok store ->
  (Z.of_nat (List.length (toks query)) < 2 ^ 63)%Z ->
  Forall (fun d => (Z.of_nat (List.length (toks (etext d))) < 2 ^ 63)%Z) (docs store) ->
  Forall (fun p => ((0 <? snd p)%float = true
                    <-> shares_term (vocab store) query (etext (fst p)))
                   /\ (~ shares_term (vocab store) query (etext (fst p))
                       -> snd p = 0%float))
    (scored store query).
Proof.
  intros [Hcap Hall] Hq Hd. unfold scored. apply Forall_forall. intros p Hp.
  apply in_map_iff in Hp as (d & <- & Hin). cbn [fst snd].
  rewrite Forall_forall in Hall, Hd. destruct (Hall d Hin) as [He Hlen].
  rewrite He. rewrite <- both_positive_shares.
  destruct (cosine_sign (tfvec query (vocab store)) (tfvec (etext d) (vocab store)))
    as [Hpos Hzero]; rewrite ?tfvec_length; try lia;
    try (apply tfvec_small; auto).
  split; [split|]; [|exact Hpos | exact Hzero].
  intros H.
  destruct (both_positive_dec (combine (tfvec query (vocab store))
                                 (tfvec (etext d) (vocab store)))) as [Hex | Hno];
    [exact Hex|].
  rewrite (Hzero Hno) in H. discriminate.
Qed.

(** X15. Retrieval prefers the documents that share a term with the
    query.  On the store after any series of indexing requests, when the
    query and the stored texts have fewer than 2^63 tokens (every
    JavaScript string has), the score of a document is positive when it
    shares a term of the vocabulary with the query and zero when it shares
    none; in the result of [retrieveTopK] the documents that share a term
    come before those that do not, and a document that shares none is
    returned only when every stored document that shares one is returned
    too. *)
Theorem matching_documents_rank_first
  (disks : list FileSystem) (query : string) (k : nat) :
  let store := store_after disks in
  let matches := fun d => shares_term (vocab store) query (etext d) in
  let result := retrieveTopK store query (Z.of_nat k) in
  (Z.of_nat (List.length (toks query)) < 2 ^ 63)%Z ->
  Forall (fun d => (Z.of_nat (List.length (toks (etext d))) < 2 ^ 63)%Z) (docs store) ->
  Forall (fun p => ((0 <? snd p)%float = true <-> matches (fst p))
                   /\ (~ matches (fst p) -> snd p = 0%float))
    (scored store query)
  /\ StronglySorted (fun d d' => matches d' -> matches d) result
  /\ (forall d d', In d result -> ~ matches d ->
                   In d' (docs store) -> matches d' -> In d' result).
Proof.
  cbv zeta. intros Hq Hd.
  pose proof (scored_sign _ query (store_after_ok disks) Hq Hd) as Hsign.
  split; [exact Hsign|].
  set (store := store_after disks) in *. set (l := scored store query) in *.
  pose proof (scored_below store query (store_after_ok disks)) as Hb. fold l in Hb.
  assert (Hfin : Forall (fun p => is_finite (snd p) = true) l).
  { revert Hb. apply Forall_impl. intros p Hp. now apply (below_finite 970). }
  destruct (sort_by_score l Hfin) as [Hsorted _].
  set (ranked := JS.sort score_after l) in *.
  assert (Hin : forall p, In p ranked -> In p l)
    by (intros p; apply (proj1 (sort_In score_after l p))).
  set (R := fun a b : EmbeddedDocument * float =>
              shares_term (vocab store) query (etext (fst b))
              -> shares_term (vocab store) query (etext (fst a))).
  assert (HR : StronglySorted R ranked).
  { revert Hsorted. apply StronglySorted_weaken. intros a b Ha Hb' Hle. unfold R.
    rewrite Forall_forall in Hsign, Hfin.
    destruct (Hsign a (Hin a Ha)) as [Sa _]. destruct (Hsign b (Hin b Hb')) as [Sb _].
    intros Hm. apply Sa. apply Sb in Hm.
    pose proof (Hfin a (Hin a Ha)) as Fa. pose proof (Hfin b (Hin b Hb')) as Fb.
    assert (F0 : is_finite 0%float = true) by reflexivity.
    rewrite (ltb_fkey 0%float (snd b) F0 Fb) in Hm. rewrite (ltb_fkey 0%float (snd a) F0 Fa).
    rewrite (leb_fkey _ _ Fb Fa) in Hle.
    apply Z.ltb_lt in Hm. apply Z.leb_le in Hle. apply Z.ltb_lt. lia. }
  assert (E : retrieveTopK store query (Z.of_nat k) = map fst (firstn k ranked)).
  { rewrite retrieveTopK_eq, slice0_firstn by lia. now rewrite Nat2Z.id. }
  rewrite E. rewrite <- (firstn_skipn k ranked) in HR.
  apply StronglySorted_app_inv in HR as [H1 H2]. split.
  - apply StronglySorted_map with (R := fun d d' =>
      shares_term (vocab store) query (etext d') -> shares_term (vocab store) query (etext d)).
    exact H1.
  - intros d d' Hdin Hno Hd' Hm.
    apply in_map_iff in Hdin as (x & <- & Hx).
    assert (Hp : In (d', cosine (tfvec query (vocab store)) (embedding d')) ranked).
    { apply (proj2 (sort_In score_after l _)). unfold l, scored. apply in_map_iff.
      now exists d'. }
    rewrite <- (firstn_skipn k ranked) in Hp. apply in_app_or in Hp as [Hp | Hp].
    + apply in_map_iff. now exists (d', cosine (tfvec query (vocab store)) (embedding d')).
    + exfalso. apply Hno. exact (H2 x _ Hx Hp Hm).
Qed.

Lemma matching_documents_witness :
  StronglySorted
    (fun d d' => shares_term (vocab (store_after [sample_disk])) "stress" (etext d')
                 -> shares_term (vocab (store_after [sample_disk])) "stress" (etext d))
    (retrieveTopK (store_after [sample_disk]) "stress" (Z.of_nat 1)).
Proof.
  assert (Hq : (Z.of_nat (List.length (toks "stress")) < 2 ^ 63)%Z)
    by (vm_compute; reflexivity).
  assert (Hd : Forall (fun d => (Z.of_nat (List.length (toks (etext d))) < 2 ^ 63)%Z)
                 (docs (store_after [sample_disk]))).
  { apply Forall_forall. intros d Hd. vm_compute in Hd.
    destruct Hd as [<- | [<- | []]]; vm_compute; reflexivity. }
  pose proof (matching_documents_rank_first [sample_disk] "stress" 1 Hq Hd) as H.
  cbv zeta in H. destruct H as (_ & H & _). exact H.
Defined.

(* ----------------------------------------------------------------- *)
(** ** The reply of a provider *)

Lemma trimStart_spec (s : string) :
  exists pre, s = pre +++ JS.trimStart s
              /\ all_units JS.isSpace pre = true
              /\ space_at (first_unit (JS.trimStart s)) = false.
Proof.
  induction s as [|c s (pre & E & Hpre & Hfirst)].
  - exists "". repeat split.
  - cbn [JS.trimStart]. destruct (JS.isSpace c) eqn:Hc.
    + exists (String c pre). cbn [String.append all_units]. rewrite Hc, Hpre, <- E.
      repeat split. exact Hfirst.
    + exists "". cbn [String.append all_units first_unit space_at]. repeat split. exact Hc.
Qed.

Lemma trimEnd_spec (s : string) :
  exists post, s = JS.trimEnd s +++ post
               /\ all_units JS.isSpace post = true
               /\ space_at (last_unit (JS.trimEnd s)) = false
               /\ (space_at (first_unit s) = false ->
                   first_unit (JS.trimEnd s) = first_unit s).
Proof.
  induction s as [|c s (post & E & Hpost & Hlast & _)].
  - exists "". repeat split.
  - cbn [JS.trimEnd]. destruct (JS.trimEnd s) as [|d t] eqn:T.
    + cbn [String.append] in E. subst post. destruct (JS.isSpace c) eqn:Hc.
      * exists (String c s). cbn [String.append all_units first_unit space_at].
        rewrite Hc, Hpost. repeat split. discriminate.
      * exists s. cbn [String.append last_unit space_at first_unit]. rewrite Hc.
        repeat split. exact Hpost.
    + exists post. cbn [String.append first_unit] in E |- *. rewrite <- E.
      split; [reflexivity|]. split; [exact Hpost|]. split; [|reflexivity].
      cbn [last_unit]. exact Hlast.
Qed.

Lemma trim_spec (s : string) :
  exists pre post,
    s = pre +++ JS.trim s +++ post
    /\ all_units JS.isSpace pre = true /\ all_units JS.isSpace post = true
    /\ space_at (first_unit (JS.trim s)) = false
    /\ space_at (last_unit (JS.trim s)) = false.
Proof.
  unfold JS.trim. destruct (trimStart_spec s) as (pre & E1 & Hpre & Hfirst).
  destruct (trimEnd_spec (JS.trimStart s)) as (post & E2 & Hpost & Hlast & Hkeep).
  exists pre, post. rewrite <- E2, <- E1.
  split; [reflexivity|]. split; [exact Hpre|]. split; [exact Hpost|].
  split; [now rewrite (Hkeep Hfirst) | exact Hlast].
Qed.

(** X16. When a provider returns a text, the reply of the chat response
    is that text without its leading and trailing white space: the text is
    the reply with white space before and after it, and the reply neither
    starts nor ends with a white-space unit. *)
Theorem generated_reply_is_trimmed
  (cfg : Config) (net : World) (message text : string) (st st' : State)
  (calls : list Provider) :
  JS.truthy message = true ->
  checkEmergency message = false ->
  generateWithRotation cfg net
    (buildPrompt (retrieveTopK (vectorStore st) message 3) message) 3 st
  = (Returned text, st', calls) ->
  exists reply booking before after,
    fst (fst (api_chat cfg net (Some message) st)) = ok (Chat reply false booking)
    /\ text = before +++ reply +++ after
    /\ all_units JS.isSpace before = true /\ all_units JS.isSpace after = true
    /\ space_at (first_unit reply) = false
    /\ space_at (last_unit reply) = false.
Proof.
  intros Hm He Hg. unfold api_chat. rewrite Hm, He. cbn [negb].
  destruct (providers cfg) as [|p0 ps] eqn:E.
  - unfold generateWithRotation in Hg. rewrite E in Hg. discriminate.
  - rewrite Hg. cbn [fst].
    destruct (trim_spec text) as (before & after & Ht & Hb & Ha & Hf & Hl).
    exists (JS.trim text), (if booking_intent message then Some (BOOKING_LINK cfg) else None),
      before, after.
    repeat split; assumption.
Qed.

Lemma generated_reply_is_trimmed_witness :
  exists reply booking before after,
    fst (fst (api_chat sample_cfg answering (Some "hello") sample_state))
    = ok (Chat reply false booking)
    /\ "  I hear you.  " = before +++ reply +++ after
    /\ all_units JS.isSpace before = true /\ all_units JS.isSpace after = true
    /\ space_at (first_unit reply) = false
    /\ space_at (last_unit reply) = false.
Proof.
  apply (generated_reply_is_trimmed sample_cfg answering "hello" "  I hear you.  "
           sample_state (advanced sample_state 1) [google]); reflexivity.
Defined.

(* ----------------------------------------------------------------- *)
(** ** Bookings *)

Lemma number_text_inj (a b : Z) : number_text a = number_text b -> a = b.
Proof.
  unfold number_text. intros H. apply DecimalZ.to_int_inj.
  assert (E : Some (Z.to_int a) = Some (Z.to_int b))
    by (rewrite <- !NilEmpty.isi; now rewrite H).
  now injection E.
Qed.

Lemma append_inj_l (p a b : string) : p +++ a = p +++ b -> a = b.
Proof. induction p as [|c p IH]; cbn; [tauto|]. intros H. injection H as H. auto. Qed.

Section BookingFacts.
Variable JSON_parse : string -> option json.
Variable JSON_stringify : json -> string.
Variable toISOString : Z -> string.

Local Abbreviation book := (api_book JSON_parse JSON_stringify toISOString).

Lemma api_book_cases (body : option json) (now created : Z) (disk : BookingDisk) :
  let b := body_or_empty body in
  (json_truthy (prop b "name") && json_truthy (prop b "phone") = false
   /\ book body now created disk = (BookError 400 "Provide name and phone", disk))
  \/ (json_truthy (prop b "name") && json_truthy (prop b "phone") = true
      /\ ((entries_of (stored_bookings JSON_parse disk) = None
           \/ writeFileSync disk = OpenFailed)
          /\ book body now created disk = (BookError 500 "Booking failed", disk)
          \/ (exists all remains,
                entries_of (stored_bookings JSON_parse disk) = Some all
                /\ writeFileSync disk = WriteFailed remains
                /\ book body now created disk
                   = (BookError 500 "Booking failed",
                      {| bookings := File remains; writeFileSync := writeFileSync disk |}))
          \/ exists all name phone,
               entries_of (stored_bookings JSON_parse disk) = Some all
               /\ writeFileSync disk = Written
               /\ prop b "name" = Some name /\ prop b "phone" = Some phone
               /\ book body now created disk
                  = (Booked ("BK" +++ number_text now),
                     {| bookings :=
                          File (JSON_stringify
                                  (JArr (all ++ [booking_entry toISOString
                                                   ("BK" +++ number_text now) name phone
                                                   (prop b "preferred") (prop b "notes")
                                                   (prop b "source") created])));
                        writeFileSync := writeFileSync disk |}))).
Proof.
  cbv zeta. unfold api_book.
  destruct (prop (body_or_empty body) "name") as [name|]; [|left; now split].
  destruct (prop (body_or_empty body) "phone") as [phone|];
    [|left; split; [apply andb_false_r | reflexivity]].
  destruct (json_truthy (Some name)) eqn:Hn; [|left; now split].
  destruct (json_truthy (Some phone)) eqn:Hp; [|left; now split].
  right. split; [reflexivity|]. cbn [negb orb].
  destruct (stored_bookings JSON_parse disk) as [[| | | |all|]|] eqn:S;
    try (left; split; [now left | reflexivity]).
  destruct (writeFileSync disk) as [| |remains] eqn:W.
  - right. right. exists all, name, phone. repeat split.
  - left. split; [now right | reflexivity].
  - right. left. exists all, remains. repeat split.
Qed.

(** X17. [/api/book] answers 400 'Provide name and phone' exactly when
    [name] or [phone] is missing or falsy, and 500 'Booking failed' exactly
    when both are given but the bookings file cannot be read, does not
    parse to an array, or [writeFileSync] throws.  An answer with 400
    leaves the file as it was, and so does an answer with 500 unless
    [writeFileSync] threw after it had opened the file: the file then
    holds what was written before the failure, and the earlier bookings
    are gone.  An accepted booking gets the reference ['BK' + Date.now()],
    and the file then holds the array of the earlier entries, in their
    order, followed by one new entry with that reference, the name and the
    phone of the request. *)
Theorem booking_outcomes
  (body : option json) (now created : Z) (disk : BookingDisk) :
  let b := body_or_empty body in
  let entries := entries_of (stored_bookings JSON_parse disk) in
  let reply := fst (book body now created disk) in
  let after := snd (book body now created disk) in
  (reply = BookError 400 "Provide name and phone"
   <-> json_truthy (prop b "name") && json_truthy (prop b "phone") = false)
  /\ (reply = BookError 500 "Booking failed"
      <-> json_truthy (prop b "name") && json_truthy (prop b "phone") = true
          /\ (entries = None \/ writeFileSync disk <> Written))
  /\ match reply with
     | Booked ref =>
         ref = "BK" +++ number_text now
         /\ writeFileSync disk = Written
         /\ exists all entry,
              entries = Some all
              /\ bookings after = File (JSON_stringify (JArr (all ++ [entry])))
              /\ prop entry "ref" = Some (JStr ref)
              /\ prop entry "name" = prop b "name"
              /\ prop entry "phone" = prop b "phone"
              /\ prop entry "created" = Some (JStr (toISOString created))
     | BookError code error =>
         (code = 400 /\ error = "Provide name and phone" /\ after = disk)
         \/ (code = 500 /\ error = "Booking failed"
             /\ match entries, writeFileSync disk with
                | Some _, WriteFailed remains => bookings after = File remains
                | _, _ => after = disk
                end)
     end.
Proof.
  cbv zeta.
  destruct (api_book_cases body now created disk)
    as [[Hv ->] | [Hv [[Hf ->] | [(all & remains & Hall & Hw & ->)
                                 | (all & name & phone & Hall & Hw & Hn & Hp & ->)]]]];
    cbn [fst snd bookings].
  - split; [tauto|]. split; [split; [discriminate | intros [H _]; congruence]|].
    left. now repeat split.
  - split; [split; [discriminate | congruence]|]. split.
    { split; [intros _; split; [exact Hv|] | reflexivity].
      destruct Hf as [Hf | Hf]; [now left | right; congruence]. }
    right. split; [reflexivity|]. split; [reflexivity|].
    destruct Hf as [-> | ->]; [reflexivity|].
    now destruct (entries_of (stored_bookings JSON_parse disk)).
  - split; [split; [discriminate | congruence]|]. split.
    { split; [intros _; split; [exact Hv | right; congruence] | reflexivity]. }
    right. split; [reflexivity|]. split; [reflexivity|]. now rewrite Hall, Hw.
  - split; [split; [discriminate | congruence]|].
    split; [split; [discriminate | intros [_ [H | H]]; congruence]|].
    split; [reflexivity|]. split; [exact Hw|].
    eexists all, _. split; [exact Hall|]. split; [reflexivity|].
    rewrite Hn, Hp. repeat split.
Qed.

(** X18. Two accepted bookings have the same reference exactly when
    [Date.now()] gave the same value for both: references differ across
    milliseconds and collide within one. *)
Theorem booking_references
  (body1 body2 : option json) (now1 now2 created1 created2 : Z)
  (disk1 disk2 rest1 rest2 : BookingDisk) (ref1 ref2 : string) :
  book body1 now1 created1 disk1 = (Booked ref1, rest1) ->
  book body2 now2 created2 disk2 = (Booked ref2, rest2) ->
  (ref1 = ref2 <-> now1 = now2).
Proof.
  intros H1 H2.
  destruct (api_book_cases body1 now1 created1 disk1)
    as [[_ E1] | [_ [[_ E1] | [(? & ? & _ & _ & E1)
                               | (? & ? & ? & _ & _ & _ & _ & E1)]]]];
    rewrite E1 in H1; try discriminate. injection H1 as <- _.
  destruct (api_book_cases body2 now2 created2 disk2)
    as [[_ E2] | [_ [[_ E2] | [(? & ? & _ & _ & E2)
                               | (? & ? & ? & _ & _ & _ & _ & E2)]]]];
    rewrite E2 in H2; try discriminate. injection H2 as <- _.
  split.
  - intros H. apply (append_inj_l "BK") in H. now apply number_text_inj.
  - now intros ->.
Qed.

End BookingFacts.

(** A write that fails after the file was opened loses the earlier
    bookings. *)
Lemma booking_outcomes_torn_file :
  api_book (fun _ => Some (JArr [JStr "earlier"])) (fun _ => "[...]") (fun _ => "")
    sample_booking 1730000000000 1730000000000
    {| bookings := File "[ earlier ]"; writeFileSync := WriteFailed "" |}
  = (BookError 500 "Booking failed",
     {| bookings := File ""; writeFileSync := WriteFailed "" |}).
Proof. reflexivity. Qed.

Lemma booking_references_witness :
  "BK1730000000000" = "BK1730000000001" <-> 1730000000000%Z = 1730000000001%Z.
Proof.
  apply (booking_references (fun _ => None) (fun _ => "[]") (fun _ => "2024-10-27T03:33:20.000Z")
           sample_booking sample_booking 1730000000000 1730000000001
           1730000000000 1730000000001
           {| bookings := NoFile; writeFileSync := Written |}
           {| bookings := NoFile; writeFileSync := Written |}
           _ _ _ _ eq_refl eq_refl).
Defined.
